(** * deblurringUtils: Haar and blur operators for image deblurring

    A shallow embedding of [deblurringUtils.py] and of the array primitives
    of numpy, scipy and skimage that it calls.

    Array entries are real numbers ([R] of the Standard Library), so that
    [+], [*], [/], [sqrt] and [np.power] are the exact operations: rounding
    of the results of 64-bit float arithmetic is not part of the model.
    The one place where a conversion to float decides what the code does,
    the test [imin != imax] of skimage's [rescale_intensity], is modelled
    with the rounding to the nearest binary64 number ([py_float]).  Python
    exceptions are values of [outcome]; the recursion of [haarMatrix] is
    driven by a fuel argument. *)

From Stdlib Require Import Reals List Arith ZArith Lia Lra Bool.
Import ListNotations.
Local Open Scope R_scope.

(** ** Python outcomes *)

Inductive exn : Set :=
| ValueError
| ZeroDivisionError
| IndexError.

(** [OutOfFuel] is not a Python result: it says that the recursion budget
    given to the model was used up before the call returned. *)
Inductive outcome (A : Type) : Type :=
| Ok (a : A)
| Raise (e : exn)
| OutOfFuel.

Arguments Ok {A} a.
Arguments Raise {A} e.
Arguments OutOfFuel {A}.

Definition bind {A B : Type} (c : outcome A) (k : A -> outcome B) : outcome B :=
  match c with
  | Ok a => k a
  | Raise e => Raise e
  | OutOfFuel => OutOfFuel
  end.

Notation "x <- c ;; k" := (bind c (fun x => k))
  (at level 61, c at next level, right associativity).

(** ** Arrays *)

(** A 1-D array. *)
Definition vector : Type := list R.

(** A 2-D array: its [shape] and its rows (C order). *)
Record matrix : Type := Matrix {
  nrows : nat;
  ncols : nat;
  rows : list (list R)
}.

(** The rows agree with the shape. *)
Definition wf (M : matrix) : Prop :=
  length (rows M) = nrows M /\
  Forall (fun r => length r = ncols M) (rows M).

(** [M[i, j]] *)
Definition get (M : matrix) (i j : nat) : R :=
  nth j (nth i (rows M) []) 0.

(** The [m] by [n] array whose entry [(i, j)] is [f i j]. *)
Definition tabulate (m n : nat) (f : nat -> nat -> R) : matrix :=
  Matrix m n (map (fun i => map (f i) (seq 0 n)) (seq 0 m)).

Definition Rsum (l : list R) : R := fold_right Rplus 0 l.

(** [f 0 + ... + f (n-1)] *)
Definition big_sum (n : nat) (f : nat -> R) : R := Rsum (map f (seq 0 n)).

Definition Rneqb (x y : R) : bool :=
  if Req_dec_T x y then false else true.

(** Number of nonzero entries of a 1-D array ([np.count_nonzero]). *)
Definition count_nonzero (l : vector) : nat :=
  length (filter (fun x => Rneqb x 0) l).

(** Python's index normalisation for a sequence of length [len]:
    negative indices count from the end. *)
Definition norm_index (len : nat) (i : Z) : outcome nat :=
  if (0 <=? i)%Z && (i <? Z.of_nat len)%Z then Ok (Z.to_nat i)
  else if (- Z.of_nat len <=? i)%Z && (i <? 0)%Z then Ok (Z.to_nat (i + Z.of_nat len))
  else Raise IndexError.

Fixpoint update (l : vector) (k : nat) (x : R) : vector :=
  match l, k with
  | [], _ => []
  | _ :: t, O => x :: t
  | h :: t, S k' => h :: update t k' x
  end.

(** [l[i] = x] *)
Definition setitem (l : vector) (i : Z) (x : R) : outcome vector :=
  k <- norm_index (length l) i ;; Ok (update l k x).

(** End of the slice [[:stop]] of a sequence of length [len]. *)
Definition slice_stop (len : nat) (stop : Z) : nat :=
  if (stop <? 0)%Z then Z.to_nat (Z.max 0 (Z.of_nat len + stop))
  else Z.to_nat (Z.min stop (Z.of_nat len)).

(** [l[a:b] = x] for [0 <= a], [0 <= b]: the entries at [a <= k < b]
    become [x]. *)
Definition slice_assign (l : vector) (a b : nat) (x : R) : vector :=
  map (fun k => if (a <=? k)%nat && (k <? b)%nat then x else nth k l 0)
      (seq 0 (length l)).

(** [l[:stop] = x] *)
Definition slice_fill (l : vector) (stop : Z) (x : R) : vector :=
  slice_assign l 0 (slice_stop (length l) stop) x.

(** [int(np.ceil(a / 2))] for an integer [a]. *)
Definition ceil_half (a : Z) : Z := (- ((- a) / 2))%Z.

(** [1 / w] for a Python integer [w]. *)
Definition py_inv (w : Z) : outcome R :=
  if (w =? 0)%Z then Raise ZeroDivisionError else Ok (1 / IZR w).

Module Np.

(** [np.array(rows)] for a nested list literal. *)
Definition array (l : list (list R)) : matrix :=
  Matrix (length l) (length (hd [] l)) l.

Definition zeros (n : nat) : vector := repeat 0 n.

Definition eye (n : nat) : matrix :=
  tabulate n n (fun i j => if (i =? j)%nat then 1 else 0).

Definition diag (d : vector) : matrix :=
  tabulate (length d) (length d)
           (fun i j => if (i =? j)%nat then nth i d 0 else 0).

(** [np.kron(A, B)]: block [(i, j)] is [A[i, j] * B]. *)
Definition kron (A B : matrix) : matrix :=
  tabulate (nrows A * nrows B) (ncols A * ncols B)
           (fun i j => get A (i / nrows B) (j / ncols B)
                       * get B (i mod nrows B) (j mod ncols B)).

(** [np.hstack((A, B))] *)
Definition hstack (A B : matrix) : outcome matrix :=
  if (nrows A =? nrows B)%nat then
    Ok (tabulate (nrows A) (ncols A + ncols B)
                 (fun i j => if (j <? ncols A)%nat then get A i j
                             else get B i (j - ncols A)))
  else Raise ValueError.

(** [A @ B] for 2-D arrays. *)
Definition matmul (A B : matrix) : outcome matrix :=
  if (ncols A =? nrows B)%nat then
    Ok (tabulate (nrows A) (ncols B)
                 (fun i j => big_sum (ncols A) (fun l => get A i l * get B l j)))
  else Raise ValueError.

(** [A @ v] for a 2-D array and a 1-D array. *)
Definition matvec (A : matrix) (v : vector) : outcome vector :=
  if (ncols A =? length v)%nat then
    Ok (map (fun i => big_sum (ncols A) (fun l => get A i l * nth l v 0))
            (seq 0 (nrows A)))
  else Raise ValueError.

(** [A.T] *)
Definition transpose (A : matrix) : matrix :=
  tabulate (ncols A) (nrows A) (fun i j => get A j i).

(** [np.reshape(v, (m, n), order='F')] of a 1-D array: the first index
    changes fastest. *)
Definition reshapeF (v : vector) (m n : nat) : outcome matrix :=
  if (length v =? m * n)%nat then
    Ok (tabulate m n (fun i j => nth (i + m * j) v 0))
  else Raise ValueError.

(** [np.reshape(M, size, order='F')] of a 2-D array to one dimension. *)
Definition ravelF (M : matrix) (size : nat) : outcome vector :=
  if (nrows M * ncols M =? size)%nat then
    Ok (map (fun k => get M (k mod nrows M) (k / nrows M)) (seq 0 size))
  else Raise ValueError.

(** [M.sum(axis=1)] *)
Definition sum_axis1 (M : matrix) : vector := map Rsum (rows M).

(** [np.min] and [np.max] over all entries. *)
Definition amin (M : matrix) : outcome R :=
  match concat (rows M) with
  | [] => Raise ValueError
  | x :: l => Ok (fold_left Rmin l x)
  end.

Definition amax (M : matrix) : outcome R :=
  match concat (rows M) with
  | [] => Raise ValueError
  | x :: l => Ok (fold_left Rmax l x)
  end.

(** [np.clip(x, lo, hi)] on one entry. *)
Definition clip (lo hi x : R) : R := Rmin (Rmax x lo) hi.

(** Entrywise map, keeping the shape. *)
Definition map_entries (f : R -> R) (M : matrix) : matrix :=
  Matrix (nrows M) (ncols M) (map (map f) (rows M)).

End Np.

Module Sp.

(** [scipy.linalg.toeplitz(c, r)]: first column [c], first row [r]
    ([r[0]] is ignored). *)
Definition toeplitz (c r : vector) : matrix :=
  tabulate (length c) (length r)
           (fun i j => if (j <=? i)%nat then nth (i - j) c 0
                       else nth (j - i) r 0).

(** [scipy.linalg.khatri_rao(A, B)]: column [k] of the result is
    [kron(A[:, k], B[:, k])].  The result is obtained by a reshape with an
    inferred number of rows, which numpy refuses for arrays without
    columns. *)
Definition khatri_rao (A B : matrix) : outcome matrix :=
  if (ncols A =? ncols B)%nat then
    if (ncols A =? 0)%nat then Raise ValueError
    else Ok (tabulate (nrows A * nrows B) (ncols A)
                      (fun i j => get A (i / nrows B) j * get B (i mod nrows B) j))
  else Raise ValueError.

(** [scipy.sparse.linalg.LinearOperator]: a shape and the two callbacks. *)
Record LinearOperator : Type := {
  shape : nat * nat;
  matvec_impl : vector -> outcome vector;
  rmatvec_impl : vector -> outcome vector
}.

(** [A.matvec(x)], also [A @ x]: the length of [x] is checked, and the
    result of the callback is reshaped to the number of rows. *)
Definition matvec (A : LinearOperator) (x : vector) : outcome vector :=
  if (length x =? snd (shape A))%nat then
    y <- matvec_impl A x ;;
    if (length y =? fst (shape A))%nat then Ok y else Raise ValueError
  else Raise ValueError.

(** [A.rmatvec(x)] *)
Definition rmatvec (A : LinearOperator) (x : vector) : outcome vector :=
  if (length x =? fst (shape A))%nat then
    y <- rmatvec_impl A x ;;
    if (length y =? snd (shape A))%nat then Ok y else Raise ValueError
  else Raise ValueError.

(** [LinearOperator(shape, matvec=mv, rmatvec=rmv)].  No dtype is given,
    so the constructor finds it by applying [matvec] to a zero vector. *)
Definition mkLinearOperator (sh : nat * nat)
           (mv rmv : vector -> outcome vector) : outcome LinearOperator :=
  let A := {| shape := sh; matvec_impl := mv; rmatvec_impl := rmv |} in
  _ <- matvec A (Np.zeros (snd sh)) ;;
  Ok A.

(** [A.T] *)
Definition T (A : LinearOperator) : LinearOperator :=
  {| shape := (snd (shape A), fst (shape A));
     matvec_impl := rmatvec_impl A;
     rmatvec_impl := matvec_impl A |}.

End Sp.

(** ** Binary64 numbers *)

(** [2**e] for an integer exponent. *)
Definition bpow (e : Z) : R := Rpower 2 (IZR e).

(** [floor(log2(|x|))], the position of the leading bit of [x <> 0]. *)
Definition mag2 (x : R) : Z := Int_part (ln (Rabs x) / ln 2).

(** Exponent of the last place of the binary64 numbers around [x]: 52 bits
    below the leading one, and never below that of the subnormal numbers. *)
Definition cexp (x : R) : Z := (Z.max (mag2 x) (-1022) - 52)%Z.

(** The integer nearest to [r], the even one at a tie. *)
Definition rne (r : R) : Z :=
  let n := Int_part r in
  if Rlt_dec (r - IZR n) (1 / 2) then n
  else if Rlt_dec (1 / 2) (r - IZR n) then (n + 1)%Z
  else if Z.even n then n else (n + 1)%Z.

(** [float(x)]: the binary64 number nearest to [x], ties to even.
    Overflow to infinity (from [2**1024 - 2**970] on) is not modelled. *)
Definition py_float (x : R) : R :=
  if Req_dec_T x 0 then 0
  else IZR (rne (x / bpow (cexp x))) * bpow (cexp x).

Module Sk.

(** [skimage.exposure.rescale_intensity(image, out_range=(omin, omax))]
    with the default [in_range='image']:
    [imin, imax = map(float, intensity_range(image, in_range))], then
    [np.clip(image, imin, imax)], which makes the image a float array, and
    the test [imin != imax] on the two floats. *)
Definition rescale_intensity (image : matrix) (omin omax : R) : outcome matrix :=
  imin <- Np.amin image ;;
  imax <- Np.amax image ;;
  let imin := py_float imin in
  let imax := py_float imax in
  let image := Np.map_entries (fun x => Np.clip imin imax (py_float x)) image in
  if Rneqb imin imax then
    Ok (Np.map_entries
          (fun x => (x - imin) / (imax - imin) * (omax - omin) + omin) image)
  else Ok (Np.map_entries (Np.clip omin omax) image).

End Sk.

(** ** The functions of deblurringUtils.py *)

(** [int(2**np.ceil(np.log2(n)))]: [np.log2(0)] is [-inf], which gives 0. *)
Definition next_pow2 (n : nat) : nat :=
  if (n =? 0)%nat then 0%nat else (2 ^ Nat.log2_up n)%nat.

(** One turn of the loop over [r] in the normalisation: the state is the
    array [d] and the counter [start]. *)
Definition scaling_step (n : nat) (st : vector * nat) (r : nat) : vector * nat :=
  let '(d, start) := st in
  (slice_assign d start (start + 2 ^ r)
                (Rpower 2 (- (INR (Nat.log2 n) - INR r) / 2)),
   (start + 2 ^ r)%nat).

(** The column scaling [d] of the normalised Haar matrix of size [n]
    (a power of two, so that [np.log2(n)] is the integer [Nat.log2 n]). *)
Definition haar_scaling (n : nat) : outcome vector :=
  let d := Np.zeros n in
  d <- setitem d 0 (1 / sqrt (INR n)) ;;
  let start := 1%nat in
  Ok (fst (fold_left (scaling_step n) (seq 0 (Nat.log2 n)) (d, start))).

Fixpoint haarMatrix (fuel : nat) (n : nat) (normalized : bool) : outcome matrix :=
  match fuel with
  | O => OutOfFuel
  | S fuel' =>
    let n := next_pow2 n in
    H <- (if (n =? 2)%nat then Ok (Np.array [[1; 1]; [1; -1]])
          else
            Hprev <- haarMatrix fuel' (n / 2) false ;;
            let Left := Np.kron Hprev (Np.array [[1]; [1]]) in
            let Right := Np.kron (Np.eye (n / 2)) (Np.array [[1]; [-1]]) in
            Np.hstack Left Right) ;;
    if normalized then
      d <- haar_scaling n ;;
      Np.matmul H (Np.diag d)
    else Ok H
  end.

Definition blurMatrix (m : nat) (width : Z) : outcome matrix :=
  let halflen := ceil_half (width - 1) in
  let r := Np.zeros m in
  let c := Np.zeros m in
  x <- py_inv width ;;
  let c := slice_fill c (1 + halflen) x in
  let r := slice_fill r (1 + halflen) x in
  Ok (Sp.toeplitz c r).

Definition fastKronVecProd (A B : matrix) (v : vector) : outcome vector :=
  let m := nrows B in
  let n := ncols B in
  vcols <- Np.reshapeF v n (ncols A) ;;
  BV <- Np.matmul B vcols ;;
  K <- Sp.khatri_rao A BV ;;
  Ok (Np.sum_axis1 K).

Definition vectorize (im : matrix) : outcome vector :=
  let m := nrows im in
  let n := ncols im in
  Np.ravelF im (m * n).

Definition unvectorize (vec : vector) (m n : nat) : outcome matrix :=
  Np.reshapeF vec m n.

Definition rescale (im : matrix) : outcome matrix :=
  Sk.rescale_intensity im 0 1.

Definition genBH (fuel : nat) (n : nat) (blursize : Z)
  : outcome (Sp.LinearOperator * Sp.LinearOperator) :=
  Hn <- haarMatrix fuel n true ;;
  let HnT := Np.transpose Hn in
  let applyH := fun v => fastKronVecProd Hn Hn v in
  let applyHT := fun v => fastKronVecProd HnT HnT v in
  H <- Sp.mkLinearOperator ((n ^ 2)%nat, (n ^ 2)%nat) applyH applyHT ;;
  Brows <- blurMatrix n blursize ;;
  let BrowsT := Np.transpose Brows in
  Bcols <- blurMatrix n blursize ;;
  let BcolsT := Np.transpose Bcols in
  let applyB := fun v => fastKronVecProd Brows Bcols v in
  let applyBT := fun v => fastKronVecProd BrowsT BcolsT v in
  B <- Sp.mkLinearOperator ((n ^ 2)%nat, (n ^ 2)%nat) applyB applyBT ;;
  Ok (B, H).

Definition getrow (B : Sp.LinearOperator) (i : Z) : outcome matrix :=
  let ei := Np.zeros (fst (Sp.shape B)) in
  ei <- setitem ei (i - 1) 1 ;;
  y <- Sp.matvec (Sp.T B) ei ;;
  Ok (Matrix 1 (length y) [y]).

(** [numpy.linalg.matrix_power(a, n)] for [n >= 0]: the identity for 0,
    [a] itself for 1, and the product of [n] copies of [a] beyond (numpy
    groups the factors by squaring, which gives the same matrix in exact
    arithmetic).  A matrix that is not square is refused with
    [LinAlgError], a [ValueError]. *)
Fixpoint power_from (a : matrix) (k : nat) : outcome matrix :=
  match k with
  | O => Ok a
  | S k' => P <- power_from a k' ;; Np.matmul P a
  end.

Definition matrix_power (a : matrix) (n : nat) : outcome matrix :=
  if (nrows a =? ncols a)%nat then
    match n with
    | O => Ok (Np.eye (nrows a))
    | S k => power_from a k
    end
  else Raise ValueError.

Definition vectorized2DHaarMatrix (fuel : nat) (m n d : nat) : outcome matrix :=
  Hm <- haarMatrix fuel m true ;;
  Hcols <- matrix_power Hm d ;;
  Hn <- haarMatrix fuel n true ;;
  Hrows <- matrix_power Hn d ;;
  Ok (Np.kron Hrows Hcols).

Definition vectorized2DBlurMatrix (m n : nat) (width : Z) : outcome matrix :=
  Bcols <- blurMatrix m width ;;
  Brows <- blurMatrix n width ;;
  Ok (Np.kron Brows Bcols).

(** The inner product of two 1-D arrays. *)
Definition dot (u v : vector) : R :=
  big_sum (length u) (fun k => nth k u 0 * nth k v 0).

(** ** Closed forms of the results

    What the functions above return, written as tables of entries; the
    lemmas below relate them to the functions. *)

(** Entry [k] of the generator [c] (and [r]) of [blurMatrix(m, w)]. *)
Definition blur_band (m : nat) (w : Z) (k : nat) : R :=
  if (k <? slice_stop m (1 + ceil_half (w - 1)))%nat then 1 / IZR w else 0.

Definition blur_entry (m : nat) (w : Z) (i j : nat) : R :=
  if (j <=? i)%nat then blur_band m w (i - j) else blur_band m w (j - i).

(** The payload of [np.hstack] when the row counts agree. *)
Definition hstack_table (A B : matrix) : matrix :=
  tabulate (nrows A) (ncols A + ncols B)
           (fun i j => if (j <? ncols A)%nat then get A i j
                       else get B i (j - ncols A)).

(** The matrix that [haarMatrix] returns for size [2 ^ (k+1)] without
    normalisation. *)
Fixpoint haar_unnorm (k : nat) : matrix :=
  match k with
  | O => Np.array [[1; 1]; [1; -1]]
  | S k' =>
      hstack_table (Np.kron (haar_unnorm k') (Np.array [[1]; [1]]))
                   (Np.kron (Np.eye (2 ^ S k')) (Np.array [[1]; [-1]]))
  end.

(** The weight that the loop writes at column [j >= 1]. *)
Definition level_weight (n j : nat) : R :=
  Rpower 2 (- (INR (Nat.log2 n) - INR (Nat.log2 j)) / 2).

(** Entry [j] of the scaling of the Haar matrix of size [n]. *)
Definition haar_weight (n j : nat) : R :=
  if (j =? 0)%nat then 1 / sqrt (INR n) else level_weight n j.

Definition haar_weights (n : nat) : vector :=
  fst (fold_left (scaling_step n) (seq 0 (Nat.log2 n))
                 (update (Np.zeros n) 0 (1 / sqrt (INR n)), 1%nat)).

(** The normalised matrix of size [2 ^ (k+1)]. *)
Definition haar_norm (k : nat) : matrix :=
  tabulate (2 ^ S k) (2 ^ S k)
           (fun i j => big_sum (2 ^ S k)
              (fun l => get (haar_unnorm k) i l
                        * get (Np.diag (haar_weights (2 ^ S k))) l j)).

(** What [haarMatrix] returns for [n >= 2]. *)
Definition haar_result (n : nat) (normalized : bool) : matrix :=
  if normalized then haar_norm (Nat.log2_up n - 1)
  else haar_unnorm (Nat.log2_up n - 1).

Definition sgn (b : nat) : R := if (b =? 0)%nat then 1 else -1.

(** Squared norm of column [j] of the Haar matrix of size [2 ^ K]. *)
Definition gram_diag (K j : nat) : R :=
  INR (2 ^ (K - (if (j =? 0)%nat then 0 else Nat.log2 j))).

(** The columns of [M] are orthonormal. *)
Definition orthonormal_columns (M : matrix) : Prop :=
  forall a b, (a < ncols M)%nat -> (b < ncols M)%nat ->
    big_sum (nrows M) (fun l => get M l a * get M l b)
    = if (a =? b)%nat then 1 else 0.

(** The blur operator that [genBH] builds. *)
Definition blur_operator (n : nat) (w : Z) : Sp.LinearOperator :=
  let T := tabulate n n (blur_entry n w) in
  {| Sp.shape := ((n ^ 2)%nat, (n ^ 2)%nat);
     Sp.matvec_impl := fun v => fastKronVecProd T T v;
     Sp.rmatvec_impl :=
       fun v => fastKronVecProd (Np.transpose T) (Np.transpose T) v |}.

(** The Haar operator that [genBH] builds from the factor [Hn]. *)
Definition haar_operator (n : nat) (Hn : matrix) : Sp.LinearOperator :=
  {| Sp.shape := ((n ^ 2)%nat, (n ^ 2)%nat);
     Sp.matvec_impl := fun v => fastKronVecProd Hn Hn v;
     Sp.rmatvec_impl :=
       fun v => fastKronVecProd (Np.transpose Hn) (Np.transpose Hn) v |}.

(** The operator [L] is the matrix [M]: [matvec] multiplies by [M] and
    [rmatvec] by its transpose. *)
Definition represents (M : matrix) (L : Sp.LinearOperator) : Prop :=
  Sp.shape L = (nrows M, ncols M) /\
  (forall v, length v = ncols M -> Sp.matvec_impl L v = Np.matvec M v) /\
  (forall u, length u = nrows M ->
             Sp.rmatvec_impl L u = Np.matvec (Np.transpose M) u).

(** The operator of a dense matrix ([scipy]'s [aslinearoperator]). *)
Definition matrix_operator (M : matrix) : Sp.LinearOperator :=
  {| Sp.shape := (nrows M, ncols M);
     Sp.matvec_impl := Np.matvec M;
     Sp.rmatvec_impl := Np.matvec (Np.transpose M) |}.

(** ** Sums and tabulated arrays *)

Section Sums.

Lemma Rsum_app (l1 l2 : list R) : Rsum (l1 ++ l2) = Rsum l1 + Rsum l2.
Proof.
  induction l1 as [|x l1 IH]; simpl.
  - ring.
  - rewrite IH. ring.
Qed.

Lemma big_sum_S (n : nat) (f : nat -> R) :
  big_sum (S n) f = big_sum n f + f n.
Proof.
  unfold big_sum. rewrite seq_S, map_app, Rsum_app. simpl. ring.
Qed.

Lemma big_sum_ext (n : nat) (f g : nat -> R) :
  (forall k, (k < n)%nat -> f k = g k) -> big_sum n f = big_sum n g.
Proof.
  induction n as [|n IH]; intros E.
  - reflexivity.
  - rewrite !big_sum_S, IH, (E n) by auto with arith. reflexivity.
Qed.

Lemma big_sum_zero (n : nat) (f : nat -> R) :
  (forall k, (k < n)%nat -> f k = 0) -> big_sum n f = 0.
Proof.
  induction n as [|n IH]; intros E.
  - reflexivity.
  - rewrite big_sum_S, IH, (E n) by auto with arith. ring.
Qed.

Lemma big_sum_scal (n : nat) (c : R) (f : nat -> R) :
  big_sum n (fun k => c * f k) = c * big_sum n f.
Proof.
  induction n as [|n IH].
  - unfold big_sum. simpl. ring.
  - rewrite !big_sum_S, IH. ring.
Qed.

Lemma big_sum_add (a b : nat) (f : nat -> R) :
  big_sum (a + b) f = big_sum a f + big_sum b (fun l => f (a + l)%nat).
Proof.
  induction b as [|b IH].
  - rewrite Nat.add_0_r. unfold big_sum at 3. simpl. ring.
  - rewrite Nat.add_succ_r, !big_sum_S, IH. ring.
Qed.

(** A sum over [q * s] indices, split in [q] blocks of [s]. *)
Lemma big_sum_blocks (q s : nat) (f : nat -> R) :
  big_sum (q * s) f = big_sum q (fun j => big_sum s (fun l => f (j * s + l)%nat)).
Proof.
  induction q as [|q IH].
  - reflexivity.
  - rewrite big_sum_S, <- IH.
    replace (S q * s)%nat with (q * s + s)%nat by lia.
    apply big_sum_add.
Qed.

(** A sum with one nonzero term. *)
Lemma big_sum_single (n c : nat) (f : nat -> R) :
  (c < n)%nat ->
  (forall k, (k < n)%nat -> k <> c -> f k = 0) ->
  big_sum n f = f c.
Proof.
  induction n as [|n IH]; intros Hc E.
  - lia.
  - rewrite big_sum_S.
    destruct (Nat.eq_dec c n) as [->|Hne].
    + rewrite big_sum_zero; [ring|].
      intros k Hk. apply E; lia.
    + rewrite IH, (E n); [ring| lia | lia | lia |].
      intros k Hk Hkc. apply E; lia.
Qed.

End Sums.

Section Tabulate.

Lemma nth_map_seq {A : Type} (f : nat -> A) (d : A) (a n k : nat) :
  (k < n)%nat -> nth k (map f (seq a n)) d = f (a + k)%nat.
Proof.
  intros Hk.
  rewrite (nth_indep _ d (f 0%nat)) by (rewrite length_map, length_seq; exact Hk).
  rewrite map_nth, seq_nth by exact Hk. reflexivity.
Qed.

Lemma map_seq_ext {A : Type} (f g : nat -> A) (a n : nat) :
  (forall k, (a <= k < a + n)%nat -> f k = g k) ->
  map f (seq a n) = map g (seq a n).
Proof.
  intros E. apply map_ext_in. intros k Hk.
  apply in_seq in Hk. apply E. exact Hk.
Qed.

Lemma get_tabulate (m n : nat) (f : nat -> nat -> R) (i j : nat) :
  (i < m)%nat -> (j < n)%nat -> get (tabulate m n f) i j = f i j.
Proof.
  intros Hi Hj. unfold get, tabulate. simpl.
  rewrite (nth_map_seq _ _ 0 m i Hi). simpl.
  rewrite (nth_map_seq _ _ 0 n j Hj). reflexivity.
Qed.

Lemma tabulate_ext (m n : nat) (f g : nat -> nat -> R) :
  (forall i j, (i < m)%nat -> (j < n)%nat -> f i j = g i j) ->
  tabulate m n f = tabulate m n g.
Proof.
  intros E. unfold tabulate. f_equal.
  apply map_seq_ext. intros i Hi.
  apply map_seq_ext. intros j Hj.
  apply E; lia.
Qed.

Lemma wf_tabulate (m n : nat) (f : nat -> nat -> R) : wf (tabulate m n f).
Proof.
  split; simpl.
  - rewrite length_map, length_seq. reflexivity.
  - apply Forall_forall. intros r Hr.
    apply in_map_iff in Hr. destruct Hr as [i [<- _]].
    rewrite length_map, length_seq. reflexivity.
Qed.

Lemma list_eq_map_nth {A : Type} (d : A) (l : list A) :
  l = map (fun k => nth k l d) (seq 0 (length l)).
Proof.
  apply (nth_ext _ _ d d).
  - rewrite length_map, length_seq. reflexivity.
  - intros k Hk. rewrite (nth_map_seq _ d 0 _ k Hk). reflexivity.
Qed.

(** A well-formed array is the table of its entries. *)
Lemma wf_eq_tabulate (M : matrix) :
  wf M -> M = tabulate (nrows M) (ncols M) (get M).
Proof.
  destruct M as [m n rs]. unfold wf, tabulate, get. simpl.
  intros [Hlen Hall]. f_equal. subst m.
  rewrite (list_eq_map_nth [] rs) at 1.
  apply map_seq_ext. intros i Hi.
  assert (Hr : length (nth i rs []) = n).
  { rewrite Forall_forall in Hall. apply Hall, nth_In. lia. }
  rewrite (list_eq_map_nth 0 (nth i rs [])) at 1.
  rewrite Hr. reflexivity.
Qed.

Lemma nrows_tabulate (m n : nat) (f : nat -> nat -> R) :
  nrows (tabulate m n f) = m.
Proof. reflexivity. Qed.

Lemma ncols_tabulate (m n : nat) (f : nat -> nat -> R) :
  ncols (tabulate m n f) = n.
Proof. reflexivity. Qed.

Lemma rows_tabulate_sum (m n : nat) (f : nat -> nat -> R) :
  Np.sum_axis1 (tabulate m n f) = map (fun i => big_sum n (f i)) (seq 0 m).
Proof.
  unfold Np.sum_axis1, tabulate. simpl. rewrite map_map. reflexivity.
Qed.

End Tabulate.

(** ** The Kronecker vector product *)

Section KronVec.

Lemma div_block (s j l : nat) : (l < s)%nat -> ((j * s + l) / s = j)%nat.
Proof.
  intros Hl. rewrite Nat.div_add_l by lia.
  rewrite Nat.div_small by exact Hl. lia.
Qed.

Lemma mod_block (s j l : nat) : (l < s)%nat -> ((j * s + l) mod s = l)%nat.
Proof.
  intros Hl. rewrite Nat.add_comm, Nat.Div0.mod_add.
  apply Nat.mod_small. exact Hl.
Qed.

Lemma index_block_lt (q s j l : nat) :
  (j < q)%nat -> (l < s)%nat -> (j * s + l < q * s)%nat.
Proof. intros Hj Hl. nia. Qed.

Lemma div_lt_rows (p r i : nat) : (i < p * r)%nat -> (i / r < p)%nat.
Proof.
  intros Hi. apply Nat.Div0.div_lt_upper_bound. lia.
Qed.

Lemma mod_lt_rows (p r i : nat) : (i < p * r)%nat -> (i mod r < r)%nat.
Proof.
  intros Hi. apply Nat.mod_upper_bound. destruct r; lia.
Qed.

(** Entry [i] of [kron(A, B) @ v], as a double sum. *)
Lemma kron_matvec_entry (A B : matrix) (v : vector) (i : nat) :
  (i < nrows A * nrows B)%nat ->
  big_sum (ncols A * ncols B)
          (fun t => get (Np.kron A B) i t * nth t v 0)
  = big_sum (ncols A) (fun j =>
      get A (i / nrows B) j *
      big_sum (ncols B) (fun l =>
        get B (i mod nrows B) l * nth (l + ncols B * j) v 0)).
Proof.
  intros Hi. rewrite big_sum_blocks.
  apply big_sum_ext. intros j Hj.
  rewrite <- big_sum_scal.
  apply big_sum_ext. intros l Hl.
  unfold Np.kron.
  rewrite get_tabulate by (auto using index_block_lt).
  rewrite div_block, mod_block by exact Hl.
  replace (l + ncols B * j)%nat with (j * ncols B + l)%nat by lia.
  ring.
Qed.

(** What [fastKronVecProd] returns on an input of the right length. *)
Lemma fastKronVecProd_value (A B : matrix) (v : vector) :
  (0 < ncols A)%nat ->
  length v = (ncols A * ncols B)%nat ->
  fastKronVecProd A B v =
  Ok (map (fun i =>
        big_sum (ncols A) (fun j =>
          get A (i / nrows B) j *
          big_sum (ncols B) (fun l =>
            get B (i mod nrows B) l * nth (l + ncols B * j) v 0)))
      (seq 0 (nrows A * nrows B))).
Proof.
  intros Hq Hv. unfold fastKronVecProd, Np.reshapeF.
  replace (length v =? ncols B * ncols A)%nat with true
    by (symmetry; apply Nat.eqb_eq; lia).
  cbn [bind]. unfold Np.matmul. rewrite nrows_tabulate, ncols_tabulate.
  rewrite Nat.eqb_refl. cbn [bind].
  unfold Sp.khatri_rao. rewrite nrows_tabulate, ncols_tabulate.
  rewrite Nat.eqb_refl.
  replace (ncols A =? 0)%nat with false
    by (symmetry; apply Nat.eqb_neq; lia).
  cbn [bind]. f_equal.
  rewrite rows_tabulate_sum.
  apply map_seq_ext. intros i [_ Hi]. simpl in Hi.
  apply big_sum_ext. intros j Hj.
  rewrite get_tabulate
    by (try assumption; apply (mod_lt_rows (nrows A)); assumption).
  f_equal.
  apply big_sum_ext. intros l Hl.
  rewrite get_tabulate by assumption. reflexivity.
Qed.

Lemma fastKronVecProd_mismatch (A B : matrix) (v : vector) :
  length v <> (ncols A * ncols B)%nat ->
  fastKronVecProd A B v = Raise ValueError.
Proof.
  intros Hv. unfold fastKronVecProd, Np.reshapeF.
  replace (length v =? ncols B * ncols A)%nat with false
    by (symmetry; apply Nat.eqb_neq; lia).
  reflexivity.
Qed.

Lemma kron_matvec_value (A B : matrix) (v : vector) :
  length v = (ncols A * ncols B)%nat ->
  Np.matvec (Np.kron A B) v =
  Ok (map (fun i =>
        big_sum (ncols A) (fun j =>
          get A (i / nrows B) j *
          big_sum (ncols B) (fun l =>
            get B (i mod nrows B) l * nth (l + ncols B * j) v 0)))
      (seq 0 (nrows A * nrows B))).
Proof.
  intros Hv. unfold Np.matvec.
  replace (ncols (Np.kron A B) =? length v)%nat with true
    by (symmetry; apply Nat.eqb_eq; simpl; lia).
  f_equal. unfold Np.kron at 1 3. rewrite nrows_tabulate, ncols_tabulate.
  apply map_seq_ext. intros i [_ Hi]. simpl in Hi.
  apply kron_matvec_entry. exact Hi.
Qed.

Lemma fastKronVecProd_eq_kron_value (M : matrix) (v : vector) :
  (0 < ncols M)%nat -> length v = (ncols M * ncols M)%nat ->
  exists y, fastKronVecProd M M v = Ok y /\ length y = (nrows M * nrows M)%nat.
Proof.
  intros Hq Hv. eexists. split.
  - apply fastKronVecProd_value; assumption.
  - rewrite length_map, length_seq. reflexivity.
Qed.

End KronVec.

(** C1. For a matrix [A] (p by q, with at least one column), a matrix [B]
    (r by s) and a vector [v] of length q*s, [fastKronVecProd(A, B, v)]
    returns the same vector as [kron(A, B) @ v]; it has length p*r. *)
Theorem fastKronVecProd_eq_kron_matvec (A B : matrix) (v : vector) :
  (0 < ncols A)%nat ->
  length v = (ncols A * ncols B)%nat ->
  exists y,
    fastKronVecProd A B v = Ok y /\
    Np.matvec (Np.kron A B) v = Ok y /\
    length y = (nrows A * nrows B)%nat.
Proof.
  intros Hq Hv. eexists. split; [|split].
  - apply fastKronVecProd_value; assumption.
  - apply kron_matvec_value; assumption.
  - rewrite length_map, length_seq. reflexivity.
Qed.

(** C7. When [len(v)] differs from [cols(A) * cols(B)], [fastKronVecProd]
    raises the [ValueError] of numpy's reshape, and so does every caller
    that goes on with its result; when the length is right (and [A] has a
    column) it returns a vector. *)
Theorem fastKronVecProd_length_check (A B : matrix) (v : vector) :
  (length v <> (ncols A * ncols B)%nat ->
   fastKronVecProd A B v = Raise ValueError /\
   forall (C : Type) (k : vector -> outcome C),
     (y <- fastKronVecProd A B v ;; k y) = Raise ValueError) /\
  ((0 < ncols A)%nat -> length v = (ncols A * ncols B)%nat ->
   exists y, fastKronVecProd A B v = Ok y).
Proof.
  split.
  - intros Hv. split.
    + apply fastKronVecProd_mismatch. exact Hv.
    + intros C k. rewrite fastKronVecProd_mismatch by exact Hv. reflexivity.
  - intros Hq Hv. eexists. apply fastKronVecProd_value; assumption.
Qed.

(** ** Vectorize and unvectorize *)

Section Reshape.

Lemma vectorize_value (X : matrix) :
  vectorize X =
  Ok (map (fun k => get X (k mod nrows X) (k / nrows X))
          (seq 0 (nrows X * ncols X))).
Proof.
  unfold vectorize, Np.ravelF. rewrite Nat.eqb_refl. reflexivity.
Qed.

Lemma colmajor_lt (m n i j : nat) :
  (i < m)%nat -> (j < n)%nat -> (i + m * j < m * n)%nat.
Proof. intros Hi Hj. nia. Qed.

Lemma colmajor_mod (m i j : nat) : (i < m)%nat -> ((i + m * j) mod m = i)%nat.
Proof.
  intros Hi. rewrite (Nat.mul_comm m j), Nat.Div0.mod_add.
  apply Nat.mod_small. exact Hi.
Qed.

Lemma colmajor_div (m i j : nat) : (i < m)%nat -> ((i + m * j) / m = j)%nat.
Proof.
  intros Hi. rewrite (Nat.mul_comm m j), Nat.div_add by lia.
  rewrite Nat.div_small by exact Hi. reflexivity.
Qed.

End Reshape.

(** C3. For an m by n array [X], [unvectorize(vectorize(X), m, n)] is [X]
    itself: no entry is changed, only the indexing. *)
Theorem unvectorize_vectorize (X : matrix) (m n : nat) :
  wf X -> nrows X = m -> ncols X = n ->
  (v <- vectorize X ;; unvectorize v m n) = Ok X.
Proof.
  intros HX Hm Hn. rewrite vectorize_value. cbn [bind].
  unfold unvectorize, Np.reshapeF.
  rewrite length_map, length_seq, Hm, Hn, Nat.eqb_refl.
  f_equal. transitivity (tabulate m n (get X)).
  2: { rewrite <- Hm, <- Hn. symmetry. apply wf_eq_tabulate. exact HX. }
  apply tabulate_ext. intros i j Hi Hj.
  rewrite (nth_map_seq _ _ 0) by (apply colmajor_lt; assumption).
  cbn [Nat.add]. rewrite colmajor_mod, colmajor_div by exact Hi.
  reflexivity.
Qed.

Lemma unvectorize_vectorize_witness :
  (v <- vectorize (Np.array [[1; 2; 3]; [4; 5; 6]]) ;; unvectorize v 2 3)
  = Ok (Np.array [[1; 2; 3]; [4; 5; 6]]).
Proof.
  apply unvectorize_vectorize.
  - split; [reflexivity | repeat constructor].
  - reflexivity.
  - reflexivity.
Defined.

Lemma fastKronVecProd_eq_kron_matvec_witness :
  exists y,
    fastKronVecProd (Np.array [[1; 2]; [3; 4]]) (Np.array [[0; 1]; [1; 0]])
                    [1; 2; 3; 4] = Ok y /\
    Np.matvec (Np.kron (Np.array [[1; 2]; [3; 4]]) (Np.array [[0; 1]; [1; 0]]))
              [1; 2; 3; 4] = Ok y /\
    length y = 4%nat.
Proof.
  apply (fastKronVecProd_eq_kron_matvec
           (Np.array [[1; 2]; [3; 4]]) (Np.array [[0; 1]; [1; 0]]) [1; 2; 3; 4]).
  - simpl. lia.
  - reflexivity.
Defined.

Lemma fastKronVecProd_length_check_witness :
  fastKronVecProd (Np.array [[1; 2]; [3; 4]]) (Np.array [[0; 1]; [1; 0]])
                  [1; 2; 3] = Raise ValueError /\
  exists y,
    fastKronVecProd (Np.array [[1; 2]; [3; 4]]) (Np.array [[0; 1]; [1; 0]])
                    [1; 2; 3; 4] = Ok y.
Proof.
  split.
  - apply (fastKronVecProd_length_check
             (Np.array [[1; 2]; [3; 4]]) (Np.array [[0; 1]; [1; 0]]) [1; 2; 3]).
    simpl. lia.
  - apply (fastKronVecProd_length_check
             (Np.array [[1; 2]; [3; 4]]) (Np.array [[0; 1]; [1; 0]]) [1; 2; 3; 4]).
    + simpl. lia.
    + reflexivity.
Defined.

(** ** Rounding to binary64 *)

Section Binary64.

Lemma Int_part_bounds (r : R) : IZR (Int_part r) <= r < IZR (Int_part r) + 1.
Proof. pose proof (base_Int_part r). lra. Qed.

Lemma Int_part_unique (r : R) (n : Z) : IZR n <= r < IZR n + 1 -> Int_part r = n.
Proof. intros H. symmetry. apply Int_part_spec. lra. Qed.

Lemma Int_part_mono (r s : R) : r <= s -> (Int_part r <= Int_part s)%Z.
Proof.
  intros H. pose proof (Int_part_bounds r). pose proof (Int_part_bounds s).
  assert (IZR (Int_part r) < IZR (Int_part s + 1)).
  { rewrite plus_IZR. lra. }
  apply lt_IZR in H2. lia.
Qed.

Lemma rne_IZR (n : Z) : rne (IZR n) = n.
Proof.
  unfold rne. rewrite (Int_part_unique (IZR n) n) by lra.
  destruct (Rlt_dec (IZR n - IZR n) (1 / 2)); [reflexivity | lra].
Qed.

Lemma rne_cases (r : R) :
  let n := Int_part r in
  (rne r = n /\ r - IZR n <= 1 / 2 /\ (r - IZR n = 1 / 2 -> Z.even n = true)) \/
  (rne r = (n + 1)%Z /\ 1 / 2 <= r - IZR n /\ (r - IZR n = 1 / 2 -> Z.even n = false)).
Proof.
  intros n. unfold rne. fold n.
  destruct (Rlt_dec (r - IZR n) (1 / 2)) as [H|H].
  - left. split; [reflexivity | split; [lra | intros; lra]].
  - destruct (Rlt_dec (1 / 2) (r - IZR n)) as [H'|H'].
    + right. split; [reflexivity | split; [lra | intros; lra]].
    + destruct (Z.even n) eqn:E.
      * left. split; [reflexivity | split; [lra | reflexivity]].
      * right. split; [reflexivity | split; [lra | reflexivity]].
Qed.

Lemma rne_mono (r s : R) : r <= s -> (rne r <= rne s)%Z.
Proof.
  intros H. pose proof (Int_part_mono r s H) as Hn.
  pose proof (Int_part_bounds r) as Br. pose proof (Int_part_bounds s) as Bs.
  destruct (rne_cases r) as [(Er & Fr & Tr)|(Er & Fr & Tr)];
    destruct (rne_cases s) as [(Es & Fs & Ts)|(Es & Fs & Ts)];
    rewrite Er, Es; try lia.
  destruct (Z.eq_dec (Int_part r) (Int_part s)) as [E|E]; [|lia].
  exfalso. rewrite E in *.
  assert (Hr : r - IZR (Int_part s) = 1 / 2) by lra.
  assert (Hs : s - IZR (Int_part s) = 1 / 2) by lra.
  specialize (Tr Hr). specialize (Ts Hs). congruence.
Qed.

Lemma bpow_pos (e : Z) : 0 < bpow e.
Proof. unfold bpow, Rpower. apply exp_pos. Qed.

Lemma bpow_plus (a b : Z) : bpow (a + b) = bpow a * bpow b.
Proof. unfold bpow. rewrite plus_IZR. apply Rpower_plus. Qed.

Lemma bpow_le (a b : Z) : (a <= b)%Z -> bpow a <= bpow b.
Proof. intros H. unfold bpow. apply Rle_Rpower; [lra | apply IZR_le, H]. Qed.

Lemma bpow_lt (a b : Z) : (a < b)%Z -> bpow a < bpow b.
Proof. intros H. unfold bpow. apply Rpower_lt; [lra | apply IZR_lt, H]. Qed.

Lemma bpow_lt_inv (a b : Z) : bpow a < bpow b -> (a < b)%Z.
Proof.
  intros H. destruct (Z_lt_le_dec a b) as [L|L]; [exact L|].
  apply bpow_le in L. lra.
Qed.

Lemma bpow_IZR (k : Z) : (0 <= k)%Z -> bpow k = IZR (2 ^ k).
Proof.
  intros H. unfold bpow. rewrite <- (Z2Nat.id k H) at 1 2.
  rewrite <- INR_IZR_INZ, Rpower_pow by lra.
  rewrite pow_IZR. reflexivity.
Qed.

Lemma mag2_bounds (x : R) :
  x <> 0 -> bpow (mag2 x) <= Rabs x < bpow (mag2 x + 1).
Proof.
  intros Hx. assert (Hp : 0 < Rabs x) by (apply Rabs_pos_lt, Hx).
  pose proof ln_lt_2 as L2.
  assert (E : Rabs x = Rpower 2 (ln (Rabs x) / ln 2)).
  { unfold Rpower. replace (ln (Rabs x) / ln 2 * ln 2) with (ln (Rabs x)) by (field; lra).
    symmetry. apply exp_ln, Hp. }
  pose proof (Int_part_bounds (ln (Rabs x) / ln 2)) as [B1 B2].
  fold (mag2 x) in B1, B2. unfold bpow. rewrite plus_IZR. split.
  - apply Rle_trans with (Rpower 2 (ln (Rabs x) / ln 2));
      [apply Rle_Rpower; lra | rewrite <- E; lra].
  - apply Rle_lt_trans with (Rpower 2 (ln (Rabs x) / ln 2));
      [rewrite <- E; lra | apply Rpower_lt; lra].
Qed.

Lemma mag2_unique (x : R) (e : Z) :
  bpow e <= Rabs x < bpow (e + 1) -> mag2 x = e.
Proof.
  intros [H1 H2].
  assert (Hx : x <> 0).
  { intros ->. rewrite Rabs_R0 in H1. pose proof (bpow_pos e). lra. }
  destruct (mag2_bounds x Hx) as [B1 B2].
  assert (e < mag2 x + 1)%Z by (apply bpow_lt_inv; lra).
  assert (mag2 x < e + 1)%Z by (apply bpow_lt_inv; lra).
  lia.
Qed.

Lemma mag2_mono (x y : R) :
  x <> 0 -> y <> 0 -> Rabs x <= Rabs y -> (mag2 x <= mag2 y)%Z.
Proof.
  intros Hx Hy H.
  destruct (mag2_bounds x Hx) as [B1 _]. destruct (mag2_bounds y Hy) as [_ B2].
  assert (mag2 x < mag2 y + 1)%Z by (apply bpow_lt_inv; lra).
  lia.
Qed.

Lemma py_float_nonzero (x : R) :
  x <> 0 -> py_float x = IZR (rne (x / bpow (cexp x))) * bpow (cexp x).
Proof.
  intros H. unfold py_float. destruct (Req_dec_T x 0); [contradiction | reflexivity].
Qed.

Lemma py_float_0 : py_float 0 = 0.
Proof.
  unfold py_float. destruct (Req_dec_T 0 0); [reflexivity | contradiction].
Qed.

(** A number of the grid around [x] stays on its side of [x]. *)
Lemma py_float_le_grid (x : R) (k : Z) :
  x <> 0 -> x <= IZR k * bpow (cexp x) -> py_float x <= IZR k * bpow (cexp x).
Proof.
  intros Hx H. rewrite py_float_nonzero by exact Hx.
  pose proof (bpow_pos (cexp x)) as Hu.
  apply Rmult_le_compat_r; [lra|]. apply IZR_le.
  rewrite <- (rne_IZR k). apply rne_mono.
  apply Rmult_le_reg_r with (bpow (cexp x)); [exact Hu|].
  unfold Rdiv. rewrite Rmult_assoc, Rinv_l by lra. lra.
Qed.

Lemma py_float_ge_grid (x : R) (k : Z) :
  x <> 0 -> IZR k * bpow (cexp x) <= x -> IZR k * bpow (cexp x) <= py_float x.
Proof.
  intros Hx H. rewrite py_float_nonzero by exact Hx.
  pose proof (bpow_pos (cexp x)) as Hu.
  apply Rmult_le_compat_r; [lra|]. apply IZR_le.
  rewrite <- (rne_IZR k) at 1. apply rne_mono.
  apply Rmult_le_reg_r with (bpow (cexp x)); [exact Hu|].
  unfold Rdiv. rewrite Rmult_assoc, Rinv_l by lra. lra.
Qed.

(** A number of its own grid is a binary64 number. *)
Lemma py_float_grid (x : R) (k : Z) :
  x = IZR k * bpow (cexp x) -> py_float x = x.
Proof.
  intros E. destruct (Req_dec_T x 0) as [->|Hx]; [apply py_float_0|].
  apply Rle_antisym.
  - rewrite E at 2. apply py_float_le_grid; [exact Hx | lra].
  - rewrite E at 1. apply py_float_ge_grid; [exact Hx | lra].
Qed.

Lemma bpow_grid (e c : Z) : (c <= e)%Z -> bpow e = IZR (2 ^ (e - c)) * bpow c.
Proof.
  intros H. rewrite <- bpow_IZR by lia. rewrite <- bpow_plus. f_equal. lia.
Qed.

Lemma cexp_mono (x y : R) :
  x <> 0 -> y <> 0 -> Rabs x <= Rabs y -> (cexp x <= cexp y)%Z.
Proof.
  intros Hx Hy H. pose proof (mag2_mono x y Hx Hy H). unfold cexp. lia.
Qed.

Lemma py_float_mono_pos (x y : R) :
  0 < x -> x <= y -> py_float x <= py_float y.
Proof.
  intros Hx Hxy.
  assert (Hx0 : x <> 0) by lra. assert (Hy0 : y <> 0) by lra.
  assert (Hc : (cexp x <= cexp y)%Z).
  { apply cexp_mono; try assumption. rewrite !Rabs_pos_eq by lra. exact Hxy. }
  destruct (Z.eq_dec (cexp x) (cexp y)) as [E|E].
  - rewrite !py_float_nonzero by assumption. rewrite E.
    pose proof (bpow_pos (cexp y)) as Hu.
    apply Rmult_le_compat_r; [lra|]. apply IZR_le, rne_mono.
    unfold Rdiv. apply Rmult_le_compat_r; [|exact Hxy].
    left. apply Rinv_0_lt_compat, Hu.
  - destruct (mag2_bounds x Hx0) as [_ Bx]. destruct (mag2_bounds y Hy0) as [By _].
    rewrite Rabs_pos_eq in Bx, By by lra.
    assert (Hm : (mag2 x + 1 <= mag2 y)%Z) by (unfold cexp in *; lia).
    assert (Hcy : cexp y = (mag2 y - 52)%Z) by (unfold cexp in *; lia).
    pose proof (bpow_le _ _ Hm) as Hb.
    apply Rle_trans with (bpow (mag2 y)).
    + rewrite (bpow_grid (mag2 y) (cexp x)) by lia.
      apply py_float_le_grid; [exact Hx0|].
      rewrite <- bpow_grid by lia. lra.
    + rewrite (bpow_grid (mag2 y) (cexp y)) by lia.
      apply py_float_ge_grid; [exact Hy0|].
      rewrite <- bpow_grid by lia. lra.
Qed.

Lemma py_float_mono_neg (x y : R) :
  y < 0 -> x <= y -> py_float x <= py_float y.
Proof.
  intros Hy Hxy.
  assert (Hx0 : x <> 0) by lra. assert (Hy0 : y <> 0) by lra.
  assert (Hc : (cexp y <= cexp x)%Z).
  { apply cexp_mono; try assumption. rewrite !Rabs_left by lra. lra. }
  destruct (Z.eq_dec (cexp x) (cexp y)) as [E|E].
  - rewrite !py_float_nonzero by assumption. rewrite E.
    pose proof (bpow_pos (cexp y)) as Hu.
    apply Rmult_le_compat_r; [lra|]. apply IZR_le, rne_mono.
    unfold Rdiv. apply Rmult_le_compat_r; [|exact Hxy].
    left. apply Rinv_0_lt_compat, Hu.
  - destruct (mag2_bounds x Hx0) as [Bx _]. destruct (mag2_bounds y Hy0) as [_ By].
    rewrite Rabs_left in Bx, By by lra.
    assert (Hm : (mag2 y + 1 <= mag2 x)%Z) by (unfold cexp in *; lia).
    assert (Hcx : cexp x = (mag2 x - 52)%Z) by (unfold cexp in *; lia).
    pose proof (bpow_le _ _ Hm) as Hb.
    assert (G : forall c, (c <= mag2 x)%Z ->
                - bpow (mag2 x) = IZR (- 2 ^ (mag2 x - c)) * bpow c).
    { intros c Hle. rewrite opp_IZR, <- Ropp_mult_distr_l. f_equal.
      apply bpow_grid, Hle. }
    apply Rle_trans with (- bpow (mag2 x)).
    + rewrite (G (cexp x)) by lia.
      apply py_float_le_grid; [exact Hx0|].
      rewrite <- G by lia. lra.
    + rewrite (G (cexp y)) by lia.
      apply py_float_ge_grid; [exact Hy0|].
      rewrite <- G by lia. lra.
Qed.

Lemma py_float_nonneg (x : R) : 0 <= x -> 0 <= py_float x.
Proof.
  intros H. destruct (Req_dec_T x 0) as [->|Hx]; [rewrite py_float_0; lra|].
  replace 0 with (IZR 0 * bpow (cexp x)) by ring.
  apply py_float_ge_grid; [exact Hx | lra].
Qed.

Lemma py_float_nonpos (x : R) : x <= 0 -> py_float x <= 0.
Proof.
  intros H. destruct (Req_dec_T x 0) as [->|Hx]; [rewrite py_float_0; lra|].
  replace 0 with (IZR 0 * bpow (cexp x)) by ring.
  apply py_float_le_grid; [exact Hx | lra].
Qed.

(** Conversion to float keeps the order. *)
Lemma py_float_mono (x y : R) : x <= y -> py_float x <= py_float y.
Proof.
  intros H. destruct (Rlt_le_dec 0 x) as [Hx|Hx].
  - apply py_float_mono_pos; assumption.
  - destruct (Rlt_le_dec y 0) as [Hy|Hy].
    + apply py_float_mono_neg; assumption.
    + apply Rle_trans with 0; [apply py_float_nonpos | apply py_float_nonneg];
        assumption.
Qed.

(** Integers below [2**53] in magnitude are binary64 numbers. *)
Lemma py_float_IZR (m : Z) : (Z.abs m < 2 ^ 53)%Z -> py_float (IZR m) = IZR m.
Proof.
  intros Hm. destruct (Z.eq_dec m 0) as [->|Hm0]; [apply py_float_0|].
  assert (Hx : IZR m <> 0) by (intros E; apply eq_IZR in E; contradiction).
  destruct (mag2_bounds _ Hx) as [B1 B2].
  rewrite <- abs_IZR in B1, B2.
  assert (H1 : (mag2 (IZR m) < 53)%Z).
  { apply bpow_lt_inv. apply Rle_lt_trans with (IZR (Z.abs m)); [exact B1|].
    rewrite bpow_IZR by lia. apply IZR_lt, Hm. }
  assert (H0 : (0 <= mag2 (IZR m))%Z).
  { assert (0 < mag2 (IZR m) + 1)%Z; [|lia].
    apply bpow_lt_inv. apply Rle_lt_trans with (IZR (Z.abs m)); [|exact B2].
    rewrite bpow_IZR by lia. apply IZR_le. simpl. lia. }
  assert (Hc : (cexp (IZR m) <= 0)%Z) by (unfold cexp; lia).
  apply (py_float_grid _ (m * 2 ^ (- cexp (IZR m)))).
  rewrite mult_IZR, <- bpow_IZR by lia.
  rewrite Rmult_assoc, <- bpow_plus.
  replace (- cexp (IZR m) + cexp (IZR m))%Z with 0%Z by lia.
  rewrite bpow_IZR by lia. simpl. ring.
Qed.

Lemma mag2_two_53 : mag2 9007199254740992 = 53%Z.
Proof.
  apply mag2_unique. rewrite Rabs_pos_eq by lra.
  rewrite !bpow_IZR by lia. split; [apply IZR_le | apply IZR_lt]; reflexivity.
Qed.

Lemma mag2_two_53_1 : mag2 9007199254740993 = 53%Z.
Proof.
  apply mag2_unique. rewrite Rabs_pos_eq by lra.
  rewrite !bpow_IZR by lia. split; [apply IZR_le | apply IZR_lt]; [discriminate | reflexivity].
Qed.

Lemma py_float_two_53 : py_float 9007199254740992 = 9007199254740992.
Proof.
  apply (py_float_grid _ (2 ^ 52)).
  unfold cexp. rewrite mag2_two_53. rewrite bpow_IZR by lia.
  rewrite <- mult_IZR. reflexivity.
Qed.

(** [2**53 + 1] lies halfway between two binary64 numbers and goes to the
    even one, [2**53]. *)
Lemma py_float_two_53_1 : py_float 9007199254740993 = 9007199254740992.
Proof.
  rewrite py_float_nonzero by lra.
  unfold cexp. rewrite mag2_two_53_1.
  change (Z.max 53 (-1022) - 52)%Z with 1%Z.
  rewrite (bpow_IZR 1) by lia. change (IZR (2 ^ 1)) with 2.
  assert (E : rne (9007199254740993 / 2) = 4503599627370496%Z).
  { unfold rne.
    rewrite (Int_part_unique (9007199254740993 / 2) 4503599627370496) by lra.
    destruct (Rlt_dec _ _) as [H|H]; [lra|].
    destruct (Rlt_dec _ _) as [H'|H']; [lra|]. reflexivity. }
  rewrite E. lra.
Qed.

End Binary64.

(** ** Intensity rescaling *)

Section Rescale.

Lemma fold_Rmin_le_init (l : list R) (x : R) : fold_left Rmin l x <= x.
Proof.
  revert x. induction l as [|a l IH]; intros x; simpl.
  - lra.
  - eapply Rle_trans; [apply IH | apply Rmin_l].
Qed.

Lemma fold_Rmin_le_in (l : list R) (x y : R) :
  In y l -> fold_left Rmin l x <= y.
Proof.
  revert x. induction l as [|a l IH]; intros x Hy; simpl.
  - contradiction.
  - destruct Hy as [->|Hy].
    + eapply Rle_trans; [apply fold_Rmin_le_init | apply Rmin_r].
    + apply IH. exact Hy.
Qed.

Lemma fold_Rmax_ge_init (l : list R) (x : R) : x <= fold_left Rmax l x.
Proof.
  revert x. induction l as [|a l IH]; intros x; simpl.
  - lra.
  - eapply Rle_trans; [apply Rmax_l | apply IH].
Qed.

Lemma fold_Rmax_ge_in (l : list R) (x y : R) :
  In y l -> y <= fold_left Rmax l x.
Proof.
  revert x. induction l as [|a l IH]; intros x Hy; simpl.
  - contradiction.
  - destruct Hy as [->|Hy].
    + eapply Rle_trans; [apply Rmax_r | apply fold_Rmax_ge_init].
    + apply IH. exact Hy.
Qed.

Variable f : R -> R.
Hypothesis f_mono : forall a b, a <= b -> f a <= f b.

Lemma mono_Rmin (a b : R) : f (Rmin a b) = Rmin (f a) (f b).
Proof.
  unfold Rmin. destruct (Rle_dec a b) as [H|H].
  - destruct (Rle_dec (f a) (f b)) as [H'|H']; [reflexivity|].
    exfalso. apply H', f_mono, H.
  - assert (Hba : b <= a) by lra. apply f_mono in Hba.
    destruct (Rle_dec (f a) (f b)) as [H'|H']; [lra | reflexivity].
Qed.

Lemma mono_Rmax (a b : R) : f (Rmax a b) = Rmax (f a) (f b).
Proof.
  unfold Rmax. destruct (Rle_dec a b) as [H|H].
  - destruct (Rle_dec (f a) (f b)) as [H'|H']; [reflexivity|].
    exfalso. apply H', f_mono, H.
  - assert (Hba : b <= a) by lra. apply f_mono in Hba.
    destruct (Rle_dec (f a) (f b)) as [H'|H']; [lra | reflexivity].
Qed.

Lemma fold_Rmin_map (l : list R) (x : R) :
  fold_left Rmin (map f l) (f x) = f (fold_left Rmin l x).
Proof.
  revert x. induction l as [|a l IH]; intros x; simpl.
  - reflexivity.
  - rewrite <- mono_Rmin. apply IH.
Qed.

Lemma fold_Rmax_map (l : list R) (x : R) :
  fold_left Rmax (map f l) (f x) = f (fold_left Rmax l x).
Proof.
  revert x. induction l as [|a l IH]; intros x; simpl.
  - reflexivity.
  - rewrite <- mono_Rmax. apply IH.
Qed.

Lemma concat_map_entries (M : matrix) :
  concat (rows (Np.map_entries f M)) = map f (concat (rows M)).
Proof.
  unfold Np.map_entries. simpl. symmetry. apply concat_map.
Qed.

Lemma amin_map_entries (M : matrix) (lo : R) :
  Np.amin M = Ok lo -> Np.amin (Np.map_entries f M) = Ok (f lo).
Proof.
  unfold Np.amin. rewrite concat_map_entries.
  destruct (concat (rows M)) as [|x l]; [discriminate|].
  intros E. injection E as <-. simpl. rewrite fold_Rmin_map. reflexivity.
Qed.

Lemma amax_map_entries (M : matrix) (hi : R) :
  Np.amax M = Ok hi -> Np.amax (Np.map_entries f M) = Ok (f hi).
Proof.
  unfold Np.amax. rewrite concat_map_entries.
  destruct (concat (rows M)) as [|x l]; [discriminate|].
  intros E. injection E as <-. simpl. rewrite fold_Rmax_map. reflexivity.
Qed.

End Rescale.

Section RescaleBounds.

Lemma amin_le_entry (M : matrix) (lo x : R) :
  Np.amin M = Ok lo -> In x (concat (rows M)) -> lo <= x.
Proof.
  unfold Np.amin. destruct (concat (rows M)) as [|a l]; [discriminate|].
  intros E [->|Hx]; injection E as <-.
  - apply fold_Rmin_le_init.
  - apply fold_Rmin_le_in. exact Hx.
Qed.

Lemma amax_ge_entry (M : matrix) (hi x : R) :
  Np.amax M = Ok hi -> In x (concat (rows M)) -> x <= hi.
Proof.
  unfold Np.amax. destruct (concat (rows M)) as [|a l]; [discriminate|].
  intros E [->|Hx]; injection E as <-.
  - apply fold_Rmax_ge_init.
  - apply fold_Rmax_ge_in. exact Hx.
Qed.

Lemma amin_le_amax (M : matrix) (lo hi : R) :
  Np.amin M = Ok lo -> Np.amax M = Ok hi -> lo <= hi.
Proof.
  intros Hlo Hhi.
  assert (E : exists x, In x (concat (rows M))).
  { unfold Np.amin in Hlo. destruct (concat (rows M)) as [|a l];
      [discriminate | exists a; left; reflexivity]. }
  destruct E as [x Hx].
  apply Rle_trans with x;
    [eapply amin_le_entry | eapply amax_ge_entry]; eassumption.
Qed.

Lemma map_entries_ext_in (f g : R -> R) (M : matrix) :
  (forall x, In x (concat (rows M)) -> f x = g x) ->
  Np.map_entries f M = Np.map_entries g M.
Proof.
  intros E. unfold Np.map_entries. f_equal.
  apply map_ext_in. intros r Hr.
  apply map_ext_in. intros x Hx.
  apply E. apply in_concat. exists r. split; assumption.
Qed.

Lemma map_entries_comp (f g : R -> R) (M : matrix) :
  Np.map_entries g (Np.map_entries f M) = Np.map_entries (fun x => g (f x)) M.
Proof.
  unfold Np.map_entries. simpl. f_equal.
  rewrite map_map. apply map_ext. intros r. apply map_map.
Qed.

Lemma Rneqb_true (x y : R) : x <> y -> Rneqb x y = true.
Proof.
  intros H. unfold Rneqb. destruct (Req_dec_T x y); [contradiction | reflexivity].
Qed.

Lemma Rneqb_false (x : R) : Rneqb x x = false.
Proof.
  unfold Rneqb. destruct (Req_dec_T x x); [reflexivity | contradiction].
Qed.

Lemma clip_id (lo hi x : R) : lo <= x <= hi -> Np.clip lo hi x = x.
Proof.
  intros [H1 H2]. unfold Np.clip.
  rewrite Rmax_left by exact H1. apply Rmin_left. exact H2.
Qed.

End RescaleBounds.

Section RescaleValue.

Variables (im : matrix) (lo hi : R).
Hypothesis Hlo : Np.amin im = Ok lo.
Hypothesis Hhi : Np.amax im = Ok hi.

Lemma py_float_entry (x : R) :
  In x (concat (rows im)) -> py_float lo <= py_float x <= py_float hi.
Proof.
  intros Hx. split; apply py_float_mono;
    [eapply amin_le_entry | eapply amax_ge_entry]; eassumption.
Qed.

Lemma unit_map_mono :
  py_float lo <> py_float hi ->
  forall a b, a <= b ->
    (py_float a - py_float lo) / (py_float hi - py_float lo)
    <= (py_float b - py_float lo) / (py_float hi - py_float lo).
Proof.
  intros Hne a b Hab.
  pose proof (py_float_mono lo hi (amin_le_amax im lo hi Hlo Hhi)) as Hle.
  pose proof (py_float_mono a b Hab) as Hab'.
  unfold Rdiv. apply Rmult_le_compat_r; [|lra].
  left. apply Rinv_0_lt_compat. lra.
Qed.

(** The affine branch: taken when the two floats differ. *)
Lemma rescale_value :
  py_float lo <> py_float hi ->
  rescale im
  = Ok (Np.map_entries
          (fun x => (py_float x - py_float lo) / (py_float hi - py_float lo)) im).
Proof.
  intros Hne.
  unfold rescale, Sk.rescale_intensity. rewrite Hlo, Hhi. cbn [bind].
  rewrite Rneqb_true by exact Hne. f_equal.
  rewrite map_entries_comp. apply map_entries_ext_in.
  intros x Hx. rewrite clip_id by (apply py_float_entry, Hx).
  field. lra.
Qed.

Lemma rescale_output_range :
  py_float lo <> py_float hi ->
  Np.amin (Np.map_entries
             (fun x => (py_float x - py_float lo) / (py_float hi - py_float lo)) im)
  = Ok 0 /\
  Np.amax (Np.map_entries
             (fun x => (py_float x - py_float lo) / (py_float hi - py_float lo)) im)
  = Ok 1.
Proof.
  intros Hne. split.
  - rewrite (amin_map_entries _ (unit_map_mono Hne) im lo Hlo).
    f_equal. field. lra.
  - rewrite (amax_map_entries _ (unit_map_mono Hne) im hi Hhi).
    f_equal. field. lra.
Qed.

(** The other branch: taken when the two floats are equal. *)
Lemma rescale_value_constant :
  py_float lo = py_float hi ->
  rescale im = Ok (Np.map_entries (fun _ => Np.clip 0 1 (py_float lo)) im).
Proof.
  intros He.
  unfold rescale, Sk.rescale_intensity. rewrite Hlo, Hhi. cbn [bind].
  rewrite <- He, Rneqb_false. f_equal.
  rewrite map_entries_comp. apply map_entries_ext_in.
  intros x Hx. f_equal.
  pose proof (py_float_entry x Hx) as [H1 H2]. rewrite <- He in H2.
  assert (E : py_float x = py_float lo) by lra. rewrite E.
  apply clip_id. lra.
Qed.

End RescaleValue.

Section RescaleExamples.

Lemma amin_example : Np.amin (Np.array [[2; 4]; [3; 6]]) = Ok 2.
Proof.
  unfold Np.amin. simpl. f_equal.
  rewrite (Rmin_left 2 4), (Rmin_left 2 3), (Rmin_left 2 6); lra.
Qed.

Lemma amax_example : Np.amax (Np.array [[2; 4]; [3; 6]]) = Ok 6.
Proof.
  unfold Np.amax. simpl. f_equal.
  rewrite (Rmax_right 2 4), (Rmax_left 4 3), (Rmax_right 4 6); lra.
Qed.

Lemma py_float_example : py_float 2 <> py_float 6.
Proof.
  rewrite (py_float_IZR 2), (py_float_IZR 6) by reflexivity. lra.
Qed.

Lemma bpow_1022_ge (x : R) : x <= 8 -> x <= bpow 1022.
Proof.
  intros H. apply Rle_trans with (bpow 3).
  - rewrite bpow_IZR by lia. change (IZR (2 ^ 3)) with 8. exact H.
  - apply bpow_le. lia.
Qed.

Lemma bpow_1022_le (x : R) : 0 <= x -> - bpow 1022 <= x.
Proof. intros H. pose proof (bpow_pos 1022). lra. Qed.

End RescaleExamples.

(** C8 (as the code has it). For an image whose minimum [lo] and maximum
    [hi] differ as floats, [float(lo) != float(hi)], and are at most
    [2**1022] in magnitude (so that no operation of the code overflows),
    [rescale(image)] returns the image with every entry [x] replaced by
    [(float(x) - float(lo)) / (float(hi) - float(lo))]; its minimum is 0
    and its maximum is 1. *)
Theorem rescale_range (im : matrix) (lo hi : R) :
  Np.amin im = Ok lo -> Np.amax im = Ok hi ->
  py_float lo <> py_float hi ->
  - bpow 1022 <= lo -> hi <= bpow 1022 ->
  exists out,
    rescale im = Ok out /\
    out = Np.map_entries
            (fun x => (py_float x - py_float lo) / (py_float hi - py_float lo)) im /\
    Np.amin out = Ok 0 /\
    Np.amax out = Ok 1.
Proof.
  intros Hlo Hhi Hne _ _.
  eexists. split; [apply (rescale_value im lo hi Hlo Hhi Hne)|].
  split; [reflexivity|].
  apply (rescale_output_range im lo hi Hlo Hhi Hne).
Qed.

Lemma rescale_range_witness :
  exists out,
    rescale (Np.array [[2; 4]; [3; 6]]) = Ok out /\
    out = Np.map_entries
            (fun x => (py_float x - py_float 2) / (py_float 6 - py_float 2))
            (Np.array [[2; 4]; [3; 6]]) /\
    Np.amin out = Ok 0 /\
    Np.amax out = Ok 1.
Proof.
  apply (rescale_range (Np.array [[2; 4]; [3; 6]]) 2 6).
  - exact amin_example.
  - exact amax_example.
  - exact py_float_example.
  - apply bpow_1022_le. lra.
  - apply bpow_1022_ge. lra.
Defined.

(** C8 as stated fails on the integer image [[2**53, 2**53 + 1]]: it is
    not constant, but its minimum and maximum are the same float, so that
    [rescale] takes the branch of the constant images and returns
    [[1, 1]], whose minimum is not 0. *)
Lemma rescale_counterexample :
  Np.amin (Np.array [[9007199254740992; 9007199254740993]])
  = Ok 9007199254740992 /\
  Np.amax (Np.array [[9007199254740992; 9007199254740993]])
  = Ok 9007199254740993 /\
  9007199254740992 <> 9007199254740993 /\
  rescale (Np.array [[9007199254740992; 9007199254740993]])
  = Ok (Np.array [[1; 1]]) /\
  ~ exists out,
      rescale (Np.array [[9007199254740992; 9007199254740993]]) = Ok out /\
      Np.amin out = Ok 0 /\ Np.amax out = Ok 1.
Proof.
  assert (Hlo : Np.amin (Np.array [[9007199254740992; 9007199254740993]])
                = Ok 9007199254740992).
  { unfold Np.amin. simpl. f_equal. apply Rmin_left. lra. }
  assert (Hhi : Np.amax (Np.array [[9007199254740992; 9007199254740993]])
                = Ok 9007199254740993).
  { unfold Np.amax. simpl. f_equal. apply Rmax_right. lra. }
  assert (He : py_float 9007199254740992 = py_float 9007199254740993).
  { rewrite py_float_two_53, py_float_two_53_1. reflexivity. }
  assert (Hr : rescale (Np.array [[9007199254740992; 9007199254740993]])
               = Ok (Np.array [[1; 1]])).
  { rewrite (rescale_value_constant _ _ _ Hlo Hhi He).
    rewrite py_float_two_53.
    assert (Hc : Np.clip 0 1 9007199254740992 = 1).
    { unfold Np.clip. rewrite Rmax_left by lra. apply Rmin_right. lra. }
    rewrite Hc. reflexivity. }
  split; [exact Hlo|]. split; [exact Hhi|]. split; [lra|]. split; [exact Hr|].
  intros (out & E & Hmin & _). rewrite Hr in E. injection E as <-.
  unfold Np.amin in Hmin. simpl in Hmin. injection Hmin as Hmin.
  rewrite Rmin_left in Hmin by lra. lra.
Qed.

(** ** The blur matrix *)

Section Blur.

Lemma length_slice_assign (l : vector) (a b : nat) (x : R) :
  length (slice_assign l a b x) = length l.
Proof. unfold slice_assign. rewrite length_map, length_seq. reflexivity. Qed.

Lemma nth_slice_assign (l : vector) (a b : nat) (x : R) (k : nat) :
  nth k (slice_assign l a b x) 0 =
  if (k <? length l)%nat then
    if (a <=? k)%nat && (k <? b)%nat then x else nth k l 0
  else 0.
Proof.
  unfold slice_assign. destruct (Nat.ltb_spec k (length l)) as [Hk|Hk].
  - rewrite (nth_map_seq _ _ 0) by exact Hk. reflexivity.
  - apply nth_overflow. rewrite length_map, length_seq. exact Hk.
Qed.

Lemma nth_zeros (n k : nat) : nth k (Np.zeros n) 0 = 0.
Proof. apply nth_repeat. Qed.

Lemma length_zeros (n : nat) : length (Np.zeros n) = n.
Proof. apply repeat_length. Qed.

Lemma slice_stop_le (len : nat) (stop : Z) : (slice_stop len stop <= len)%nat.
Proof.
  unfold slice_stop. destruct (Z.ltb_spec stop 0); lia.
Qed.

Lemma nth_blur_generator (m : nat) (w : Z) (k : nat) :
  nth k (slice_fill (Np.zeros m) (1 + ceil_half (w - 1)) (1 / IZR w)) 0
  = blur_band m w k.
Proof.
  unfold slice_fill, blur_band.
  rewrite nth_slice_assign, length_zeros, nth_zeros. cbn [Nat.leb andb].
  pose proof (slice_stop_le m (1 + ceil_half (w - 1))) as Hle.
  destruct (Nat.ltb_spec k m) as [Hk|Hk];
    destruct (Nat.ltb_spec k (slice_stop m (1 + ceil_half (w - 1))));
    try reflexivity; lia.
Qed.

Lemma blurMatrix_value (m : nat) (w : Z) :
  w <> 0%Z -> blurMatrix m w = Ok (tabulate m m (blur_entry m w)).
Proof.
  intros Hw. unfold blurMatrix, py_inv.
  replace (w =? 0)%Z with false by (symmetry; apply Z.eqb_neq; exact Hw).
  cbn [bind]. f_equal. unfold Sp.toeplitz.
  unfold slice_fill at 1 2. rewrite !length_slice_assign, length_zeros.
  apply tabulate_ext. intros i j Hi Hj.
  rewrite !nth_blur_generator. reflexivity.
Qed.

Lemma blurMatrix_zero_width (m : nat) :
  blurMatrix m 0 = Raise ZeroDivisionError.
Proof. reflexivity. Qed.

Lemma blur_entry_sym (m : nat) (w : Z) (i j : nat) :
  blur_entry m w i j = blur_entry m w j i.
Proof.
  unfold blur_entry.
  destruct (Nat.leb_spec j i) as [H1|H1]; destruct (Nat.leb_spec i j) as [H2|H2];
    try reflexivity; try lia.
  replace j with i by lia. reflexivity.
Qed.

Lemma transpose_tabulate (m n : nat) (f : nat -> nat -> R) :
  Np.transpose (tabulate m n f) = tabulate n m (fun i j => f j i).
Proof.
  unfold Np.transpose. rewrite nrows_tabulate, ncols_tabulate.
  apply tabulate_ext. intros i j Hi Hj. apply get_tabulate; assumption.
Qed.

Lemma nrows_transpose (M : matrix) : nrows (Np.transpose M) = ncols M.
Proof. reflexivity. Qed.

Lemma ncols_transpose (M : matrix) : ncols (Np.transpose M) = nrows M.
Proof. reflexivity. Qed.

Lemma blur_transpose (m : nat) (w : Z) :
  Np.transpose (tabulate m m (blur_entry m w)) = tabulate m m (blur_entry m w).
Proof.
  rewrite transpose_tabulate. apply tabulate_ext.
  intros i j _ _. apply blur_entry_sym.
Qed.

Lemma row_tabulate (m n : nat) (f : nat -> nat -> R) (i : nat) :
  (i < m)%nat -> nth i (rows (tabulate m n f)) [] = map (f i) (seq 0 n).
Proof.
  intros Hi. unfold tabulate. simpl.
  rewrite (nth_map_seq _ _ 0) by exact Hi. reflexivity.
Qed.

Lemma filter_map_length {A B : Type} (p : B -> bool) (g : A -> B) (l : list A) :
  length (filter p (map g l)) = length (filter (fun a => p (g a)) l).
Proof.
  induction l as [|a l IH]; simpl.
  - reflexivity.
  - destruct (p (g a)); simpl; rewrite IH; reflexivity.
Qed.

(** Nonzero entries confined to a window of [n] indices are at most [n]. *)
Lemma count_nonzero_window (g : nat -> R) (m a n : nat) :
  (forall j, (j < m)%nat -> g j <> 0 -> (a <= j < a + n)%nat) ->
  (count_nonzero (map g (seq 0 m)) <= n)%nat.
Proof.
  intros Hwin. unfold count_nonzero. rewrite filter_map_length.
  apply Nat.le_trans with (length (seq a n)); [|rewrite length_seq; lia].
  apply NoDup_incl_length.
  - apply NoDup_filter, seq_NoDup.
  - intros j Hj. apply filter_In in Hj. destruct Hj as [Hj Hnz].
    apply in_seq in Hj. apply in_seq. apply Hwin; [lia|].
    unfold Rneqb in Hnz. destruct (Req_dec_T (g j) 0); [discriminate | assumption].
Qed.

Lemma ceil_half_odd_pred (w : Z) :
  Z.odd w = true -> (1 + 2 * ceil_half (w - 1) = w)%Z.
Proof.
  intros Hodd. unfold ceil_half.
  rewrite Z.odd_spec in Hodd. destruct Hodd as [t ->].
  replace (- (2 * t + 1 - 1))%Z with ((- t) * 2)%Z by lia.
  rewrite Z.div_mul by lia. lia.
Qed.

Lemma blur_band_nonzero (m : nat) (w : Z) (k : nat) :
  (0 <= 1 + ceil_half (w - 1))%Z ->
  blur_band m w k <> 0 -> (Z.of_nat k < 1 + ceil_half (w - 1))%Z.
Proof.
  intros Hpos. unfold blur_band.
  destruct (Nat.ltb_spec k (slice_stop m (1 + ceil_half (w - 1)))) as [Hk|Hk];
    [|intros H; contradiction H; reflexivity].
  intros _. unfold slice_stop in Hk.
  destruct (Z.ltb_spec (1 + ceil_half (w - 1)) 0); lia.
Qed.

Lemma blur_band_values (m : nat) (w : Z) (k : nat) :
  blur_band m w k = 0 \/ blur_band m w k = 1 / IZR w.
Proof.
  unfold blur_band. destruct (_ <? _)%nat; [right | left]; reflexivity.
Qed.

Lemma count_nonzero_ones (x : R) :
  x <> 0 -> count_nonzero [x; x; x] = 3%nat.
Proof.
  intros Hx. unfold count_nonzero. simpl.
  rewrite (Rneqb_true x 0 Hx). reflexivity.
Qed.

End Blur.

(** C4 (as the code has it). For an odd width [w >= 1], [blurMatrix(m, w)]
    is an m by m symmetric matrix; each of its rows has at most
    [1 + 2 * ceil((w-1)/2) = w] nonzero entries, and every nonzero entry
    is [1/w]. *)
Theorem blurMatrix_symmetric_band (m : nat) (w : Z) :
  Z.odd w = true -> (1 <= w)%Z ->
  exists T,
    blurMatrix m w = Ok T /\
    nrows T = m /\ ncols T = m /\
    Np.transpose T = T /\
    forall i, (i < m)%nat ->
      (count_nonzero (nth i (rows T) []) <= Z.to_nat (1 + 2 * ceil_half (w - 1)))%nat /\
      forall j, (j < m)%nat -> get T i j = 0 \/ get T i j = 1 / IZR w.
Proof.
  intros Hodd Hw. exists (tabulate m m (blur_entry m w)).
  split; [apply blurMatrix_value; lia|].
  split; [reflexivity|]. split; [reflexivity|].
  split; [apply blur_transpose|].
  intros i Hi. split.
  - rewrite row_tabulate by exact Hi.
    pose proof (ceil_half_odd_pred w Hodd) as Hh.
    apply (count_nonzero_window _ m (i - Z.to_nat (ceil_half (w - 1)))).
    intros j Hj Hnz. unfold blur_entry in Hnz.
    destruct (Nat.leb_spec j i) as [Hji|Hji];
      apply blur_band_nonzero in Hnz; lia.
  - intros j Hj. rewrite get_tabulate by assumption.
    unfold blur_entry. destruct (j <=? i)%nat; apply blur_band_values.
Qed.

Lemma blurMatrix_symmetric_band_witness :
  exists T,
    blurMatrix 4 3 = Ok T /\
    nrows T = 4%nat /\ ncols T = 4%nat /\
    Np.transpose T = T /\
    forall i, (i < 4)%nat ->
      (count_nonzero (nth i (rows T) []) <= Z.to_nat (1 + 2 * ceil_half (3 - 1)))%nat /\
      forall j, (j < 4)%nat -> get T i j = 0 \/ get T i j = 1 / IZR 3.
Proof.
  apply (blurMatrix_symmetric_band 4 3).
  - reflexivity.
  - lia.
Defined.

(** C4 as stated fails: the middle row of [blurMatrix(3, 3)] has three
    nonzero entries, more than [1 + ceil((3-1)/2) = 2]. *)
Lemma blurMatrix_row_counterexample :
  exists T,
    blurMatrix 3 3 = Ok T /\
    count_nonzero (nth 1 (rows T) []) = 3%nat /\
    ~ (count_nonzero (nth 1 (rows T) []) <= Z.to_nat (1 + ceil_half (3 - 1)))%nat.
Proof.
  exists (tabulate 3 3 (blur_entry 3 3)).
  split; [apply blurMatrix_value; lia|].
  assert (E : count_nonzero (nth 1 (rows (tabulate 3 3 (blur_entry 3 3))) []) = 3%nat).
  { rewrite row_tabulate by lia.
    change (count_nonzero [1 / IZR 3; 1 / IZR 3; 1 / IZR 3] = 3%nat).
    apply count_nonzero_ones. lra. }
  split; [exact E|]. rewrite E.
  change (Z.to_nat (1 + ceil_half (3 - 1))) with 2%nat. lia.
Qed.

(** ** The Haar matrix: recursion *)

Section HaarRecursion.

Lemma next_pow2_pos (n : nat) :
  (1 <= n)%nat -> next_pow2 n = (2 ^ Nat.log2_up n)%nat.
Proof.
  intros Hn. unfold next_pow2.
  replace (n =? 0)%nat with false by (symmetry; apply Nat.eqb_neq; lia).
  reflexivity.
Qed.

Lemma next_pow2_pow2 (k : nat) : next_pow2 (2 ^ k) = (2 ^ k)%nat.
Proof.
  rewrite next_pow2_pos.
  - rewrite Nat.log2_up_pow2 by lia. reflexivity.
  - pose proof (Nat.pow_nonzero 2 k). lia.
Qed.

Lemma next_pow2_idem (n : nat) : next_pow2 (next_pow2 n) = next_pow2 n.
Proof.
  destruct n as [|n]; [reflexivity|].
  rewrite (next_pow2_pos (S n)) by lia. apply next_pow2_pow2.
Qed.

Lemma next_pow2_zero : next_pow2 0 = 0%nat.
Proof. reflexivity. Qed.

Lemma next_pow2_one : next_pow2 1 = 1%nat.
Proof. reflexivity. Qed.

(** Only the rounded size matters. *)
Lemma haarMatrix_round (fuel n : nat) (b : bool) :
  haarMatrix fuel n b = haarMatrix fuel (next_pow2 n) b.
Proof.
  destruct fuel as [|fuel]; [reflexivity|].
  cbn [haarMatrix]. rewrite next_pow2_idem. reflexivity.
Qed.

Lemma log2_up_ge_1 (n : nat) : (2 <= n)%nat -> (1 <= Nat.log2_up n)%nat.
Proof.
  intros Hn. pose proof (Nat.log2_up_pos n). lia.
Qed.

Lemma pow2_succ_div2 (k : nat) : (2 ^ S k / 2 = 2 ^ k)%nat.
Proof.
  rewrite Nat.pow_succ_r'. rewrite Nat.mul_comm. apply Nat.div_mul. lia.
Qed.

Lemma pow2_pos (k : nat) : (0 < 2 ^ k)%nat.
Proof. pose proof (Nat.pow_nonzero 2 k). lia. Qed.

Lemma pow2_succ_eqb_2 (k : nat) : (2 ^ S (S k) =? 2)%nat = false.
Proof.
  apply Nat.eqb_neq. rewrite !Nat.pow_succ_r'. pose proof (pow2_pos k). lia.
Qed.

Lemma haar_unnorm_shape (k : nat) :
  nrows (haar_unnorm k) = (2 ^ S k)%nat /\ ncols (haar_unnorm k) = (2 ^ S k)%nat.
Proof.
  induction k as [|k [IHr IHc]].
  - split; reflexivity.
  - cbn [haar_unnorm]. unfold hstack_table.
    rewrite nrows_tabulate, ncols_tabulate. unfold Np.kron, Np.eye.
    rewrite !nrows_tabulate, !ncols_tabulate, IHr, IHc.
    cbn [Np.array nrows ncols length hd].
    rewrite (Nat.pow_succ_r' 2 (S k)). split; lia.
Qed.

Lemma haarMatrix_unnorm (k fuel : nat) :
  (k < fuel)%nat -> haarMatrix fuel (2 ^ S k) false = Ok (haar_unnorm k).
Proof.
  revert fuel. induction k as [|k IH]; intros fuel Hf.
  - destruct fuel as [|fuel]; [lia|]. reflexivity.
  - destruct fuel as [|fuel]; [lia|].
    cbn [haarMatrix]. rewrite next_pow2_pow2, pow2_succ_eqb_2, pow2_succ_div2.
    rewrite IH by lia. cbn [bind].
    unfold Np.hstack.
    destruct (haar_unnorm_shape k) as [Hr Hc].
    replace (Nat.eqb (nrows (Np.kron (haar_unnorm k) (Np.array [[1]; [1]])))
                     (nrows (Np.kron (Np.eye (2 ^ S k)) (Np.array [[1]; [-1]]))))
      with true.
    + reflexivity.
    + symmetry. apply Nat.eqb_eq. unfold Np.kron, Np.eye.
      rewrite !nrows_tabulate, Hr. reflexivity.
Qed.

(** With and without normalisation, the first step at size [2 ^ (k+1)]. *)
Lemma haarMatrix_pow2 (k fuel : nat) (b : bool) :
  (k < fuel)%nat ->
  haarMatrix fuel (2 ^ S k) b =
  if b then d <- haar_scaling (2 ^ S k) ;; Np.matmul (haar_unnorm k) (Np.diag d)
  else Ok (haar_unnorm k).
Proof.
  intros Hf. destruct b; [|apply haarMatrix_unnorm; exact Hf].
  pose proof (haarMatrix_unnorm k fuel Hf) as Hu.
  destruct fuel as [|fuel]; [lia|].
  cbn [haarMatrix] in Hu |- *.
  rewrite next_pow2_pow2 in Hu |- *.
  match type of Hu with
  | bind ?c _ = _ => destruct c as [H| |]; cbn [bind] in Hu |- *;
                     try discriminate
  end.
  injection Hu as ->. reflexivity.
Qed.

(** At sizes 0 and 1 the recursion calls itself on size 0 for ever. *)
Lemma haarMatrix_zero_diverges (fuel : nat) (b : bool) :
  haarMatrix fuel 0 b = OutOfFuel.
Proof.
  revert b. induction fuel as [|fuel IH]; intros b; [reflexivity|].
  cbn [haarMatrix]. rewrite next_pow2_zero.
  change (0 =? 2)%nat with false. change (0 / 2)%nat with 0%nat.
  rewrite IH. reflexivity.
Qed.

Lemma haarMatrix_one_diverges (fuel : nat) (b : bool) :
  haarMatrix fuel 1 b = OutOfFuel.
Proof.
  destruct fuel as [|fuel]; [reflexivity|].
  cbn [haarMatrix]. rewrite next_pow2_one.
  change (1 =? 2)%nat with false. change (1 / 2)%nat with 0%nat.
  rewrite haarMatrix_zero_diverges. reflexivity.
Qed.

End HaarRecursion.

(** ** The Haar matrix: column scaling *)

Section HaarScaling.

Lemma length_update (l : vector) (k : nat) (x : R) :
  length (update l k x) = length l.
Proof.
  revert k. induction l as [|h l IH]; intros k; [reflexivity|].
  destruct k; simpl; [|rewrite IH]; reflexivity.
Qed.

Lemma nth_update (l : vector) (k : nat) (x : R) (j : nat) :
  (k < length l)%nat ->
  nth j (update l k x) 0 = if (j =? k)%nat then x else nth j l 0.
Proof.
  revert k j. induction l as [|h l IH]; intros k j Hk; simpl in Hk; [lia|].
  destruct k as [|k]; destruct j as [|j]; simpl; try reflexivity.
  apply IH. lia.
Qed.

Lemma setitem_nonneg (l : vector) (k : nat) (x : R) :
  (k < length l)%nat -> setitem l (Z.of_nat k) x = Ok (update l k x).
Proof.
  intros Hk. unfold setitem, norm_index.
  replace ((0 <=? Z.of_nat k)%Z && (Z.of_nat k <? Z.of_nat (length l))%Z)
    with true.
  - cbn [bind]. rewrite Nat2Z.id. reflexivity.
  - symmetry. apply andb_true_intro. split; [apply Z.leb_le | apply Z.ltb_lt]; lia.
Qed.

(** State of the loop after [t] turns. *)
Lemma scaling_loop_spec (n : nat) (d0 : vector) (t : nat) :
  let st := fold_left (scaling_step n) (seq 0 t) (d0, 1%nat) in
  snd st = (2 ^ t)%nat /\
  length (fst st) = length d0 /\
  forall j, nth j (fst st) 0 =
            if (1 <=? j)%nat && (j <? 2 ^ t)%nat && (j <? length d0)%nat
            then level_weight n j else nth j d0 0.
Proof.
  induction t as [|t IH].
  - simpl. split; [reflexivity|]. split; [reflexivity|].
    intros j. destruct j as [|[|j]]; reflexivity.
  - rewrite seq_S, fold_left_app. cbn [Nat.add fold_left].
    destruct (fold_left (scaling_step n) (seq 0 t) (d0, 1%nat)) as [d start].
    cbn [fst snd] in IH. destruct IH as (Hs & Hl & Hn). subst start.
    unfold scaling_step. cbn [fst snd].
    split; [rewrite Nat.pow_succ_r'; lia|].
    split; [rewrite length_slice_assign; exact Hl|].
    intros j. rewrite nth_slice_assign, Hl, Hn.
    rewrite (Nat.pow_succ_r' 2 t).
    pose proof (pow2_pos t) as Hp.
    destruct (Nat.ltb_spec j (length d0)) as [Hj|Hj].
    + destruct (Nat.leb_spec (2 ^ t) j) as [H1|H1];
        destruct (Nat.ltb_spec j (2 ^ t + 2 ^ t)) as [H2|H2];
        destruct (Nat.leb_spec 1 j) as [H3|H3];
        destruct (Nat.ltb_spec j (2 ^ t)) as [H4|H4];
        destruct (Nat.ltb_spec j (2 * 2 ^ t)) as [H5|H5];
        cbn [andb]; try reflexivity; try lia.
      unfold level_weight. rewrite (Nat.log2_unique j t); [reflexivity|lia|].
      rewrite Nat.pow_succ_r'. lia.
    + rewrite !andb_false_r. rewrite nth_overflow; [reflexivity|lia].
Qed.

Lemma haar_scaling_value (n : nat) :
  (0 < n)%nat -> haar_scaling n = Ok (haar_weights n).
Proof.
  intros Hn. unfold haar_scaling.
  rewrite (setitem_nonneg (Np.zeros n) 0) by (rewrite length_zeros; exact Hn).
  reflexivity.
Qed.

Lemma length_haar_weights (n : nat) : length (haar_weights n) = n.
Proof.
  unfold haar_weights.
  destruct (scaling_loop_spec n (update (Np.zeros n) 0 (1 / sqrt (INR n)))
                              (Nat.log2 n)) as (_ & Hl & _).
  rewrite Hl, length_update, length_zeros. reflexivity.
Qed.

Lemma nth_haar_weights (k j : nat) :
  (j < 2 ^ k)%nat -> nth j (haar_weights (2 ^ k)) 0 = haar_weight (2 ^ k) j.
Proof.
  intros Hj. unfold haar_weights.
  destruct (scaling_loop_spec (2 ^ k)
              (update (Np.zeros (2 ^ k)) 0 (1 / sqrt (INR (2 ^ k))))
              (Nat.log2 (2 ^ k))) as (_ & _ & Hn).
  rewrite Hn, length_update, length_zeros.
  rewrite Nat.log2_pow2 by lia.
  rewrite nth_update by (rewrite length_zeros; lia).
  unfold haar_weight. destruct j as [|j]; [reflexivity|].
  replace (S j <? 2 ^ k)%nat with true by (symmetry; apply Nat.ltb_lt; exact Hj).
  reflexivity.
Qed.

End HaarScaling.

(** ** The Haar matrix: termination *)

Section HaarTermination.

Lemma haarMatrix_pow2_normalized (k fuel : nat) :
  (k < fuel)%nat -> haarMatrix fuel (2 ^ S k) true = Ok (haar_norm k).
Proof.
  intros Hf. rewrite haarMatrix_pow2 by exact Hf.
  rewrite haar_scaling_value by apply pow2_pos. cbn [bind].
  unfold haar_norm, Np.matmul, Np.diag. rewrite nrows_tabulate, ncols_tabulate.
  destruct (haar_unnorm_shape k) as [Hr Hc].
  rewrite Hr, Hc, length_haar_weights, Nat.eqb_refl. reflexivity.
Qed.

Lemma haarMatrix_returns (n fuel : nat) (b : bool) :
  (2 <= n)%nat -> (Nat.log2_up n <= fuel)%nat ->
  haarMatrix fuel n b = Ok (haar_result n b).
Proof.
  intros Hn Hf. pose proof (log2_up_ge_1 n Hn) as Hk.
  rewrite haarMatrix_round, next_pow2_pos by lia.
  replace (Nat.log2_up n) with (S (Nat.log2_up n - 1)) at 1 by lia.
  unfold haar_result. destruct b.
  - apply haarMatrix_pow2_normalized. lia.
  - apply haarMatrix_unnorm. lia.
Qed.

(** The recursive call is on a power of two that is strictly smaller. *)
Lemma haar_recursion_decreases (k : nat) :
  next_pow2 (2 ^ S (S k) / 2) = (2 ^ S k)%nat /\ (2 ^ S k < 2 ^ S (S k))%nat.
Proof.
  rewrite pow2_succ_div2, next_pow2_pow2. split; [reflexivity|].
  rewrite (Nat.pow_succ_r' 2 (S k)). pose proof (pow2_pos (S k)). lia.
Qed.

End HaarTermination.

(** C9. For [n >= 2] and either flag, [haarMatrix(n, normalized)] returns:
    a recursion depth of [ceil(log2 n)] is enough, and more depth gives the
    same matrix.  Its size is [2^ceil(log2 n)]. *)
Theorem haarMatrix_terminates (n : nat) (normalized : bool) :
  (2 <= n)%nat ->
  exists H,
    nrows H = (2 ^ Nat.log2_up n)%nat /\ ncols H = (2 ^ Nat.log2_up n)%nat /\
    forall fuel, (Nat.log2_up n <= fuel)%nat ->
                 haarMatrix fuel n normalized = Ok H.
Proof.
  intros Hn. exists (haar_result n normalized).
  pose proof (log2_up_ge_1 n Hn) as Hk.
  assert (E : S (Nat.log2_up n - 1) = Nat.log2_up n) by lia.
  split; [|split].
  - unfold haar_result. destruct normalized.
    + unfold haar_norm. rewrite nrows_tabulate, E. reflexivity.
    + destruct (haar_unnorm_shape (Nat.log2_up n - 1)) as [Hr _].
      rewrite Hr, E. reflexivity.
  - unfold haar_result. destruct normalized.
    + unfold haar_norm. rewrite ncols_tabulate, E. reflexivity.
    + destruct (haar_unnorm_shape (Nat.log2_up n - 1)) as [_ Hc].
      rewrite Hc, E. reflexivity.
  - intros fuel Hf. apply haarMatrix_returns; assumption.
Qed.

Lemma haarMatrix_terminates_witness :
  exists H,
    nrows H = (2 ^ Nat.log2_up 5)%nat /\ ncols H = (2 ^ Nat.log2_up 5)%nat /\
    forall fuel, (Nat.log2_up 5 <= fuel)%nat -> haarMatrix fuel 5 true = Ok H.
Proof.
  apply (haarMatrix_terminates 5 true). lia.
Defined.

(** ** The Haar matrix: orthogonality of the columns *)

Section HaarGram.

Lemma big_sum_2 (f : nat -> R) : big_sum 2 f = f 0%nat + f 1%nat.
Proof. unfold big_sum. simpl. ring. Qed.

Lemma get_ones_column (b : nat) :
  (b < 2)%nat -> get (Np.array [[1]; [1]]) b 0 = 1.
Proof. intros Hb. destruct b as [|[|b]]; [reflexivity | reflexivity | lia]. Qed.

Lemma get_signs_column (b : nat) :
  (b < 2)%nat -> get (Np.array [[1]; [-1]]) b 0 = sgn b.
Proof. intros Hb. destruct b as [|[|b]]; [reflexivity | reflexivity | lia]. Qed.

(** Entries of the matrix of size [2 ^ (k+2)] from those of size
    [2 ^ (k+1)]: row [2a + b], column [j]. *)
Lemma haar_unnorm_entry (k a b j : nat) :
  (a < 2 ^ S k)%nat -> (b < 2)%nat -> (j < 2 ^ S (S k))%nat ->
  get (haar_unnorm (S k)) (a * 2 + b) j =
  if (j <? 2 ^ S k)%nat then get (haar_unnorm k) a j
  else if (a =? j - 2 ^ S k)%nat then sgn b else 0.
Proof.
  intros Ha Hb Hj. destruct (haar_unnorm_shape k) as [Hr Hc].
  assert (Hj' : (j < 2 ^ S k + 2 ^ S k)%nat)
    by (rewrite (Nat.pow_succ_r' 2 (S k)) in Hj; lia).
  cbn [haar_unnorm]. unfold hstack_table.
  assert (HcL : ncols (Np.kron (haar_unnorm k) (Np.array [[1]; [1]])) = (2 ^ S k)%nat).
  { unfold Np.kron. rewrite ncols_tabulate, Hc. apply Nat.mul_1_r. }
  assert (HrL : nrows (Np.kron (haar_unnorm k) (Np.array [[1]; [1]])) = (2 ^ S k * 2)%nat).
  { unfold Np.kron. rewrite nrows_tabulate, Hr. reflexivity. }
  assert (HcR : ncols (Np.kron (Np.eye (2 ^ S k)) (Np.array [[1]; [-1]])) = (2 ^ S k)%nat).
  { unfold Np.kron, Np.eye. rewrite !ncols_tabulate. apply Nat.mul_1_r. }
  rewrite HcL, HrL, HcR.
  rewrite get_tabulate by (try assumption; apply index_block_lt; assumption).
  destruct (Nat.ltb_spec j (2 ^ S k)) as [Hlt|Hge].
  - unfold Np.kron. rewrite Hr, Hc.
    cbn [Np.array nrows ncols length hd].
    rewrite get_tabulate by (try lia; apply index_block_lt; assumption).
    rewrite div_block, mod_block by exact Hb.
    rewrite Nat.div_1_r, Nat.mod_1_r, get_ones_column by exact Hb. ring.
  - unfold Np.kron, Np.eye. rewrite !nrows_tabulate, !ncols_tabulate.
    cbn [Np.array nrows ncols length hd].
    rewrite get_tabulate by (try lia; apply index_block_lt; assumption).
    rewrite div_block, mod_block by exact Hb.
    rewrite Nat.div_1_r, Nat.mod_1_r, get_signs_column by exact Hb.
    rewrite get_tabulate by lia.
    destruct (a =? j - 2 ^ S k)%nat; ring.
Qed.

Lemma gram_diag_double (k j : nat) :
  (j < 2 ^ S k)%nat -> gram_diag (S (S k)) j = 2 * gram_diag (S k) j.
Proof.
  intros Hj. unfold gram_diag.
  assert (E : (S (S k) - (if (j =? 0)%nat then 0 else Nat.log2 j) =
               S (S k - (if (j =? 0)%nat then 0 else Nat.log2 j)))%nat).
  { destruct j as [|j]; cbn [Nat.eqb]; [lia|].
    assert (Nat.log2 (S j) < S k)%nat by (apply Nat.log2_lt_pow2; lia). lia. }
  rewrite E, Nat.pow_succ_r', mult_INR. simpl. ring.
Qed.

Lemma gram_diag_top (k j : nat) :
  (2 ^ S k <= j)%nat -> (j < 2 ^ S (S k))%nat -> gram_diag (S (S k)) j = 2.
Proof.
  intros H1 H2. unfold gram_diag.
  pose proof (pow2_pos (S k)).
  replace (j =? 0)%nat with false by (symmetry; apply Nat.eqb_neq; lia).
  rewrite (Nat.log2_unique j (S k)) by lia.
  replace (S (S k) - S k)%nat with 1%nat by lia. simpl. ring.
Qed.

(** The columns of the Haar matrix are orthogonal. *)
Lemma haar_gram (k j j' : nat) :
  (j < 2 ^ S k)%nat -> (j' < 2 ^ S k)%nat ->
  big_sum (2 ^ S k)
          (fun i => get (haar_unnorm k) i j * get (haar_unnorm k) i j')
  = if (j =? j')%nat then gram_diag (S k) j else 0.
Proof.
  revert j j'. induction k as [|k IH]; intros j j' Hj Hj'.
  - change (2 ^ 1)%nat with 2%nat in *. rewrite big_sum_2.
    destruct j as [|[|j]]; destruct j' as [|[|j']]; try lia;
      unfold gram_diag; cbn [Nat.eqb];
      try change (Nat.log2 1) with 0%nat; unfold get; simpl; ring.
  - pose proof (pow2_pos (S k)) as Hp.
    rewrite (Nat.pow_succ_r' 2 (S k)) in Hj, Hj'.
    replace (2 ^ S (S k))%nat with (2 ^ S k * 2)%nat
      by (rewrite (Nat.pow_succ_r' 2 (S k)); lia).
    rewrite big_sum_blocks.
    transitivity
      (big_sum (2 ^ S k) (fun a =>
         if (j <? 2 ^ S k)%nat then
           if (j' <? 2 ^ S k)%nat
           then 2 * (get (haar_unnorm k) a j * get (haar_unnorm k) a j')
           else 0
         else
           if (j' <? 2 ^ S k)%nat then 0
           else if (a =? j - 2 ^ S k)%nat
                then if (j =? j')%nat then 2 else 0
                else 0)).
    { apply big_sum_ext. intros a Ha. rewrite big_sum_2.
      rewrite !haar_unnorm_entry
        by (try assumption; try lia; rewrite (Nat.pow_succ_r' 2 (S k)); lia).
      unfold sgn. cbn [Nat.eqb].
      destruct (Nat.ltb_spec j (2 ^ S k)); destruct (Nat.ltb_spec j' (2 ^ S k));
        destruct (Nat.eqb_spec a (j - 2 ^ S k));
        destruct (Nat.eqb_spec a (j' - 2 ^ S k));
        destruct (Nat.eqb_spec j j'); try ring; lia. }
    destruct (Nat.ltb_spec j (2 ^ S k)) as [H1|H1];
      destruct (Nat.ltb_spec j' (2 ^ S k)) as [H2|H2].
    + rewrite big_sum_scal, IH by assumption.
      destruct (j =? j')%nat; [|ring].
      rewrite gram_diag_double by exact H1. reflexivity.
    + rewrite big_sum_zero by reflexivity.
      replace (j =? j')%nat with false by (symmetry; apply Nat.eqb_neq; lia).
      reflexivity.
    + rewrite big_sum_zero by reflexivity.
      replace (j =? j')%nat with false by (symmetry; apply Nat.eqb_neq; lia).
      reflexivity.
    + rewrite (big_sum_single _ (j - 2 ^ S k)).
      * rewrite Nat.eqb_refl. destruct (j =? j')%nat; [|reflexivity].
        symmetry. apply gram_diag_top; [exact H1|].
        rewrite (Nat.pow_succ_r' 2 (S k)). lia.
      * lia.
      * intros a Ha Hne.
        replace (a =? j - 2 ^ S k)%nat with false
          by (symmetry; apply Nat.eqb_neq; exact Hne).
        reflexivity.
Qed.

End HaarGram.

(** ** The Haar matrix: normalisation *)

Section HaarNormalised.

Lemma get_diag (d : vector) (l j : nat) :
  (l < length d)%nat -> (j < length d)%nat ->
  get (Np.diag d) l j = if (l =? j)%nat then nth l d 0 else 0.
Proof. intros Hl Hj. unfold Np.diag. apply get_tabulate; assumption. Qed.

(** Normalisation multiplies column [j] by its weight. *)
Lemma haar_norm_entry (k i j : nat) :
  (i < 2 ^ S k)%nat -> (j < 2 ^ S k)%nat ->
  get (haar_norm k) i j = get (haar_unnorm k) i j * haar_weight (2 ^ S k) j.
Proof.
  intros Hi Hj. unfold haar_norm. rewrite get_tabulate by assumption.
  rewrite (big_sum_single _ j).
  - rewrite get_diag by (rewrite length_haar_weights; exact Hj).
    rewrite Nat.eqb_refl, nth_haar_weights by exact Hj. reflexivity.
  - exact Hj.
  - intros l Hl Hne.
    rewrite get_diag by (rewrite length_haar_weights; assumption).
    replace (l =? j)%nat with false by (symmetry; apply Nat.eqb_neq; exact Hne).
    ring.
Qed.

Lemma INR_pow2 (d : nat) : INR (2 ^ d) = 2 ^ d.
Proof. rewrite pow_INR. reflexivity. Qed.

Lemma pow2_R_pos (d : nat) : 0 < 2 ^ d.
Proof. apply pow_lt. lra. Qed.

Lemma level_weight_sq (K j : nat) :
  (1 <= j)%nat -> (j < 2 ^ K)%nat ->
  level_weight (2 ^ K) j * level_weight (2 ^ K) j * gram_diag K j = 1.
Proof.
  intros H1 H2. unfold level_weight, gram_diag.
  rewrite Nat.log2_pow2 by lia.
  replace (j =? 0)%nat with false by (symmetry; apply Nat.eqb_neq; lia).
  assert (Hr : (Nat.log2 j < K)%nat) by (apply Nat.log2_lt_pow2; lia).
  rewrite <- Rpower_plus.
  replace (- (INR K - INR (Nat.log2 j)) / 2 + - (INR K - INR (Nat.log2 j)) / 2)
    with (- INR (K - Nat.log2 j)) by (rewrite minus_INR by lia; field).
  rewrite Rpower_Ropp, Rpower_pow by lra.
  rewrite INR_pow2. field. apply Rgt_not_eq, pow2_R_pos.
Qed.

Lemma haar_weight_sq (K j : nat) :
  (j < 2 ^ K)%nat ->
  haar_weight (2 ^ K) j * haar_weight (2 ^ K) j * gram_diag K j = 1.
Proof.
  intros Hj. unfold haar_weight. destruct j as [|j]; cbn [Nat.eqb].
  - unfold gram_diag. cbn [Nat.eqb]. rewrite Nat.sub_0_r.
    assert (Hpos : 0 < INR (2 ^ K)) by (rewrite INR_pow2; apply pow2_R_pos).
    pose proof (sqrt_lt_R0 _ Hpos) as Hs.
    pose proof (sqrt_sqrt (INR (2 ^ K)) (Rlt_le _ _ Hpos)) as Hss.
    rewrite <- Hss at 3. field. lra.
  - apply level_weight_sq; [lia | exact Hj].
Qed.

(** The columns of the normalised Haar matrix are orthonormal. *)
Lemma haar_norm_gram (k i j : nat) :
  (i < 2 ^ S k)%nat -> (j < 2 ^ S k)%nat ->
  big_sum (2 ^ S k) (fun l => get (haar_norm k) l i * get (haar_norm k) l j)
  = if (i =? j)%nat then 1 else 0.
Proof.
  intros Hi Hj.
  transitivity
    (big_sum (2 ^ S k) (fun l =>
       (haar_weight (2 ^ S k) i * haar_weight (2 ^ S k) j)
       * (get (haar_unnorm k) l i * get (haar_unnorm k) l j))).
  { apply big_sum_ext. intros l Hl.
    rewrite !haar_norm_entry by assumption. ring. }
  rewrite big_sum_scal, haar_gram by assumption.
  destruct (Nat.eqb_spec i j) as [->|Hne]; [|ring].
  apply haar_weight_sq. exact Hj.
Qed.

(** The gram matrix of the normalised Haar matrix is the identity. *)
Lemma haar_norm_orthonormal (k : nat) :
  Np.matmul (Np.transpose (haar_norm k)) (haar_norm k) = Ok (Np.eye (2 ^ S k)).
Proof.
  unfold Np.matmul, Np.transpose at 1.
  rewrite ncols_tabulate.
  assert (Hr : nrows (haar_norm k) = (2 ^ S k)%nat) by reflexivity.
  assert (Hc : ncols (haar_norm k) = (2 ^ S k)%nat) by reflexivity.
  rewrite Hr, Nat.eqb_refl. f_equal.
  unfold Np.transpose. rewrite nrows_tabulate, Hr, Hc. unfold Np.eye.
  apply tabulate_ext. intros i j Hi Hj.
  rewrite <- (haar_norm_gram k i j) by assumption.
  apply big_sum_ext. intros l Hl.
  rewrite get_tabulate by assumption. reflexivity.
Qed.

End HaarNormalised.

(** C2 (as the code has it). For [n >= 2], [haarMatrix(n, True)] returns a
    square matrix [H] of size [2^ceil(log2 n)] with [H^T H] the identity. *)
Theorem haarMatrix_orthonormal (n : nat) :
  (2 <= n)%nat ->
  exists H,
    (forall fuel, (Nat.log2_up n <= fuel)%nat -> haarMatrix fuel n true = Ok H) /\
    nrows H = (2 ^ Nat.log2_up n)%nat /\
    ncols H = (2 ^ Nat.log2_up n)%nat /\
    Np.matmul (Np.transpose H) H = Ok (Np.eye (2 ^ Nat.log2_up n)).
Proof.
  intros Hn. pose proof (log2_up_ge_1 n Hn) as Hk.
  assert (E : S (Nat.log2_up n - 1) = Nat.log2_up n) by lia.
  exists (haar_norm (Nat.log2_up n - 1)).
  split; [|split; [|split]].
  - intros fuel Hf. apply (haarMatrix_returns n fuel true); assumption.
  - unfold haar_norm. rewrite nrows_tabulate, E. reflexivity.
  - unfold haar_norm. rewrite ncols_tabulate, E. reflexivity.
  - rewrite haar_norm_orthonormal, E. reflexivity.
Qed.

Lemma haarMatrix_orthonormal_witness :
  exists H,
    (forall fuel, (Nat.log2_up 3 <= fuel)%nat -> haarMatrix fuel 3 true = Ok H) /\
    nrows H = (2 ^ Nat.log2_up 3)%nat /\
    ncols H = (2 ^ Nat.log2_up 3)%nat /\
    Np.matmul (Np.transpose H) H = Ok (Np.eye (2 ^ Nat.log2_up 3)).
Proof.
  apply (haarMatrix_orthonormal 3). lia.
Defined.

(** C2 as stated fails at [n = 1]: the size is rounded to 1, which is not
    the base case, and the recursion goes on at size 0 without end, so no
    matrix is returned. *)
Lemma haarMatrix_one_counterexample :
  ~ exists fuel H, haarMatrix fuel 1 true = Ok H.
Proof.
  intros (fuel & H & E). rewrite haarMatrix_one_diverges in E. discriminate.
Qed.

(** ** Applying an operator and then its adjoint *)

Section RoundTrip.

Lemma big_sum_plus (n : nat) (f g : nat -> R) :
  big_sum n (fun k => f k + g k) = big_sum n f + big_sum n g.
Proof.
  induction n as [|n IH].
  - unfold big_sum. simpl. ring.
  - rewrite !big_sum_S, IH. ring.
Qed.

Lemma big_sum_swap (m n : nat) (f : nat -> nat -> R) :
  big_sum m (fun i => big_sum n (fun j => f i j))
  = big_sum n (fun j => big_sum m (fun i => f i j)).
Proof.
  induction m as [|m IH].
  - symmetry. apply big_sum_zero. reflexivity.
  - rewrite big_sum_S, IH, <- big_sum_plus.
    apply big_sum_ext. intros j _. rewrite big_sum_S. reflexivity.
Qed.

Lemma big_sum_swap_scal (m n : nat) (c d : nat -> R) (X : nat -> nat -> R) :
  big_sum m (fun k => c k * big_sum n (fun j => d j * X k j))
  = big_sum n (fun j => d j * big_sum m (fun k => c k * X k j)).
Proof.
  transitivity (big_sum m (fun k => big_sum n (fun j => d j * (c k * X k j)))).
  { apply big_sum_ext. intros k _. rewrite <- big_sum_scal.
    apply big_sum_ext. intros j _. ring. }
  rewrite big_sum_swap.
  apply big_sum_ext. intros j _. apply big_sum_scal.
Qed.

Lemma gram_apply (M : matrix) (f : nat -> R) (a : nat) :
  orthonormal_columns M -> (a < ncols M)%nat ->
  big_sum (nrows M) (fun k =>
    get M k a * big_sum (ncols M) (fun b => get M k b * f b))
  = f a.
Proof.
  intros HM Ha.
  transitivity
    (big_sum (nrows M) (fun k =>
       get M k a * big_sum (ncols M) (fun b => f b * get M k b))).
  { apply big_sum_ext. intros k _. f_equal.
    apply big_sum_ext. intros b _. ring. }
  rewrite (big_sum_swap_scal (nrows M) (ncols M) (fun k => get M k a) f
                             (fun k b => get M k b)).
  rewrite (big_sum_single _ a).
  - rewrite HM, Nat.eqb_refl by exact Ha. ring.
  - exact Ha.
  - intros b Hb Hne. rewrite HM by assumption.
    replace (a =? b)%nat with false by (symmetry; apply Nat.eqb_neq; lia).
    ring.
Qed.

Lemma div_mod_colmajor (s t : nat) : (t mod s + s * (t / s) = t)%nat.
Proof. rewrite (Nat.div_mod_eq t s) at 3. lia. Qed.

(** For factors with orthonormal columns, the product with the transposed
    factors undoes [fastKronVecProd]. *)
Lemma fastKronVecProd_transposed_inverse (A B : matrix) (v : vector) :
  (0 < ncols A)%nat -> (0 < nrows A)%nat ->
  length v = (ncols A * ncols B)%nat ->
  orthonormal_columns A -> orthonormal_columns B ->
  (y <- fastKronVecProd A B v ;;
   fastKronVecProd (Np.transpose A) (Np.transpose B) y) = Ok v.
Proof.
  intros Hq Hp Hv HA HB.
  rewrite fastKronVecProd_value by assumption. cbn [bind].
  rewrite fastKronVecProd_value.
  2: { rewrite ncols_transpose. exact Hp. }
  2: { rewrite !ncols_transpose, length_map, length_seq. reflexivity. }
  apply f_equal. rewrite !nrows_transpose, !ncols_transpose.
  transitivity (map (fun t => nth t v 0) (seq 0 (length v)));
    [|symmetry; apply list_eq_map_nth].
  rewrite Hv.
  apply map_seq_ext. intros t [_ Ht]. cbn [Nat.add] in Ht.
  assert (Ha : (t / ncols B < ncols A)%nat) by (apply div_lt_rows; exact Ht).
  assert (Hb : (t mod ncols B < ncols B)%nat)
    by (apply (mod_lt_rows (ncols A)); exact Ht).
  transitivity
    (big_sum (nrows A) (fun j' =>
       get A j' (t / ncols B) *
       big_sum (ncols A) (fun j =>
         get A j' j * nth (t mod ncols B + ncols B * j) v 0))).
  { apply big_sum_ext. intros j' Hj'.
    unfold Np.transpose at 1. rewrite get_tabulate by assumption. f_equal.
    transitivity
      (big_sum (nrows B) (fun l' =>
         get B l' (t mod ncols B) *
         big_sum (ncols A) (fun j =>
           get A j' j *
           big_sum (ncols B) (fun l => get B l' l * nth (l + ncols B * j) v 0)))).
    { apply big_sum_ext. intros l' Hl'.
      unfold Np.transpose at 1. rewrite get_tabulate by assumption. f_equal.
      rewrite (nth_map_seq _ _ 0)
        by (rewrite (Nat.mul_comm (nrows A)); apply colmajor_lt; assumption).
      cbn [Nat.add]. rewrite colmajor_div, colmajor_mod by exact Hl'.
      reflexivity. }
    rewrite (big_sum_swap_scal (nrows B) (ncols A)
               (fun l' => get B l' (t mod ncols B)) (fun j => get A j' j)
               (fun l' j => big_sum (ncols B)
                  (fun l => get B l' l * nth (l + ncols B * j) v 0))).
    apply big_sum_ext. intros j Hj. f_equal.
    apply (gram_apply B (fun l => nth (l + ncols B * j) v 0)); assumption. }
  rewrite (gram_apply A (fun j => nth (t mod ncols B + ncols B * j) v 0))
    by assumption.
  rewrite div_mod_colmajor. reflexivity.
Qed.

Lemma haar_norm_orthonormal_columns (k : nat) :
  orthonormal_columns (haar_norm k).
Proof.
  intros a b Ha Hb. apply haar_norm_gram; assumption.
Qed.

End RoundTrip.

(** ** The operator factory *)

Section Factory.

Lemma mkLinearOperator_ok (sh : nat * nat) (mv rmv : vector -> outcome vector)
      (y : vector) :
  mv (Np.zeros (snd sh)) = Ok y -> length y = fst sh ->
  Sp.mkLinearOperator sh mv rmv =
  Ok {| Sp.shape := sh; Sp.matvec_impl := mv; Sp.rmatvec_impl := rmv |}.
Proof.
  intros Hy Hl. unfold Sp.mkLinearOperator, Sp.matvec. cbn [Sp.shape Sp.matvec_impl].
  rewrite length_zeros, Nat.eqb_refl, Hy. cbn [bind].
  rewrite Hl, Nat.eqb_refl. reflexivity.
Qed.

Lemma mkLinearOperator_inv (sh : nat * nat) (mv rmv : vector -> outcome vector)
      (L : Sp.LinearOperator) :
  Sp.mkLinearOperator sh mv rmv = Ok L ->
  L = {| Sp.shape := sh; Sp.matvec_impl := mv; Sp.rmatvec_impl := rmv |}.
Proof.
  unfold Sp.mkLinearOperator.
  destruct (Sp.matvec _ _) as [y| |]; cbn [bind]; intros E;
    [injection E as <-; reflexivity | discriminate | discriminate].
Qed.

Lemma haarMatrix_ok_ge_2 (fuel n : nat) (b : bool) (H : matrix) :
  haarMatrix fuel n b = Ok H -> (2 <= n)%nat.
Proof.
  intros E. destruct n as [|[|n]]; [| |lia].
  - rewrite haarMatrix_zero_diverges in E. discriminate.
  - rewrite haarMatrix_one_diverges in E. discriminate.
Qed.

Lemma blurMatrix_ok_inv (m : nat) (w : Z) (T : matrix) :
  blurMatrix m w = Ok T -> w <> 0%Z /\ T = tabulate m m (blur_entry m w).
Proof.
  intros E. assert (Hw : w <> 0%Z).
  { intros ->. rewrite blurMatrix_zero_width in E. discriminate. }
  split; [exact Hw|].
  rewrite blurMatrix_value in E by exact Hw. injection E as <-. reflexivity.
Qed.

Lemma zeros_square_length (n : nat) :
  length (Np.zeros (n ^ 2)) = (n * n)%nat.
Proof. rewrite length_zeros. apply Nat.pow_2_r. Qed.

(** Whatever [genBH] returns is this pair of operators. *)
Lemma genBH_inv (fuel n : nat) (w : Z) (B H : Sp.LinearOperator) :
  genBH fuel n w = Ok (B, H) ->
  (2 <= n)%nat /\ w <> 0%Z /\
  B = blur_operator n w /\
  exists Hn, haarMatrix fuel n true = Ok Hn /\ H = haar_operator n Hn.
Proof.
  unfold genBH. intros E.
  destruct (haarMatrix fuel n true) as [Hn| |] eqn:EH; cbn [bind] in E;
    try discriminate.
  destruct (Sp.mkLinearOperator ((n ^ 2)%nat, (n ^ 2)%nat)
              (fun v => fastKronVecProd Hn Hn v) _) as [H0| |] eqn:EL;
    cbn [bind] in E; try discriminate.
  destruct (blurMatrix n w) as [T| |] eqn:ET; cbn [bind] in E; try discriminate.
  destruct (Sp.mkLinearOperator ((n ^ 2)%nat, (n ^ 2)%nat)
              (fun v => fastKronVecProd T T v) _) as [B0| |] eqn:EB;
    cbn [bind] in E; try discriminate.
  injection E as <- <-.
  apply mkLinearOperator_inv in EL, EB.
  apply blurMatrix_ok_inv in ET. destruct ET as [Hw ->].
  split; [eapply haarMatrix_ok_ge_2; exact EH|].
  split; [exact Hw|]. split; [exact EB|].
  exists Hn. split; [reflexivity | exact EL].
Qed.

Lemma fastKron_square_ok (M : matrix) (n : nat) (v : vector) :
  nrows M = n -> ncols M = n -> (0 < n)%nat -> length v = (n * n)%nat ->
  exists y, fastKronVecProd M M v = Ok y /\ length y = (n * n)%nat.
Proof.
  intros Hr Hc Hn Hv.
  destruct (fastKronVecProd_eq_kron_value M v) as [y [Hy Hl]];
    [lia | rewrite Hc; exact Hv|].
  exists y. split; [exact Hy | rewrite Hl, Hr; reflexivity].
Qed.

End Factory.

Section FactoryReturns.

(** For a power of two [n >= 2] and a nonzero width, [genBH] returns. *)
Lemma genBH_returns (k fuel : nat) (w : Z) :
  w <> 0%Z -> (k < fuel)%nat ->
  genBH fuel (2 ^ S k) w =
  Ok (blur_operator (2 ^ S k) w, haar_operator (2 ^ S k) (haar_norm k)).
Proof.
  intros Hw Hf. pose proof (pow2_pos (S k)) as Hp.
  unfold genBH. rewrite haarMatrix_pow2_normalized by exact Hf. cbn [bind].
  destruct (fastKron_square_ok (haar_norm k) (2 ^ S k) (Np.zeros ((2 ^ S k) ^ 2)))
    as [y [Hy Hl]];
    [reflexivity | reflexivity | exact Hp | apply zeros_square_length |].
  rewrite (mkLinearOperator_ok _ _ _ y);
    [| exact Hy | rewrite Hl; symmetry; apply Nat.pow_2_r].
  cbn [bind]. rewrite blurMatrix_value by exact Hw. cbn [bind].
  destruct (fastKron_square_ok (tabulate (2 ^ S k) (2 ^ S k) (blur_entry (2 ^ S k) w))
                               (2 ^ S k) (Np.zeros ((2 ^ S k) ^ 2)))
    as [y' [Hy' Hl']];
    [reflexivity | reflexivity | exact Hp | apply zeros_square_length |].
  rewrite (mkLinearOperator_ok _ _ _ y');
    [| exact Hy' | rewrite Hl'; symmetry; apply Nat.pow_2_r].
  reflexivity.
Qed.

(** At [n = 3] the Haar factor is 4 by 4, and the constructor of the
    operator already fails when it applies it to a vector of length 9. *)
Lemma genBH_three_raises (fuel : nat) (w : Z) :
  (2 <= fuel)%nat -> genBH fuel 3 w = Raise ValueError.
Proof.
  intros Hf. unfold genBH.
  rewrite (haarMatrix_returns 3 fuel true) by (try exact Hf; lia).
  cbn [bind]. unfold Sp.mkLinearOperator, Sp.matvec.
  cbn [Sp.shape Sp.matvec_impl snd fst].
  rewrite length_zeros, Nat.eqb_refl.
  rewrite fastKronVecProd_mismatch; [reflexivity|].
  rewrite length_zeros. unfold haar_result.
  change (Nat.log2_up 3 - 1)%nat with 1%nat.
  change (ncols (haar_norm 1)) with 4%nat. simpl. lia.
Qed.

Lemma genBH_three_never_ok (fuel : nat) (w : Z) (B H : Sp.LinearOperator) :
  genBH fuel 3 w = Ok (B, H) -> False.
Proof.
  intros E. destruct (le_lt_dec 2 fuel) as [Hf|Hf].
  - rewrite genBH_three_raises in E by exact Hf. discriminate.
  - apply genBH_inv in E. destruct E as (_ & _ & _ & Hn & EH & _).
    destruct fuel as [|[|fuel]]; [discriminate EH | | lia].
    cbn [haarMatrix] in EH.
    change (next_pow2 3) with 4%nat in EH.
    change (4 =? 2)%nat with false in EH. cbn [bind] in EH. discriminate EH.
Qed.

End FactoryReturns.

(** C5 (as the code has it). For [n] a power of two, [n >= 2], the Haar
    operator [H] returned by [genBH(n, w)] satisfies
    [H.rmatvec(H.matvec(v)) = v] for every [v] of length [n^2]; and
    [genBH(n, w)] does return operators when the width is not 0. *)
Theorem genBH_haar_round_trip (k fuel : nat) (w : Z) :
  (S k <= fuel)%nat ->
  (w <> 0%Z -> exists B H, genBH fuel (2 ^ S k) w = Ok (B, H)) /\
  (forall B H, genBH fuel (2 ^ S k) w = Ok (B, H) ->
     forall v, length v = ((2 ^ S k) ^ 2)%nat ->
               (y <- Sp.matvec H v ;; Sp.rmatvec H y) = Ok v).
Proof.
  intros Hf. pose proof (pow2_pos (S k)) as Hp. split.
  - intros Hw. eexists. eexists. apply genBH_returns; [exact Hw | lia].
  - intros B H E v Hv. apply genBH_inv in E.
    destruct E as (_ & _ & _ & Hn & EH & ->).
    rewrite haarMatrix_pow2_normalized in EH by lia. injection EH as <-.
    assert (Hv' : length v = (2 ^ S k * 2 ^ S k)%nat)
      by (rewrite Hv; apply Nat.pow_2_r).
    pose proof (fastKronVecProd_transposed_inverse
                  (haar_norm k) (haar_norm k) v Hp Hp Hv'
                  (haar_norm_orthonormal_columns k)
                  (haar_norm_orthonormal_columns k)) as RT.
    destruct (fastKron_square_ok (haar_norm k) (2 ^ S k) v)
      as [y [Hy Hl]]; [reflexivity | reflexivity | exact Hp | exact Hv' |].
    rewrite Hy in RT. cbn [bind] in RT.
    rewrite <- Nat.pow_2_r in Hl.
    unfold Sp.matvec, Sp.rmatvec, haar_operator.
    cbn [Sp.shape Sp.matvec_impl Sp.rmatvec_impl fst snd].
    rewrite Hv, Nat.eqb_refl, Hy. cbn [bind].
    rewrite Hl, Nat.eqb_refl. cbn [bind].
    rewrite Hl, Nat.eqb_refl, RT. cbn [bind].
    rewrite Hv, Nat.eqb_refl. reflexivity.
Qed.

Lemma genBH_haar_round_trip_witness :
  (3%Z <> 0%Z -> exists B H, genBH 1 (2 ^ 1) 3 = Ok (B, H)) /\
  (forall B H, genBH 1 (2 ^ 1) 3 = Ok (B, H) ->
     forall v, length v = ((2 ^ 1) ^ 2)%nat ->
               (y <- Sp.matvec H v ;; Sp.rmatvec H y) = Ok v).
Proof.
  apply (genBH_haar_round_trip 0 1 3). lia.
Defined.

(** C5 as stated fails at [n = 3]: [genBH(3, 3)] gives no operator [H]
    with [H.rmatvec(H.matvec(v)) = v] for the zero vector of length 9. *)
Lemma genBH_haar_counterexample :
  ~ exists fuel B H,
      genBH fuel 3 3 = Ok (B, H) /\
      (y <- Sp.matvec H (Np.zeros 9) ;; Sp.rmatvec H y) = Ok (Np.zeros 9).
Proof.
  intros (fuel & B & H & E & _). exact (genBH_three_never_ok fuel 3 B H E).
Qed.

(** C6 (as the code has it). For [n] a power of two, [n >= 2], the blur
    operator [B] returned by [genBH(n, w)] gives, on every [v] of length
    [n^2], the same result for [B.rmatvec(v)] as for [B.matvec(v)], and
    that result is a vector; and [genBH(n, w)] does return operators when
    the width is not 0. *)
Theorem genBH_blur_self_adjoint (k fuel : nat) (w : Z) :
  (S k <= fuel)%nat ->
  (w <> 0%Z -> exists B H, genBH fuel (2 ^ S k) w = Ok (B, H)) /\
  (forall B H, genBH fuel (2 ^ S k) w = Ok (B, H) ->
     forall v, length v = ((2 ^ S k) ^ 2)%nat ->
               Sp.rmatvec B v = Sp.matvec B v /\
               exists y, Sp.matvec B v = Ok y).
Proof.
  intros Hf. pose proof (pow2_pos (S k)) as Hp. split.
  - intros Hw. eexists. eexists. apply genBH_returns; [exact Hw | lia].
  - intros B H E v Hv. apply genBH_inv in E.
    destruct E as (Hn & Hw & -> & _).
    unfold Sp.rmatvec, Sp.matvec, blur_operator.
    cbn [Sp.shape Sp.matvec_impl Sp.rmatvec_impl fst snd].
    rewrite blur_transpose. split; [reflexivity|].
    rewrite Hv, Nat.eqb_refl.
    destruct (fastKron_square_ok
                (tabulate (2 ^ S k) (2 ^ S k) (blur_entry (2 ^ S k) w))
                (2 ^ S k) v)
      as [y [Hy Hl]];
      [reflexivity | reflexivity | exact Hp | rewrite Hv; apply Nat.pow_2_r |].
    rewrite Hy. cbn [bind]. rewrite Hl, <- Nat.pow_2_r, Nat.eqb_refl.
    exists y. reflexivity.
Qed.

Lemma genBH_blur_self_adjoint_witness :
  (3%Z <> 0%Z -> exists B H, genBH 1 (2 ^ 1) 3 = Ok (B, H)) /\
  (forall B H, genBH 1 (2 ^ 1) 3 = Ok (B, H) ->
     forall v, length v = ((2 ^ 1) ^ 2)%nat ->
               Sp.rmatvec B v = Sp.matvec B v /\
               exists y, Sp.matvec B v = Ok y).
Proof.
  apply (genBH_blur_self_adjoint 0 1 3). lia.
Defined.

(** C6 as stated fails at [n = 3]: [genBH(3, 3)] gives no operator [B]
    with [B.rmatvec(v) = B.matvec(v)] for the zero vector of length 9. *)
Lemma genBH_blur_counterexample :
  ~ exists fuel B H,
      genBH fuel 3 3 = Ok (B, H) /\
      Sp.rmatvec B (Np.zeros 9) = Sp.matvec B (Np.zeros 9).
Proof.
  intros (fuel & B & H & E & _). exact (genBH_three_never_ok fuel 3 B H E).
Qed.

(** ** Rows of an operator *)

Section Rows.

Lemma matrix_operator_represents (M : matrix) : represents M (matrix_operator M).
Proof. split; [reflexivity|]. split; intros; reflexivity. Qed.

Lemma nth_unit (d k l : nat) :
  (k < d)%nat ->
  nth l (update (Np.zeros d) k 1) 0 = if (l =? k)%nat then 1 else 0.
Proof.
  intros Hk. rewrite nth_update by (rewrite length_zeros; exact Hk).
  rewrite nth_zeros. reflexivity.
Qed.

Lemma wf_row (M : matrix) (k : nat) :
  wf M -> (k < nrows M)%nat ->
  nth k (rows M) [] = map (fun j => get M k j) (seq 0 (ncols M)).
Proof.
  intros HM Hk. rewrite (wf_eq_tabulate M HM) at 1.
  apply row_tabulate. exact Hk.
Qed.

(** Multiplying the transpose by the unit vector [e_k] gives row [k]. *)
Lemma transpose_matvec_unit (M : matrix) (k : nat) :
  wf M -> (k < nrows M)%nat ->
  Np.matvec (Np.transpose M) (update (Np.zeros (nrows M)) k 1)
  = Ok (nth k (rows M) []).
Proof.
  intros HM Hk. unfold Np.matvec.
  rewrite ncols_transpose, nrows_transpose, length_update, length_zeros.
  rewrite Nat.eqb_refl. apply f_equal.
  rewrite wf_row by assumption.
  apply map_seq_ext. intros j [_ Hj]. cbn [Nat.add] in Hj.
  rewrite (big_sum_single _ k).
  - rewrite nth_unit, Nat.eqb_refl by exact Hk.
    unfold Np.transpose. rewrite get_tabulate by assumption. ring.
  - exact Hk.
  - intros l Hl Hne. rewrite nth_unit by exact Hk.
    replace (l =? k)%nat with false by (symmetry; apply Nat.eqb_neq; exact Hne).
    ring.
Qed.

Lemma length_wf_row (M : matrix) (k : nat) :
  wf M -> (k < nrows M)%nat -> length (nth k (rows M) []) = ncols M.
Proof.
  intros HM Hk. rewrite wf_row by assumption.
  rewrite length_map, length_seq. reflexivity.
Qed.

(** [getrow] when the index [i - 1] denotes position [k]. *)
Lemma getrow_value (M : matrix) (L : Sp.LinearOperator) (i : Z) (k : nat) :
  wf M -> represents M L ->
  norm_index (nrows M) (i - 1) = Ok k -> (k < nrows M)%nat ->
  getrow L i = Ok (Matrix 1 (ncols M) [nth k (rows M) []]).
Proof.
  intros HM (Hs & _ & Hr) Hi Hk. unfold getrow, setitem.
  rewrite Hs. cbn [fst]. rewrite length_zeros, Hi. cbn [bind].
  unfold Sp.matvec, Sp.T. cbn [Sp.shape Sp.matvec_impl fst snd].
  rewrite Hs. cbn [fst snd].
  rewrite length_update, length_zeros, Nat.eqb_refl.
  rewrite Hr by (rewrite length_update, length_zeros; reflexivity).
  rewrite transpose_matvec_unit by assumption. cbn [bind].
  rewrite length_wf_row by assumption.
  rewrite Nat.eqb_refl. cbn [bind].
  rewrite length_wf_row by assumption. reflexivity.
Qed.

Lemma norm_index_one_based (d : nat) (i : Z) :
  (1 <= i <= Z.of_nat d)%Z -> norm_index d (i - 1) = Ok (Z.to_nat (i - 1)).
Proof.
  intros Hi. unfold norm_index.
  replace ((0 <=? i - 1)%Z && (i - 1 <? Z.of_nat d)%Z) with true; [reflexivity|].
  symmetry. apply andb_true_intro. split; [apply Z.leb_le | apply Z.ltb_lt]; lia.
Qed.

Lemma norm_index_minus_one (d : nat) :
  (1 <= d)%nat -> norm_index d (0 - 1) = Ok (d - 1)%nat.
Proof.
  intros Hd. unfold norm_index. change (0 - 1)%Z with (-1)%Z.
  change (0 <=? -1)%Z with false. cbn [andb].
  replace ((- Z.of_nat d <=? -1)%Z && (-1 <? 0)%Z) with true.
  - f_equal. lia.
  - symmetry. apply andb_true_intro. split; [apply Z.leb_le; lia | reflexivity].
Qed.

(** The same for an operator that need not be square: the row has as
    many entries as the operator has columns. *)
Lemma getrow_rectangular (M : matrix) (L : Sp.LinearOperator) (i : Z) :
  wf M -> represents M L -> (1 <= i <= Z.of_nat (nrows M))%Z ->
  getrow L i = Ok (Matrix 1 (ncols M) [nth (Z.to_nat (i - 1)) (rows M) []]).
Proof.
  intros HM HL Hi. apply getrow_value; try assumption.
  - apply norm_index_one_based. exact Hi.
  - lia.
Qed.

Lemma transpose_kron (A B : matrix) :
  Np.transpose (Np.kron A B) = Np.kron (Np.transpose A) (Np.transpose B).
Proof.
  unfold Np.kron at 2. rewrite !nrows_transpose, !ncols_transpose.
  unfold Np.transpose at 1. unfold Np.kron at 1 2.
  rewrite nrows_tabulate, ncols_tabulate.
  apply tabulate_ext. intros i j Hi Hj.
  unfold Np.kron. rewrite get_tabulate by assumption.
  unfold Np.transpose.
  rewrite !get_tabulate
    by (first [ apply (div_lt_rows _ _ _ Hi) | apply (div_lt_rows _ _ _ Hj)
              | apply (mod_lt_rows _ _ _ Hi) | apply (mod_lt_rows _ _ _ Hj) ]).
  reflexivity.
Qed.

(** An operator built from two factors is their Kronecker product. *)
Lemma kron_operator_represents (A B : matrix) (sh : nat * nat) :
  (0 < ncols A)%nat -> (0 < nrows A)%nat ->
  sh = ((nrows A * nrows B)%nat, (ncols A * ncols B)%nat) ->
  represents (Np.kron A B)
    {| Sp.shape := sh;
       Sp.matvec_impl := fun v => fastKronVecProd A B v;
       Sp.rmatvec_impl :=
         fun v => fastKronVecProd (Np.transpose A) (Np.transpose B) v |}.
Proof.
  intros Hq Hp ->. split; [reflexivity|].
  cbn [Sp.matvec_impl Sp.rmatvec_impl].
  unfold Np.kron at 1 3. rewrite nrows_tabulate, ncols_tabulate. split.
  - intros v Hv.
    rewrite fastKronVecProd_value, kron_matvec_value by assumption.
    reflexivity.
  - intros u Hu. rewrite transpose_kron.
    rewrite fastKronVecProd_value, kron_matvec_value;
      rewrite ?nrows_transpose, ?ncols_transpose; try assumption.
    reflexivity.
Qed.

Lemma blur_operator_represents (n : nat) (w : Z) :
  (0 < n)%nat ->
  represents (Np.kron (tabulate n n (blur_entry n w))
                      (tabulate n n (blur_entry n w)))
             (blur_operator n w).
Proof.
  intros Hn. apply kron_operator_represents; try exact Hn.
  rewrite !nrows_tabulate, !ncols_tabulate, Nat.pow_2_r. reflexivity.
Qed.

Lemma wf_kron (A B : matrix) : wf (Np.kron A B).
Proof. apply wf_tabulate. Qed.

End Rows.

(** C10. [getrow(B, i)] counts rows from 1: for an operator [B] that is a
    d by d matrix [M], and [1 <= i <= d], it returns row [i] of [M] (at
    position [i - 1]) as a 1 by d array; for [i = 0] (and [d >= 1]) it does
    not raise and returns the last row, at position [d - 1]. *)
Theorem getrow_one_based (M : matrix) (B : Sp.LinearOperator) (d : nat) :
  wf M -> nrows M = d -> ncols M = d -> represents M B ->
  (forall i, (1 <= i <= Z.of_nat d)%Z ->
     getrow B i = Ok (Matrix 1 d [nth (Z.to_nat (i - 1)) (rows M) []])) /\
  ((1 <= d)%nat -> getrow B 0 = Ok (Matrix 1 d [nth (d - 1) (rows M) []])).
Proof.
  intros HM Hr Hc HB. split.
  - intros i Hi. rewrite <- Hc at 1.
    apply getrow_rectangular; try assumption. rewrite Hr. exact Hi.
  - intros Hd. rewrite <- Hc at 1.
    apply getrow_value; try assumption.
    + rewrite Hr. apply norm_index_minus_one. exact Hd.
    + lia.
Qed.

Lemma getrow_one_based_witness :
  (forall i, (1 <= i <= Z.of_nat 2)%Z ->
     getrow (matrix_operator (Np.array [[1; 2]; [3; 4]])) i
     = Ok (Matrix 1 2 [nth (Z.to_nat (i - 1)) [[1; 2]; [3; 4]] []])) /\
  ((1 <= 2)%nat ->
   getrow (matrix_operator (Np.array [[1; 2]; [3; 4]])) 0
   = Ok (Matrix 1 2 [nth (2 - 1) [[1; 2]; [3; 4]] []])).
Proof.
  apply (getrow_one_based (Np.array [[1; 2]; [3; 4]])
                          (matrix_operator (Np.array [[1; 2]; [3; 4]])) 2).
  - split; [reflexivity | repeat constructor].
  - reflexivity.
  - reflexivity.
  - apply matrix_operator_represents.
Defined.

(** ** The operators of [genBH] as matrices *)

Section FactoryRows.

Lemma haar_operator_represents (k : nat) :
  represents (Np.kron (haar_norm k) (haar_norm k))
             (haar_operator (2 ^ S k) (haar_norm k)).
Proof.
  apply kron_operator_represents; try apply pow2_pos.
  rewrite Nat.pow_2_r. reflexivity.
Qed.

(** Rows of the blur operator returned by [genBH]. *)
Lemma getrow_genBH_blur (fuel n : nat) (w : Z) (B H : Sp.LinearOperator) (i : Z) :
  genBH fuel n w = Ok (B, H) -> (1 <= i <= Z.of_nat (n ^ 2))%Z ->
  exists T,
    blurMatrix n w = Ok T /\
    getrow B i =
    Ok (Matrix 1 (n ^ 2) [nth (Z.to_nat (i - 1)) (rows (Np.kron T T)) []]).
Proof.
  intros E Hi. apply genBH_inv in E. destruct E as (Hn & Hw & -> & _).
  exists (tabulate n n (blur_entry n w)).
  split; [apply blurMatrix_value; exact Hw|].
  rewrite (getrow_rectangular
             (Np.kron (tabulate n n (blur_entry n w)) (tabulate n n (blur_entry n w)))).
  - unfold Np.kron at 1. rewrite ncols_tabulate, <- Nat.pow_2_r. reflexivity.
  - apply wf_kron.
  - apply blur_operator_represents. lia.
  - unfold Np.kron. rewrite nrows_tabulate, !nrows_tabulate, <- Nat.pow_2_r.
    exact Hi.
Qed.

End FactoryRows.

(** ** Worked examples *)

Section Examples.

(** The Haar matrix of size 4, without normalisation. *)
Example haarMatrix_4 :
  exists H,
    haarMatrix 2 4 false = Ok H /\
    rows H = [[1; 1; 1; 0]; [1; 1; -1; 0]; [1; -1; 0; 1]; [1; -1; 0; -1]].
Proof.
  eexists. split; [reflexivity|].
  cbv [rows tabulate map seq Np.hstack Np.kron nrows ncols Np.array Np.eye
       length hd Nat.mul Nat.add Nat.ltb Nat.leb Nat.eqb Nat.sub get nth
       Nat.div Nat.modulo Nat.divmod fst snd Nat.pow next_pow2 Nat.log2_up].
  simpl. repeat (f_equal; try ring).
Qed.

(** Size 3 is rounded up to 4. *)
Example haarMatrix_3_is_4 : haarMatrix 2 3 false = haarMatrix 2 4 false.
Proof. apply haarMatrix_round. Qed.

Example blurMatrix_3_3 :
  exists T,
    blurMatrix 3 3 = Ok T /\
    rows T = [[1 / 3; 1 / 3; 0]; [1 / 3; 1 / 3; 1 / 3]; [0; 1 / 3; 1 / 3]].
Proof.
  eexists. split; [reflexivity|]. simpl. reflexivity.
Qed.

Example fastKronVecProd_2_2 :
  fastKronVecProd (Np.array [[1; 2]; [3; 4]]) (Np.array [[0; 1]; [1; 0]])
                  [1; 2; 3; 4]
  = Ok [10; 7; 22; 15].
Proof.
  unfold fastKronVecProd. simpl. unfold Np.sum_axis1, big_sum, get. simpl.
  repeat (f_equal; try ring).
Qed.

Example vectorize_2_3 :
  vectorize (Np.array [[1; 2; 3]; [4; 5; 6]]) = Ok [1; 4; 2; 5; 3; 6].
Proof. reflexivity. Qed.

Example blurMatrix_width_0 : blurMatrix 4 0 = Raise ZeroDivisionError.
Proof. reflexivity. Qed.

Example getrow_out_of_range :
  getrow (matrix_operator (Np.array [[1; 2]; [3; 4]])) 4 = Raise IndexError.
Proof. reflexivity. Qed.

End Examples.

(** * Further properties of the module *)

(** ** Vectors as column-stacked images *)

Section VecIdentities.

Lemma matmul_value (A B : matrix) :
  ncols A = nrows B ->
  Np.matmul A B =
  Ok (tabulate (nrows A) (ncols B)
               (fun i j => big_sum (ncols A) (fun l => get A i l * get B l j))).
Proof.
  intros E. unfold Np.matmul. rewrite E, Nat.eqb_refl. reflexivity.
Qed.

Lemma matmul_mismatch (A B : matrix) :
  ncols A <> nrows B -> Np.matmul A B = Raise ValueError.
Proof.
  intros E. unfold Np.matmul.
  replace (ncols A =? nrows B)%nat with false
    by (symmetry; apply Nat.eqb_neq; exact E).
  reflexivity.
Qed.

Lemma unvectorize_value (v : vector) (m n : nat) :
  length v = (m * n)%nat ->
  unvectorize v m n = Ok (tabulate m n (fun i j => nth (i + m * j) v 0)).
Proof.
  intros E. unfold unvectorize, Np.reshapeF. rewrite E, Nat.eqb_refl. reflexivity.
Qed.

Lemma matvec_value (M : matrix) (v : vector) :
  length v = ncols M ->
  Np.matvec M v =
  Ok (map (fun i => big_sum (ncols M) (fun l => get M i l * nth l v 0))
          (seq 0 (nrows M))).
Proof.
  intros E. unfold Np.matvec. rewrite E, Nat.eqb_refl. reflexivity.
Qed.

Lemma matvec_mismatch (M : matrix) (v : vector) :
  length v <> ncols M -> Np.matvec M v = Raise ValueError.
Proof.
  intros E. unfold Np.matvec.
  replace (ncols M =? length v)%nat with false
    by (symmetry; apply Nat.eqb_neq; lia).
  reflexivity.
Qed.

(** The fast product is the product by the dense Kronecker matrix. *)
Lemma fastKronVecProd_dense (A B : matrix) (v : vector) :
  (0 < ncols A)%nat ->
  fastKronVecProd A B v = Np.matvec (Np.kron A B) v.
Proof.
  intros Hq. destruct (Nat.eq_dec (length v) (ncols A * ncols B)) as [E|E].
  - rewrite fastKronVecProd_value, kron_matvec_value by assumption. reflexivity.
  - rewrite fastKronVecProd_mismatch by exact E.
    rewrite matvec_mismatch; [reflexivity|].
    unfold Np.kron. rewrite ncols_tabulate. exact E.
Qed.

(** The inner product moves a matrix to the other side as its transpose. *)
Lemma matvec_adjoint (M : matrix) (v u : vector) :
  length v = ncols M -> length u = nrows M ->
  exists y z,
    Np.matvec M v = Ok y /\ Np.matvec (Np.transpose M) u = Ok z /\
    dot y u = dot v z.
Proof.
  intros Hv Hu. eexists. eexists.
  split; [apply matvec_value; exact Hv|].
  split; [apply matvec_value; rewrite ncols_transpose; exact Hu|].
  unfold dot. rewrite length_map, length_seq, Hv.
  rewrite ncols_transpose, nrows_transpose.
  transitivity
    (big_sum (nrows M) (fun i =>
       nth i u 0 * big_sum (ncols M) (fun l => nth l v 0 * get M i l))).
  { apply big_sum_ext. intros i Hi.
    rewrite (nth_map_seq _ _ 0) by exact Hi. cbn [Nat.add].
    rewrite Rmult_comm. f_equal.
    apply big_sum_ext. intros l _. ring. }
  rewrite big_sum_swap_scal.
  apply big_sum_ext. intros l Hl. f_equal.
  rewrite (nth_map_seq _ _ 0) by exact Hl. cbn [Nat.add].
  apply big_sum_ext. intros i Hi.
  unfold Np.transpose. rewrite get_tabulate by assumption. ring.
Qed.

End VecIdentities.

(** X1. For a vector [v] of length m*n, reshaping to m by n and stacking
    the columns again gives back [v]: [vectorize(unvectorize(v, m, n))] is
    [v]. *)
Theorem vectorize_unvectorize (v : vector) (m n : nat) :
  length v = (m * n)%nat ->
  (X <- unvectorize v m n ;; vectorize X) = Ok v.
Proof.
  intros Hv. rewrite unvectorize_value by exact Hv. cbn [bind].
  rewrite vectorize_value, nrows_tabulate, ncols_tabulate. apply f_equal.
  transitivity (map (fun k => nth k v 0) (seq 0 (length v)));
    [|symmetry; apply list_eq_map_nth].
  rewrite Hv. apply map_seq_ext. intros k [_ Hk]. cbn [Nat.add] in Hk.
  rewrite get_tabulate.
  - rewrite div_mod_colmajor. reflexivity.
  - apply Nat.mod_upper_bound. destruct m; lia.
  - apply Nat.Div0.div_lt_upper_bound. exact Hk.
Qed.

Lemma vectorize_unvectorize_witness :
  (X <- unvectorize [1; 2; 3; 4; 5; 6] 2 3 ;; vectorize X) = Ok [1; 2; 3; 4; 5; 6].
Proof.
  apply (vectorize_unvectorize [1; 2; 3; 4; 5; 6] 2 3). reflexivity.
Defined.

(** The two-sided product [B @ X @ A.T], column-stacked, entry by entry. *)
Lemma sandwich_vectorize_value (A B X : matrix) :
  nrows X = ncols B -> ncols X = ncols A ->
  (BX <- Np.matmul B X ;;
   Y <- Np.matmul BX (Np.transpose A) ;;
   vectorize Y) =
  Ok (map (fun i =>
        big_sum (ncols A) (fun j =>
          get A (i / nrows B) j *
          big_sum (ncols B) (fun l =>
            get B (i mod nrows B) l *
            nth (l + ncols B * j)
                (map (fun k => get X (k mod nrows X) (k / nrows X))
                     (seq 0 (nrows X * ncols X))) 0)))
      (seq 0 (nrows A * nrows B))).
Proof.
  intros Hr Hc.
  rewrite matmul_value by (symmetry; exact Hr). cbn [bind].
  rewrite matmul_value by (rewrite ncols_tabulate, nrows_transpose; exact Hc).
  cbn [bind]. rewrite vectorize_value.
  rewrite !nrows_tabulate, !ncols_tabulate, ncols_transpose.
  apply f_equal. rewrite (Nat.mul_comm (nrows B) (nrows A)).
  apply map_seq_ext. intros k [_ Hk]. cbn [Nat.add] in Hk.
  assert (Hk1 : (k / nrows B < nrows A)%nat) by (apply div_lt_rows; exact Hk).
  assert (Hk2 : (k mod nrows B < nrows B)%nat)
    by (apply (mod_lt_rows (nrows A)); exact Hk).
  rewrite get_tabulate by assumption. rewrite Hc.
  apply big_sum_ext. intros j Hj.
  rewrite get_tabulate by assumption.
  unfold Np.transpose. rewrite get_tabulate by assumption.
  rewrite Rmult_comm. f_equal.
  apply big_sum_ext. intros l Hl. f_equal.
  rewrite (nth_map_seq _ _ 0) by (rewrite Hr; nia).
  cbn [Nat.add]. rewrite Hr.
  rewrite colmajor_mod, colmajor_div by exact Hl. reflexivity.
Qed.

(** The same for the dense Kronecker matrix. *)
Lemma kron_matvec_vectorize (A B X : matrix) :
  nrows X = ncols B -> ncols X = ncols A ->
  (v <- vectorize X ;; Np.matvec (Np.kron A B) v) =
  (BX <- Np.matmul B X ;;
   Y <- Np.matmul BX (Np.transpose A) ;;
   vectorize Y).
Proof.
  intros Hr Hc. rewrite vectorize_value. cbn [bind].
  rewrite kron_matvec_value
    by (rewrite length_map, length_seq, Hr, Hc; lia).
  rewrite sandwich_vectorize_value by assumption. reflexivity.
Qed.

(** X2. On a column-stacked image, the fast Kronecker product is the
    two-sided matrix product: [fastKronVecProd(A, B, vectorize(X))] is
    [vectorize(B @ X @ A.T)], for [X] with as many rows as [B] has
    columns and as many columns as [A]. *)
Theorem fastKronVecProd_vectorize (A B X : matrix) :
  (0 < ncols A)%nat -> nrows X = ncols B -> ncols X = ncols A ->
  (v <- vectorize X ;; fastKronVecProd A B v) =
  (BX <- Np.matmul B X ;;
   Y <- Np.matmul BX (Np.transpose A) ;;
   vectorize Y).
Proof.
  intros Hq Hr Hc. rewrite vectorize_value. cbn [bind].
  rewrite fastKronVecProd_value
    by (try exact Hq; rewrite length_map, length_seq, Hr, Hc; lia).
  rewrite sandwich_vectorize_value by assumption. reflexivity.
Qed.

Lemma fastKronVecProd_vectorize_witness :
  (v <- vectorize (Np.array [[1; 2]; [3; 4]]) ;;
   fastKronVecProd (Np.array [[1; 2]; [3; 4]]) (Np.array [[0; 1]; [1; 0]]) v) =
  (BX <- Np.matmul (Np.array [[0; 1]; [1; 0]]) (Np.array [[1; 2]; [3; 4]]) ;;
   Y <- Np.matmul BX (Np.transpose (Np.array [[1; 2]; [3; 4]])) ;;
   vectorize Y).
Proof.
  apply (fastKronVecProd_vectorize
           (Np.array [[1; 2]; [3; 4]]) (Np.array [[0; 1]; [1; 0]])
           (Np.array [[1; 2]; [3; 4]])).
  - simpl. lia.
  - reflexivity.
  - reflexivity.
Defined.

(** X3. The product with the transposed factors is the adjoint of
    [fastKronVecProd]: the inner product of [fastKronVecProd(A, B, v)]
    with [u] equals that of [v] with [fastKronVecProd(A.T, B.T, u)]. *)
Theorem fastKronVecProd_adjoint (A B : matrix) (v u : vector) :
  (0 < ncols A)%nat -> (0 < nrows A)%nat ->
  length v = (ncols A * ncols B)%nat ->
  length u = (nrows A * nrows B)%nat ->
  exists y z,
    fastKronVecProd A B v = Ok y /\
    fastKronVecProd (Np.transpose A) (Np.transpose B) u = Ok z /\
    dot y u = dot v z.
Proof.
  intros Hq Hp Hv Hu.
  rewrite (fastKronVecProd_dense A B v Hq).
  rewrite (fastKronVecProd_dense (Np.transpose A) (Np.transpose B) u)
    by (rewrite ncols_transpose; exact Hp).
  rewrite <- transpose_kron.
  apply matvec_adjoint.
  - unfold Np.kron. rewrite ncols_tabulate. exact Hv.
  - unfold Np.kron. rewrite nrows_tabulate. exact Hu.
Qed.

Lemma fastKronVecProd_adjoint_witness :
  exists y z,
    fastKronVecProd (Np.array [[1; 2]; [3; 4]]) (Np.array [[0; 1]; [1; 0]])
                    [1; 2; 3; 4] = Ok y /\
    fastKronVecProd (Np.transpose (Np.array [[1; 2]; [3; 4]]))
                    (Np.transpose (Np.array [[0; 1]; [1; 0]]))
                    [5; 6; 7; 8] = Ok z /\
    dot y [5; 6; 7; 8] = dot [1; 2; 3; 4] z.
Proof.
  apply (fastKronVecProd_adjoint
           (Np.array [[1; 2]; [3; 4]]) (Np.array [[0; 1]; [1; 0]])
           [1; 2; 3; 4] [5; 6; 7; 8]).
  - simpl. lia.
  - simpl. lia.
  - reflexivity.
  - reflexivity.
Defined.

(** ** More on the blur matrix *)

Section BlurRows.

Lemma big_sum_const (n : nat) (x : R) : big_sum n (fun _ => x) = INR n * x.
Proof.
  induction n as [|n IH].
  - unfold big_sum. simpl. ring.
  - rewrite big_sum_S, IH, S_INR. ring.
Qed.

(** A sum of a constant over the window [a <= j < b]. *)
Lemma big_sum_window (n a b : nat) (x : R) :
  (a <= b)%nat -> (b <= n)%nat ->
  big_sum n (fun j => if (a <=? j)%nat && (j <? b)%nat then x else 0)
  = INR (b - a) * x.
Proof.
  intros Hab Hbn.
  replace n with (a + ((b - a) + (n - b)))%nat at 1 by lia.
  rewrite big_sum_add, big_sum_add.
  rewrite (big_sum_zero a).
  2: { intros k Hk.
       replace (a <=? k)%nat with false by (symmetry; apply Nat.leb_gt; lia).
       reflexivity. }
  rewrite (big_sum_zero (n - b)).
  2: { intros k Hk.
       replace (a + (b - a + k) <? b)%nat with false
         by (symmetry; apply Nat.ltb_ge; lia).
       rewrite andb_false_r. reflexivity. }
  rewrite (big_sum_ext (b - a) _ (fun _ => x)).
  - rewrite big_sum_const. ring.
  - intros k Hk.
    replace (a <=? a + k)%nat with true by (symmetry; apply Nat.leb_le; lia).
    replace (a + k <? b)%nat with true by (symmetry; apply Nat.ltb_lt; lia).
    reflexivity.
Qed.

Lemma ceil_half_nonneg (w : Z) : (1 <= w)%Z -> (0 <= ceil_half (w - 1))%Z.
Proof.
  intros Hw. unfold ceil_half.
  assert ((- (w - 1)) / 2 <= 0)%Z by (apply Z.div_le_upper_bound; lia).
  lia.
Qed.

(** For a positive width, the entry depends on the distance to the
    diagonal only: it is [1/w] within [halflen] of it. *)
Lemma blur_entry_window (m : nat) (w : Z) (i j : nat) :
  (1 <= w)%Z -> (i < m)%nat -> (j < m)%nat ->
  blur_entry m w i j =
  if (i - Z.to_nat (ceil_half (w - 1)) <=? j)%nat
     && (j <? Nat.min (i + Z.to_nat (ceil_half (w - 1)) + 1) m)%nat
  then 1 / IZR w else 0.
Proof.
  intros Hw Hi Hj. pose proof (ceil_half_nonneg w Hw) as Hh.
  unfold blur_entry, blur_band, slice_stop.
  replace (1 + ceil_half (w - 1) <? 0)%Z with false
    by (symmetry; apply Z.ltb_ge; lia).
  set (h := ceil_half (w - 1)) in *.
  destruct (Nat.leb_spec j i);
    destruct (Nat.leb_spec (i - Z.to_nat h) j);
    destruct (Nat.ltb_spec j (Nat.min (i + Z.to_nat h + 1) m));
    cbn [andb];
    match goal with
    | |- (if (?a <? ?b)%nat then _ else _) = _ =>
        destruct (Nat.ltb_spec a b)
    end; try reflexivity; lia.
Qed.

Lemma Rsum_map_seq (n : nat) (f : nat -> R) :
  Rsum (map f (seq 0 n)) = big_sum n f.
Proof. reflexivity. Qed.

Lemma blur_row_sum (m : nat) (w : Z) (i : nat) :
  (1 <= w)%Z -> (i < m)%nat ->
  Rsum (nth i (rows (tabulate m m (blur_entry m w))) [])
  = INR (Nat.min (i + Z.to_nat (ceil_half (w - 1)) + 1) m
         - (i - Z.to_nat (ceil_half (w - 1)))) / IZR w.
Proof.
  intros Hw Hi. rewrite row_tabulate by exact Hi. rewrite Rsum_map_seq.
  rewrite (big_sum_ext m _
             (fun j => if (i - Z.to_nat (ceil_half (w - 1)) <=? j)%nat
                          && (j <? Nat.min (i + Z.to_nat (ceil_half (w - 1)) + 1) m)%nat
                       then 1 / IZR w else 0)).
  - rewrite big_sum_window by lia. unfold Rdiv. ring.
  - intros j Hj. apply blur_entry_window; assumption.
Qed.

Lemma blur_entry_shift (m : nat) (w : Z) (i j : nat) :
  blur_entry m w (S i) (S j) = blur_entry m w i j.
Proof. reflexivity. Qed.

End BlurRows.

(** X4. For every nonzero width (odd, even or negative), [blurMatrix(m, w)]
    returns an m by m matrix that is symmetric and constant along each
    diagonal (Toeplitz). *)
Theorem blurMatrix_toeplitz (m : nat) (w : Z) :
  w <> 0%Z ->
  exists T,
    blurMatrix m w = Ok T /\ wf T /\ nrows T = m /\ ncols T = m /\
    Np.transpose T = T /\
    forall i j, (S i < m)%nat -> (S j < m)%nat ->
                get T (S i) (S j) = get T i j.
Proof.
  intros Hw. exists (tabulate m m (blur_entry m w)).
  split; [apply blurMatrix_value; exact Hw|].
  split; [apply wf_tabulate|].
  split; [reflexivity|]. split; [reflexivity|].
  split; [apply blur_transpose|].
  intros i j Hi Hj. rewrite !get_tabulate by lia. apply blur_entry_shift.
Qed.

Lemma blurMatrix_toeplitz_witness :
  exists T,
    blurMatrix 5 4 = Ok T /\ wf T /\ nrows T = 5%nat /\ ncols T = 5%nat /\
    Np.transpose T = T /\
    forall i j, (S i < 5)%nat -> (S j < 5)%nat ->
                get T (S i) (S j) = get T i j.
Proof.
  apply (blurMatrix_toeplitz 5 4). lia.
Defined.

(** X5. [blurMatrix] and [vectorized2DBlurMatrix] raise
    [ZeroDivisionError] exactly when the width is 0, whatever the sizes. *)
Theorem blur_raises_iff_zero_width (m n : nat) (w : Z) :
  (blurMatrix m w = Raise ZeroDivisionError <-> w = 0%Z) /\
  (vectorized2DBlurMatrix m n w = Raise ZeroDivisionError <-> w = 0%Z).
Proof.
  split; split.
  - intros E. destruct (Z.eq_dec w 0) as [Hw|Hw]; [exact Hw|].
    rewrite blurMatrix_value in E by exact Hw. discriminate.
  - intros ->. apply blurMatrix_zero_width.
  - intros E. destruct (Z.eq_dec w 0) as [Hw|Hw]; [exact Hw|].
    unfold vectorized2DBlurMatrix in E.
    rewrite !blurMatrix_value in E by exact Hw. discriminate.
  - intros ->. reflexivity.
Qed.

Lemma blur_raises_iff_zero_width_witness :
  blurMatrix 3 0 = Raise ZeroDivisionError /\
  vectorized2DBlurMatrix 3 2 0 = Raise ZeroDivisionError.
Proof.
  destruct (blur_raises_iff_zero_width 3 2 0) as [[_ H1] [_ H2]].
  split; [apply H1 | apply H2]; reflexivity.
Defined.

(** X6. For a width [w >= 1], row [i] of [blurMatrix(m, w)] sums to the
    number of columns within [halflen = ceil((w-1)/2)] of [i], divided
    by [w]: the window is cut at the border and not renormalised. *)
Theorem blurMatrix_row_sum (m : nat) (w : Z) (i : nat) :
  (1 <= w)%Z -> (i < m)%nat ->
  exists T,
    blurMatrix m w = Ok T /\
    Rsum (nth i (rows T) [])
    = INR (Nat.min (i + Z.to_nat (ceil_half (w - 1)) + 1) m
           - (i - Z.to_nat (ceil_half (w - 1)))) / IZR w.
Proof.
  intros Hw Hi. exists (tabulate m m (blur_entry m w)).
  split; [apply blurMatrix_value; lia|].
  apply blur_row_sum; assumption.
Qed.

Lemma blurMatrix_row_sum_witness :
  exists T,
    blurMatrix 5 3 = Ok T /\
    Rsum (nth 0 (rows T) [])
    = INR (Nat.min (0 + Z.to_nat (ceil_half (3 - 1)) + 1) 5
           - (0 - Z.to_nat (ceil_half (3 - 1)))) / IZR 3.
Proof.
  apply (blurMatrix_row_sum 5 3 0); lia.
Defined.

(** X7. For an odd width [w >= 3] and [halflen < m]: every row of
    [blurMatrix(m, w)] at least [halflen] away from both borders sums
    to 1, while the first row sums to [(halflen + 1)/w], which is less
    than 1. *)
Theorem blurMatrix_interior_and_border (m : nat) (w : Z) :
  Z.odd w = true -> (3 <= w)%Z ->
  (Z.to_nat (ceil_half (w - 1)) < m)%nat ->
  exists T,
    blurMatrix m w = Ok T /\
    (forall i, (Z.to_nat (ceil_half (w - 1)) <= i)%nat ->
               (i + Z.to_nat (ceil_half (w - 1)) < m)%nat ->
               Rsum (nth i (rows T) []) = 1) /\
    Rsum (nth 0 (rows T) []) = INR (Z.to_nat (ceil_half (w - 1)) + 1) / IZR w /\
    Rsum (nth 0 (rows T) []) < 1.
Proof.
  intros Hodd Hw Hm. exists (tabulate m m (blur_entry m w)).
  split; [apply blurMatrix_value; lia|].
  pose proof (ceil_half_odd_pred w Hodd) as Hh.
  pose proof (ceil_half_nonneg w ltac:(lia)) as Hh0.
  assert (Hwpos : 0 < IZR w) by (apply IZR_lt; lia).
  assert (Hfirst :
    Rsum (nth 0 (rows (tabulate m m (blur_entry m w))) [])
    = INR (Z.to_nat (ceil_half (w - 1)) + 1) / IZR w).
  { rewrite blur_row_sum by lia. do 2 f_equal. lia. }
  split; [|split].
  - intros i H1 H2. rewrite blur_row_sum by lia.
    replace (Nat.min (i + Z.to_nat (ceil_half (w - 1)) + 1) m
             - (i - Z.to_nat (ceil_half (w - 1))))%nat
      with (Z.to_nat w) by lia.
    rewrite INR_IZR_INZ, Z2Nat.id by lia. field. lra.
  - exact Hfirst.
  - rewrite Hfirst. rewrite INR_IZR_INZ.
    apply Rmult_lt_reg_r with (IZR w); [exact Hwpos|].
    unfold Rdiv. rewrite Rmult_assoc, Rinv_l, Rmult_1_r, Rmult_1_l by lra.
    apply IZR_lt. lia.
Qed.

Lemma blurMatrix_interior_and_border_witness :
  exists T,
    blurMatrix 5 3 = Ok T /\
    (forall i, (Z.to_nat (ceil_half (3 - 1)) <= i)%nat ->
               (i + Z.to_nat (ceil_half (3 - 1)) < 5)%nat ->
               Rsum (nth i (rows T) []) = 1) /\
    Rsum (nth 0 (rows T) []) = INR (Z.to_nat (ceil_half (3 - 1)) + 1) / IZR 3 /\
    Rsum (nth 0 (rows T) []) < 1.
Proof.
  apply (blurMatrix_interior_and_border 5 3).
  - reflexivity.
  - lia.
  - simpl. lia.
Defined.

(** ** More on the Haar matrix *)

Section HaarMore.

Lemma haarMatrix_pow2_out_of_fuel (fuel k : nat) (b : bool) :
  (fuel <= k)%nat -> haarMatrix fuel (2 ^ S k) b = OutOfFuel.
Proof.
  revert k b. induction fuel as [|fuel IH]; intros k b Hf; [reflexivity|].
  destruct k as [|k]; [lia|].
  cbn [haarMatrix]. rewrite next_pow2_pow2, pow2_succ_eqb_2, pow2_succ_div2.
  rewrite IH by lia. reflexivity.
Qed.

Lemma haar_unnorm_values (k i j : nat) :
  (i < 2 ^ S k)%nat -> (j < 2 ^ S k)%nat ->
  get (haar_unnorm k) i j = -1 \/ get (haar_unnorm k) i j = 0
  \/ get (haar_unnorm k) i j = 1.
Proof.
  revert i j. induction k as [|k IH]; intros i j Hi Hj.
  - change (2 ^ 1)%nat with 2%nat in *.
    destruct i as [|[|i]]; destruct j as [|[|j]]; try lia;
      unfold get; simpl; auto.
  - rewrite (Nat.div_mod_eq i 2), (Nat.mul_comm 2 (i / 2)).
    assert (Ha : (i / 2 < 2 ^ S k)%nat).
    { apply Nat.Div0.div_lt_upper_bound. rewrite <- Nat.pow_succ_r'. exact Hi. }
    assert (Hb : (i mod 2 < 2)%nat) by (apply Nat.mod_upper_bound; lia).
    rewrite haar_unnorm_entry by assumption.
    destruct (j <? 2 ^ S k)%nat eqn:Ej.
    + apply IH; [exact Ha | apply Nat.ltb_lt; exact Ej].
    + destruct (i / 2 =? j - 2 ^ S k)%nat; [|auto].
      unfold sgn. destruct (i mod 2 =? 0)%nat; auto.
Qed.

Lemma haar_weight_sq_double (k j : nat) :
  (j < 2 ^ S k)%nat ->
  haar_weight (2 ^ S (S k)) j * haar_weight (2 ^ S (S k)) j
  = haar_weight (2 ^ S k) j * haar_weight (2 ^ S k) j / 2.
Proof.
  intros Hj.
  assert (Hj' : (j < 2 ^ S (S k))%nat)
    by (rewrite (Nat.pow_succ_r' 2 (S k)); lia).
  pose proof (haar_weight_sq (S (S k)) j Hj') as H1.
  pose proof (haar_weight_sq (S k) j Hj) as H2.
  rewrite gram_diag_double in H1 by exact Hj.
  set (a := haar_weight (2 ^ S (S k)) j * haar_weight (2 ^ S (S k)) j) in *.
  set (b := haar_weight (2 ^ S k) j * haar_weight (2 ^ S k) j) in *.
  set (g := gram_diag (S k) j) in *.
  assert (Hg : g <> 0) by (intros E; rewrite E in H2; lra).
  apply Rmult_eq_reg_r with (2 * g); [|lra].
  replace (b / 2 * (2 * g)) with (b * g) by field. lra.
Qed.

Lemma haar_weight_sq_top (k j : nat) :
  (2 ^ S k <= j)%nat -> (j < 2 ^ S (S k))%nat ->
  haar_weight (2 ^ S (S k)) j * haar_weight (2 ^ S (S k)) j = 1 / 2.
Proof.
  intros H1 H2. pose proof (haar_weight_sq (S (S k)) j H2) as H.
  rewrite gram_diag_top in H by assumption. lra.
Qed.

Lemma pair_index (a : nat) : (a / 2 * 2 + a mod 2 = a)%nat.
Proof. rewrite (Nat.div_mod_eq a 2) at 3. lia. Qed.

Lemma delta_pair (a a' b b' : nat) :
  (b < 2)%nat -> (b' < 2)%nat ->
  ((a * 2 + b =? a' * 2 + b') = (a =? a') && (b =? b'))%nat.
Proof.
  intros Hb Hb'.
  destruct (Nat.eqb_spec a a'); destruct (Nat.eqb_spec b b'); cbn [andb];
    [apply Nat.eqb_eq | apply Nat.eqb_neq | apply Nat.eqb_neq | apply Nat.eqb_neq];
    lia.
Qed.

(** The rows of the Haar matrix, weighted by the squared column scaling,
    are orthonormal; rows are taken as [2a + b]. *)
Lemma haar_row_gram (k a a' b b' : nat) :
  forall (Ha : (a * 2 + b < 2 ^ S k)%nat) (Ha' : (a' * 2 + b' < 2 ^ S k)%nat)
         (Hb : (b < 2)%nat) (Hb' : (b' < 2)%nat),
  big_sum (2 ^ S k) (fun j =>
    get (haar_unnorm k) (a * 2 + b) j * get (haar_unnorm k) (a' * 2 + b') j
    * (haar_weight (2 ^ S k) j * haar_weight (2 ^ S k) j))
  = if (a * 2 + b =? a' * 2 + b')%nat then 1 else 0.
Proof.
  revert a a' b b'. induction k as [|k IH]; intros a a' b b' Ha Ha' Hb Hb'.
  - change (2 ^ 1)%nat with 2%nat in *. rewrite big_sum_2.
    pose proof (haar_weight_sq 1 0 ltac:(simpl; lia)) as W0.
    pose proof (haar_weight_sq 1 1 ltac:(simpl; lia)) as W1.
    change (2 ^ 1)%nat with 2%nat in W0, W1.
    unfold gram_diag in W0, W1. cbn [Nat.eqb] in W0, W1.
    change (Nat.log2 1) with 0%nat in W1. simpl in W0, W1.
    set (w0 := haar_weight 2 0 * haar_weight 2 0) in *.
    set (w1 := haar_weight 2 1 * haar_weight 2 1) in *.
    assert (a = 0%nat) by lia. assert (a' = 0%nat) by lia. subst a a'.
    destruct b as [|[|b]]; destruct b' as [|[|b']]; try lia;
      unfold get; simpl; lra.
  - pose proof (pow2_pos (S k)) as Hp.
    assert (EN : (2 ^ S (S k) = 2 ^ S k + 2 ^ S k)%nat)
      by (rewrite (Nat.pow_succ_r' 2 (S k)); lia).
    assert (HaN : (a < 2 ^ S k)%nat) by lia.
    assert (Ha'N : (a' < 2 ^ S k)%nat) by lia.
    set (F := fun j =>
           get (haar_unnorm (S k)) (a * 2 + b) j
           * get (haar_unnorm (S k)) (a' * 2 + b') j
           * (haar_weight (2 ^ S (S k)) j * haar_weight (2 ^ S (S k)) j)).
    assert (S1 : big_sum (2 ^ S k) F = / 2 * (if (a =? a')%nat then 1 else 0)).
    { pose proof (IH (a / 2)%nat (a' / 2)%nat (a mod 2)%nat (a' mod 2)%nat) as IH'.
      rewrite !pair_index in IH'.
      rewrite <- IH' by (try assumption; apply Nat.mod_upper_bound; lia).
      rewrite <- big_sum_scal. apply big_sum_ext. intros j Hj. unfold F.
      rewrite !haar_unnorm_entry by (try assumption; lia).
      replace (j <? 2 ^ S k)%nat with true by (symmetry; apply Nat.ltb_lt; exact Hj).
      rewrite haar_weight_sq_double by exact Hj. field. }
    assert (S2 : big_sum (2 ^ S k) (fun t => F (2 ^ S k + t)%nat)
                 = if (a =? a')%nat then sgn b * sgn b' / 2 else 0).
    { rewrite (big_sum_single _ a).
      - unfold F. rewrite !haar_unnorm_entry by (try assumption; lia).
        replace (2 ^ S k + a <? 2 ^ S k)%nat with false
          by (symmetry; apply Nat.ltb_ge; lia).
        replace (2 ^ S k + a - 2 ^ S k)%nat with a by lia.
        rewrite haar_weight_sq_top by lia.
        rewrite Nat.eqb_refl, (Nat.eqb_sym a' a).
        destruct (a =? a')%nat; field.
      - exact HaN.
      - intros t Ht Hne. unfold F.
        rewrite !haar_unnorm_entry by (try assumption; lia).
        replace (2 ^ S k + t <? 2 ^ S k)%nat with false
          by (symmetry; apply Nat.ltb_ge; lia).
        replace (2 ^ S k + t - 2 ^ S k)%nat with t by lia.
        replace (a =? t)%nat with false by (symmetry; apply Nat.eqb_neq; lia).
        ring. }
    rewrite EN at 1. rewrite big_sum_add, S1, S2.
    rewrite delta_pair by assumption.
    destruct (Nat.eqb_spec a a') as [->|Hne]; cbn [andb].
    + unfold sgn.
      destruct b as [|[|b]]; destruct b' as [|[|b']]; try lia; simpl; field.
    + field.
Qed.

Lemma haar_norm_row_gram (k i i' : nat) :
  (i < 2 ^ S k)%nat -> (i' < 2 ^ S k)%nat ->
  big_sum (2 ^ S k) (fun j => get (haar_norm k) i j * get (haar_norm k) i' j)
  = if (i =? i')%nat then 1 else 0.
Proof.
  intros Hi Hi'.
  pose proof (haar_row_gram k (i / 2)%nat (i' / 2)%nat (i mod 2)%nat (i' mod 2)%nat) as G.
  rewrite !pair_index in G.
  rewrite <- G by (try assumption; apply Nat.mod_upper_bound; lia).
  apply big_sum_ext. intros j Hj.
  rewrite !haar_norm_entry by assumption. ring.
Qed.

Lemma transpose_transpose_tabulate (m n : nat) (f : nat -> nat -> R) :
  Np.transpose (Np.transpose (tabulate m n f)) = tabulate m n f.
Proof. rewrite !transpose_tabulate. reflexivity. Qed.

Lemma transpose_transpose_haar_norm (k : nat) :
  Np.transpose (Np.transpose (haar_norm k)) = haar_norm k.
Proof. unfold haar_norm. apply transpose_transpose_tabulate. Qed.

Lemma haar_norm_transpose_orthonormal_columns (k : nat) :
  orthonormal_columns (Np.transpose (haar_norm k)).
Proof.
  intros a b Ha Hb. rewrite ncols_transpose in Ha, Hb.
  rewrite nrows_transpose.
  change (nrows (haar_norm k)) with (2 ^ S k)%nat in Ha, Hb.
  change (ncols (haar_norm k)) with (2 ^ S k)%nat.
  rewrite <- (haar_norm_row_gram k a b) by assumption.
  apply big_sum_ext. intros l Hl.
  unfold Np.transpose. rewrite !get_tabulate by assumption. reflexivity.
Qed.

Lemma haarMatrix_depth_fails (fuel n : nat) (b : bool) :
  (n < 2)%nat \/ (fuel < Nat.log2_up n)%nat ->
  haarMatrix fuel n b = OutOfFuel.
Proof.
  intros [Hn|Hf].
  - destruct n as [|[|n]]; [| |lia].
    + apply haarMatrix_zero_diverges.
    + apply haarMatrix_one_diverges.
  - assert (Hk : (1 <= Nat.log2_up n)%nat) by lia.
    assert (Hn : (1 <= n)%nat).
    { destruct n; [|lia]. change (Nat.log2_up 0) with 0%nat in Hk. lia. }
    rewrite haarMatrix_round, next_pow2_pos by exact Hn.
    replace (Nat.log2_up n) with (S (Nat.log2_up n - 1)) by lia.
    apply haarMatrix_pow2_out_of_fuel. lia.
Qed.

End HaarMore.

(** X8. [haarMatrix] does not return when [n <= 1], whatever the recursion
    depth allowed, and for [n >= 2] it does not return on a recursion depth
    below [ceil(log2 n)]: that depth is exactly what it uses. *)
Theorem haarMatrix_depth_needed (fuel n : nat) (normalized : bool) :
  (n < 2)%nat \/ (fuel < Nat.log2_up n)%nat ->
  haarMatrix fuel n normalized = OutOfFuel.
Proof.
  apply haarMatrix_depth_fails.
Qed.

Lemma haarMatrix_depth_needed_witness :
  haarMatrix 2 5 true = OutOfFuel.
Proof.
  apply (haarMatrix_depth_needed 2 5 true). right.
  change (Nat.log2_up 5) with 3%nat. lia.
Defined.

(** X9. Without normalisation, for [n >= 2], the entries of
    [haarMatrix(n)] are -1, 0 or 1, and its columns are orthogonal: column
    0 has squared norm [N = 2^ceil(log2 n)] and column [j >= 1] has
    squared norm [N / 2^floor(log2 j)]. *)
Theorem haarMatrix_unnormalized_columns (n : nat) :
  (2 <= n)%nat ->
  exists H,
    (forall fuel, (Nat.log2_up n <= fuel)%nat -> haarMatrix fuel n false = Ok H) /\
    (forall i j, (i < 2 ^ Nat.log2_up n)%nat -> (j < 2 ^ Nat.log2_up n)%nat ->
       get H i j = -1 \/ get H i j = 0 \/ get H i j = 1) /\
    (forall j j', (j < 2 ^ Nat.log2_up n)%nat -> (j' < 2 ^ Nat.log2_up n)%nat ->
       big_sum (2 ^ Nat.log2_up n) (fun i => get H i j * get H i j')
       = if (j =? j')%nat
         then INR (2 ^ (Nat.log2_up n - (if (j =? 0)%nat then 0 else Nat.log2 j)))
         else 0).
Proof.
  intros Hn. pose proof (log2_up_ge_1 n Hn) as Hk.
  pose proof (fun fuel => haarMatrix_returns n fuel false Hn) as Hret.
  unfold haar_result in Hret.
  remember (Nat.log2_up n - 1)%nat as k eqn:Ek.
  assert (E : Nat.log2_up n = S k) by lia. rewrite E in *.
  exists (haar_unnorm k).
  split; [|split].
  - exact Hret.
  - intros i j. apply haar_unnorm_values.
  - intros j j' Hj Hj'. rewrite haar_gram by assumption. reflexivity.
Qed.

Lemma haarMatrix_unnormalized_columns_witness :
  exists H,
    (forall fuel, (Nat.log2_up 4 <= fuel)%nat -> haarMatrix fuel 4 false = Ok H) /\
    (forall i j, (i < 2 ^ Nat.log2_up 4)%nat -> (j < 2 ^ Nat.log2_up 4)%nat ->
       get H i j = -1 \/ get H i j = 0 \/ get H i j = 1) /\
    (forall j j', (j < 2 ^ Nat.log2_up 4)%nat -> (j' < 2 ^ Nat.log2_up 4)%nat ->
       big_sum (2 ^ Nat.log2_up 4) (fun i => get H i j * get H i j')
       = if (j =? j')%nat
         then INR (2 ^ (Nat.log2_up 4 - (if (j =? 0)%nat then 0 else Nat.log2 j)))
         else 0).
Proof.
  apply (haarMatrix_unnormalized_columns 4). lia.
Defined.

(** X10. For [n >= 2] the rows of [haarMatrix(n, True)] are orthonormal
    too: [H H^T] is the identity. *)
Theorem haarMatrix_rows_orthonormal (n : nat) :
  (2 <= n)%nat ->
  exists H,
    (forall fuel, (Nat.log2_up n <= fuel)%nat -> haarMatrix fuel n true = Ok H) /\
    Np.matmul H (Np.transpose H) = Ok (Np.eye (2 ^ Nat.log2_up n)).
Proof.
  intros Hn. pose proof (log2_up_ge_1 n Hn) as Hk.
  pose proof (fun fuel => haarMatrix_returns n fuel true Hn) as Hret.
  unfold haar_result in Hret.
  remember (Nat.log2_up n - 1)%nat as k eqn:Ek.
  assert (E : Nat.log2_up n = S k) by lia. rewrite E in *.
  exists (haar_norm k).
  split; [exact Hret|].
  rewrite matmul_value by reflexivity. apply f_equal.
  rewrite ncols_transpose. unfold Np.eye.
  change (nrows (haar_norm k)) with (2 ^ S k)%nat.
  change (ncols (haar_norm k)) with (2 ^ S k)%nat.
  apply tabulate_ext. intros i j Hi Hj.
  rewrite <- (haar_norm_row_gram k i j) by assumption.
  apply big_sum_ext. intros l Hl.
  unfold Np.transpose at 1. rewrite get_tabulate by assumption. reflexivity.
Qed.

Lemma haarMatrix_rows_orthonormal_witness :
  exists H,
    (forall fuel, (Nat.log2_up 6 <= fuel)%nat -> haarMatrix fuel 6 true = Ok H) /\
    Np.matmul H (Np.transpose H) = Ok (Np.eye (2 ^ Nat.log2_up 6)).
Proof.
  apply (haarMatrix_rows_orthonormal 6). lia.
Defined.

(** ** Kronecker products and powers *)

Section KronAlgebra.

Lemma big_sum_prod (m n : nat) (f g : nat -> R) :
  big_sum m (fun i => big_sum n (fun j => f i * g j))
  = big_sum m f * big_sum n g.
Proof.
  rewrite (big_sum_ext m _ (fun i => big_sum n g * f i)).
  - rewrite big_sum_scal. ring.
  - intros i _. rewrite big_sum_scal. ring.
Qed.

Lemma eqb_div_mod (q a b : nat) :
  (0 < q)%nat ->
  ((a =? b) = (a / q =? b / q) && (a mod q =? b mod q))%nat.
Proof.
  intros Hq.
  destruct (Nat.eqb_spec a b) as [->|Hne].
  - rewrite !Nat.eqb_refl. reflexivity.
  - destruct (Nat.eqb_spec (a / q) (b / q)) as [E1|E1]; [|reflexivity].
    destruct (Nat.eqb_spec (a mod q) (b mod q)) as [E2|E2]; [|reflexivity].
    exfalso. apply Hne.
    rewrite (Nat.div_mod_eq a q), (Nat.div_mod_eq b q), E1, E2. reflexivity.
Qed.

Lemma get_kron (A B : matrix) (i j : nat) :
  (i < nrows A * nrows B)%nat -> (j < ncols A * ncols B)%nat ->
  get (Np.kron A B) i j
  = get A (i / nrows B) (j / ncols B) * get B (i mod nrows B) (j mod ncols B).
Proof. intros Hi Hj. unfold Np.kron. apply get_tabulate; assumption. Qed.

Lemma kron_orthonormal_columns (A B : matrix) :
  orthonormal_columns A -> orthonormal_columns B ->
  orthonormal_columns (Np.kron A B).
Proof.
  intros HA HB a b Ha Hb.
  unfold Np.kron in Ha, Hb. rewrite ncols_tabulate in Ha, Hb.
  unfold Np.kron at 1. rewrite nrows_tabulate.
  assert (Hq : (0 < ncols B)%nat) by (destruct (ncols B); lia).
  rewrite big_sum_blocks.
  rewrite (big_sum_ext (nrows A) _
             (fun i1 => big_sum (nrows B) (fun i2 =>
                (get A i1 (a / ncols B) * get A i1 (b / ncols B))
                * (get B i2 (a mod ncols B) * get B i2 (b mod ncols B))))).
  2: { intros i1 Hi1. apply big_sum_ext. intros i2 Hi2.
       rewrite !get_kron by (try assumption; apply index_block_lt; assumption).
       rewrite div_block, mod_block by exact Hi2. ring. }
  rewrite big_sum_prod.
  rewrite HA by (apply div_lt_rows; assumption).
  rewrite HB by (apply (mod_lt_rows (ncols A)); assumption).
  rewrite (eqb_div_mod (ncols B) a b Hq).
  destruct (a / ncols B =? b / ncols B)%nat;
    destruct (a mod ncols B =? b mod ncols B)%nat; cbn [andb]; ring.
Qed.

Lemma matmul_orthonormal_columns (P Q : matrix) :
  ncols P = nrows Q -> orthonormal_columns P -> orthonormal_columns Q ->
  exists M, Np.matmul P Q = Ok M /\ nrows M = nrows P /\ ncols M = ncols Q /\
            orthonormal_columns M.
Proof.
  intros E HP HQ. eexists. split; [apply matmul_value; exact E|].
  split; [reflexivity|]. split; [reflexivity|].
  intros a b Ha Hb. rewrite ncols_tabulate in Ha, Hb. rewrite nrows_tabulate.
  transitivity
    (big_sum (nrows P) (fun i =>
       big_sum (ncols P) (fun l' => get P i l' * get Q l' b)
       * big_sum (ncols P) (fun l => get Q l a * get P i l))).
  { apply big_sum_ext. intros i Hi.
    rewrite !get_tabulate by assumption. rewrite Rmult_comm. f_equal.
    apply big_sum_ext. intros l _. ring. }
  rewrite (big_sum_swap_scal (nrows P) (ncols P)
             (fun i => big_sum (ncols P) (fun l' => get P i l' * get Q l' b))
             (fun l => get Q l a) (fun i l => get P i l)).
  rewrite <- (HQ a b Ha Hb), <- E.
  apply big_sum_ext. intros l Hl. f_equal.
  transitivity
    (big_sum (nrows P) (fun i =>
       get P i l * big_sum (ncols P) (fun l' => get P i l' * get Q l' b))).
  { apply big_sum_ext. intros i _. ring. }
  apply (gram_apply P (fun l' => get Q l' b)); assumption.
Qed.

Lemma nrows_kron (A B : matrix) : nrows (Np.kron A B) = (nrows A * nrows B)%nat.
Proof. reflexivity. Qed.

Lemma ncols_kron (A B : matrix) : ncols (Np.kron A B) = (ncols A * ncols B)%nat.
Proof. reflexivity. Qed.

Lemma kron_table (A B : matrix) :
  Np.kron A B =
  tabulate (nrows A * nrows B) (ncols A * ncols B)
           (fun i j => get A (i / nrows B) (j / ncols B)
                       * get B (i mod nrows B) (j mod ncols B)).
Proof. reflexivity. Qed.

(** The mixed-product rule. *)
Lemma kron_matmul (A B C D : matrix) :
  ncols A = nrows C -> ncols B = nrows D ->
  exists AC BD,
    Np.matmul A C = Ok AC /\ Np.matmul B D = Ok BD /\
    nrows AC = nrows A /\ ncols AC = ncols C /\
    nrows BD = nrows B /\ ncols BD = ncols D /\
    Np.matmul (Np.kron A B) (Np.kron C D) = Ok (Np.kron AC BD).
Proof.
  intros E1 E2.
  set (AC := tabulate (nrows A) (ncols C)
               (fun i j => big_sum (ncols A) (fun l => get A i l * get C l j))).
  set (BD := tabulate (nrows B) (ncols D)
               (fun i j => big_sum (ncols B) (fun l => get B i l * get D l j))).
  exists AC, BD.
  split; [apply matmul_value; exact E1|].
  split; [apply matmul_value; exact E2|].
  do 4 (split; [reflexivity|]).
  rewrite matmul_value
    by (rewrite nrows_kron, ncols_kron, E1, E2; reflexivity).
  apply f_equal. rewrite (kron_table AC BD).
  rewrite nrows_kron, !ncols_kron.
  change (nrows AC) with (nrows A). change (nrows BD) with (nrows B).
  change (ncols AC) with (ncols C). change (ncols BD) with (ncols D).
  apply tabulate_ext. intros i j Hi Hj.
  rewrite big_sum_blocks.
  rewrite (big_sum_ext (ncols A) _
             (fun t1 => big_sum (ncols B) (fun t2 =>
                (get A (i / nrows B) t1 * get C t1 (j / ncols D))
                * (get B (i mod nrows B) t2 * get D t2 (j mod ncols D))))).
  2: { intros t1 Ht1. apply big_sum_ext. intros t2 Ht2.
       rewrite get_kron by (try assumption; apply index_block_lt; assumption).
       rewrite get_kron
         by (try assumption; rewrite <- E1, <- E2;
             apply index_block_lt; assumption).
       rewrite <- E2. rewrite !div_block, !mod_block by exact Ht2. ring. }
  rewrite big_sum_prod.
  unfold AC, BD.
  rewrite !get_tabulate
    by (first [ apply (div_lt_rows _ _ _ Hi) | apply (div_lt_rows _ _ _ Hj)
              | apply (mod_lt_rows _ _ _ Hi) | apply (mod_lt_rows _ _ _ Hj) ]).
  reflexivity.
Qed.

Lemma nrows_eye (n : nat) : nrows (Np.eye n) = n.
Proof. reflexivity. Qed.

Lemma ncols_eye (n : nat) : ncols (Np.eye n) = n.
Proof. reflexivity. Qed.

Lemma kron_eye (a b : nat) : Np.kron (Np.eye a) (Np.eye b) = Np.eye (a * b).
Proof.
  rewrite kron_table, !nrows_eye, !ncols_eye.
  change (Np.eye (a * b))
    with (tabulate (a * b) (a * b) (fun i j => if (i =? j)%nat then 1 else 0)).
  apply tabulate_ext. intros i j Hi Hj.
  assert (Hb : (0 < b)%nat) by (destruct b; lia).
  unfold Np.eye.
  rewrite !get_tabulate
    by (first [ apply (div_lt_rows _ _ _ Hi) | apply (div_lt_rows _ _ _ Hj)
              | apply (mod_lt_rows _ _ _ Hi) | apply (mod_lt_rows _ _ _ Hj) ]).
  rewrite (eqb_div_mod b i j Hb).
  destruct (i / b =? j / b)%nat; destruct (i mod b =? j mod b)%nat;
    cbn [andb]; ring.
Qed.

Lemma eye_orthonormal_columns (n : nat) : orthonormal_columns (Np.eye n).
Proof.
  intros a b Ha Hb. unfold Np.eye in *.
  rewrite ncols_tabulate in Ha, Hb. rewrite nrows_tabulate.
  rewrite (big_sum_single _ a).
  - rewrite !get_tabulate by assumption. rewrite Nat.eqb_refl. ring.
  - exact Ha.
  - intros l Hl Hne. rewrite !get_tabulate by assumption.
    replace (l =? a)%nat with false by (symmetry; apply Nat.eqb_neq; exact Hne).
    ring.
Qed.

(** Powers of a square matrix with orthonormal columns. *)
Lemma power_from_orthonormal (a : matrix) (k : nat) :
  nrows a = ncols a -> orthonormal_columns a ->
  exists P, power_from a k = Ok P /\ nrows P = nrows a /\ ncols P = ncols a /\
            orthonormal_columns P.
Proof.
  intros Hsq Ha. induction k as [|k (P & EP & Hr & Hc & HP)].
  - exists a. split; [reflexivity|]. split; [reflexivity|].
    split; [reflexivity | exact Ha].
  - cbn [power_from]. rewrite EP. cbn [bind].
    destruct (matmul_orthonormal_columns P a) as (M & EM & Hr' & Hc' & HM);
      [lia | exact HP | exact Ha |].
    exists M. split; [exact EM|]. split; [lia|]. split; [lia | exact HM].
Qed.

Lemma matrix_power_orthonormal (a : matrix) (d : nat) :
  nrows a = ncols a -> orthonormal_columns a ->
  exists P, matrix_power a d = Ok P /\ nrows P = nrows a /\ ncols P = ncols a /\
            orthonormal_columns P.
Proof.
  intros Hsq Ha. unfold matrix_power.
  replace (nrows a =? ncols a)%nat with true
    by (symmetry; apply Nat.eqb_eq; exact Hsq).
  destruct d as [|k].
  - exists (Np.eye (nrows a)).
    split; [reflexivity|]. split; [reflexivity|].
    split; [exact Hsq | apply eye_orthonormal_columns].
  - apply power_from_orthonormal; assumption.
Qed.

(** Powers of a Kronecker product are Kronecker products of powers. *)
Lemma power_from_kron (A B : matrix) (k : nat) :
  nrows A = ncols A -> nrows B = ncols B ->
  exists PA PB,
    power_from A k = Ok PA /\ power_from B k = Ok PB /\
    nrows PA = nrows A /\ ncols PA = ncols A /\
    nrows PB = nrows B /\ ncols PB = ncols B /\
    power_from (Np.kron A B) k = Ok (Np.kron PA PB).
Proof.
  intros HA HB.
  induction k as [|k (PA & PB & EA & EB & HrA & HcA & HrB & HcB & EK)].
  - exists A, B. do 6 (split; [reflexivity|]). reflexivity.
  - cbn [power_from]. rewrite EA, EB, EK. cbn [bind].
    destruct (kron_matmul PA PB A B) as
        (AC & BD & E1 & E2 & H1 & H2 & H3 & H4 & E3); [lia | lia |].
    exists AC, BD. rewrite E1, E2, E3.
    do 2 (split; [reflexivity|]). do 4 (split; [lia|]). reflexivity.
Qed.

End KronAlgebra.

(** ** The dense two-dimensional operators *)

Section Dense2D.

Lemma gram_matmul (M : matrix) :
  orthonormal_columns M ->
  Np.matmul (Np.transpose M) M = Ok (Np.eye (ncols M)).
Proof.
  intros HM. rewrite matmul_value by reflexivity. apply f_equal.
  rewrite nrows_transpose, ncols_transpose. unfold Np.eye.
  apply tabulate_ext. intros i j Hi Hj.
  rewrite <- (HM i j Hi Hj).
  apply big_sum_ext. intros l Hl.
  unfold Np.transpose. rewrite get_tabulate by assumption. reflexivity.
Qed.

Lemma matrix_power_one (a : matrix) :
  nrows a = ncols a -> matrix_power a 1 = Ok a.
Proof.
  intros E. unfold matrix_power. rewrite E, Nat.eqb_refl. reflexivity.
Qed.

Lemma haar_result_normalized_facts (n : nat) :
  (2 <= n)%nat ->
  nrows (haar_result n true) = (2 ^ Nat.log2_up n)%nat /\
  ncols (haar_result n true) = (2 ^ Nat.log2_up n)%nat /\
  orthonormal_columns (haar_result n true).
Proof.
  intros Hn. pose proof (log2_up_ge_1 n Hn) as Hk.
  unfold haar_result.
  replace (Nat.log2_up n) with (S (Nat.log2_up n - 1)) at 2 4 by lia.
  split; [reflexivity|]. split; [reflexivity|].
  apply haar_norm_orthonormal_columns.
Qed.

Lemma vectorized2DBlurMatrix_value (m n : nat) (w : Z) :
  w <> 0%Z ->
  vectorized2DBlurMatrix m n w =
  Ok (Np.kron (tabulate n n (blur_entry n w)) (tabulate m m (blur_entry m w))).
Proof.
  intros Hw. unfold vectorized2DBlurMatrix.
  rewrite !blurMatrix_value by exact Hw. reflexivity.
Qed.

End Dense2D.

(** X11. For [m, n >= 2] and every power [d >= 0],
    [vectorized2DHaarMatrix(m, n, d)] returns a square matrix of size
    [2^ceil(log2 n) * 2^ceil(log2 m)] with orthonormal columns:
    [M^T M] is the identity. *)
Theorem vectorized2DHaarMatrix_orthonormal (fuel m n d : nat) :
  (2 <= m)%nat -> (2 <= n)%nat ->
  (Nat.log2_up m <= fuel)%nat -> (Nat.log2_up n <= fuel)%nat ->
  exists M,
    vectorized2DHaarMatrix fuel m n d = Ok M /\
    nrows M = (2 ^ Nat.log2_up n * 2 ^ Nat.log2_up m)%nat /\
    ncols M = (2 ^ Nat.log2_up n * 2 ^ Nat.log2_up m)%nat /\
    Np.matmul (Np.transpose M) M
    = Ok (Np.eye (2 ^ Nat.log2_up n * 2 ^ Nat.log2_up m)).
Proof.
  intros Hm Hn Hfm Hfn. unfold vectorized2DHaarMatrix.
  rewrite (haarMatrix_returns m fuel true Hm Hfm),
          (haarMatrix_returns n fuel true Hn Hfn). cbn [bind].
  destruct (haar_result_normalized_facts m Hm) as (Hrm & Hcm & Hom).
  destruct (haar_result_normalized_facts n Hn) as (Hrn & Hcn & Hon).
  destruct (matrix_power_orthonormal (haar_result m true) d)
    as (Pm & EPm & Prm & Pcm & Pom); [lia | exact Hom |].
  destruct (matrix_power_orthonormal (haar_result n true) d)
    as (Pn & EPn & Prn & Pcn & Pon); [lia | exact Hon |].
  rewrite EPm, EPn. cbn [bind].
  exists (Np.kron Pn Pm).
  split; [reflexivity|].
  split; [rewrite nrows_kron; lia|].
  split; [rewrite ncols_kron; lia|].
  rewrite gram_matmul by (apply kron_orthonormal_columns; assumption).
  rewrite ncols_kron. do 2 f_equal. lia.
Qed.

Lemma vectorized2DHaarMatrix_orthonormal_witness :
  exists M,
    vectorized2DHaarMatrix 2 2 4 3 = Ok M /\
    nrows M = (2 ^ Nat.log2_up 4 * 2 ^ Nat.log2_up 2)%nat /\
    ncols M = (2 ^ Nat.log2_up 4 * 2 ^ Nat.log2_up 2)%nat /\
    Np.matmul (Np.transpose M) M
    = Ok (Np.eye (2 ^ Nat.log2_up 4 * 2 ^ Nat.log2_up 2)).
Proof.
  apply (vectorized2DHaarMatrix_orthonormal 2 2 4 3).
  - lia.
  - lia.
  - change (Nat.log2_up 2) with 1%nat. lia.
  - change (Nat.log2_up 4) with 2%nat. lia.
Defined.

(** X12. [vectorized2DHaarMatrix(m, n, d)] is the [d]-th matrix power of
    [vectorized2DHaarMatrix(m, n, 1)]: the two-dimensional transform
    taken [d] times. *)
Theorem vectorized2DHaarMatrix_power (fuel m n d : nat) :
  (2 <= m)%nat -> (2 <= n)%nat ->
  (Nat.log2_up m <= fuel)%nat -> (Nat.log2_up n <= fuel)%nat ->
  exists M,
    vectorized2DHaarMatrix fuel m n d = Ok M /\
    (M1 <- vectorized2DHaarMatrix fuel m n 1 ;; matrix_power M1 d) = Ok M.
Proof.
  intros Hm Hn Hfm Hfn. unfold vectorized2DHaarMatrix.
  rewrite (haarMatrix_returns m fuel true Hm Hfm),
          (haarMatrix_returns n fuel true Hn Hfn). cbn [bind].
  destruct (haar_result_normalized_facts m Hm) as (Hrm & Hcm & _).
  destruct (haar_result_normalized_facts n Hn) as (Hrn & Hcn & _).
  rewrite !matrix_power_one by lia. cbn [bind].
  unfold matrix_power.
  rewrite nrows_kron, ncols_kron.
  rewrite Hrm, Hcm, Hrn, Hcn, !Nat.eqb_refl.
  destruct d as [|k].
  - cbn [bind]. exists (Np.eye (2 ^ Nat.log2_up n * 2 ^ Nat.log2_up m)).
    split; [|reflexivity]. rewrite kron_eye. reflexivity.
  - destruct (power_from_kron (haar_result n true) (haar_result m true) k)
      as (PA & PB & EA & EB & _ & _ & _ & _ & EK); [lia | lia |].
    rewrite EA, EB, EK. cbn [bind]. exists (Np.kron PA PB).
    split; reflexivity.
Qed.

Lemma vectorized2DHaarMatrix_power_witness :
  exists M,
    vectorized2DHaarMatrix 1 2 2 2 = Ok M /\
    (M1 <- vectorized2DHaarMatrix 1 2 2 1 ;; matrix_power M1 2) = Ok M.
Proof.
  apply (vectorized2DHaarMatrix_power 1 2 2 2).
  - lia.
  - lia.
  - change (Nat.log2_up 2) with 1%nat. lia.
  - change (Nat.log2_up 2) with 1%nat. lia.
Defined.

(** X13. [vectorized2DHaarMatrix(m, n)] applied to a column-stacked image
    is the two-dimensional transform of the image: for [Hm], [Hn] the
    normalised Haar matrices of [m] and [n] and an image [X] of matching
    shape, [M @ vectorize(X)] is [vectorize(Hm @ X @ Hn.T)]. *)
Theorem vectorized2DHaarMatrix_vectorize (fuel m n : nat) (X : matrix) :
  (2 <= m)%nat -> (2 <= n)%nat ->
  (Nat.log2_up m <= fuel)%nat -> (Nat.log2_up n <= fuel)%nat ->
  nrows X = (2 ^ Nat.log2_up m)%nat -> ncols X = (2 ^ Nat.log2_up n)%nat ->
  exists M Hm Hn,
    vectorized2DHaarMatrix fuel m n 1 = Ok M /\
    haarMatrix fuel m true = Ok Hm /\
    haarMatrix fuel n true = Ok Hn /\
    (v <- vectorize X ;; Np.matvec M v) =
    (Y <- Np.matmul Hm X ;; Z <- Np.matmul Y (Np.transpose Hn) ;; vectorize Z).
Proof.
  intros Hm Hn Hfm Hfn HXr HXc.
  destruct (haar_result_normalized_facts m Hm) as (Hrm & Hcm & _).
  destruct (haar_result_normalized_facts n Hn) as (Hrn & Hcn & _).
  exists (Np.kron (haar_result n true) (haar_result m true)),
         (haar_result m true), (haar_result n true).
  split; [|split; [|split]].
  - unfold vectorized2DHaarMatrix.
    rewrite (haarMatrix_returns m fuel true Hm Hfm),
            (haarMatrix_returns n fuel true Hn Hfn). cbn [bind].
    rewrite !matrix_power_one by lia. reflexivity.
  - apply haarMatrix_returns; assumption.
  - apply haarMatrix_returns; assumption.
  - apply kron_matvec_vectorize; lia.
Qed.

Lemma vectorized2DHaarMatrix_vectorize_witness :
  exists M Hm Hn,
    vectorized2DHaarMatrix 1 2 2 1 = Ok M /\
    haarMatrix 1 2 true = Ok Hm /\
    haarMatrix 1 2 true = Ok Hn /\
    (v <- vectorize (Np.array [[1; 2]; [3; 4]]) ;; Np.matvec M v) =
    (Y <- Np.matmul Hm (Np.array [[1; 2]; [3; 4]]) ;;
     Z <- Np.matmul Y (Np.transpose Hn) ;; vectorize Z).
Proof.
  apply (vectorized2DHaarMatrix_vectorize 1 2 2 (Np.array [[1; 2]; [3; 4]])).
  - lia.
  - lia.
  - change (Nat.log2_up 2) with 1%nat. lia.
  - change (Nat.log2_up 2) with 1%nat. lia.
  - reflexivity.
  - reflexivity.
Defined.

(** X14. [vectorized2DBlurMatrix(m, n, w)] applied to a column-stacked
    m by n image blurs its columns and its rows independently: it is
    [vectorize(Bcols @ X @ Brows)] with [Bcols = blurMatrix(m, w)] and
    [Brows = blurMatrix(n, w)]. *)
Theorem vectorized2DBlurMatrix_vectorize (m n : nat) (w : Z) (X : matrix) :
  w <> 0%Z -> nrows X = m -> ncols X = n ->
  exists M Bcols Brows,
    vectorized2DBlurMatrix m n w = Ok M /\
    blurMatrix m w = Ok Bcols /\
    blurMatrix n w = Ok Brows /\
    (v <- vectorize X ;; Np.matvec M v) =
    (Y <- Np.matmul Bcols X ;; Z <- Np.matmul Y Brows ;; vectorize Z).
Proof.
  intros Hw Hr Hc.
  exists (Np.kron (tabulate n n (blur_entry n w)) (tabulate m m (blur_entry m w))),
         (tabulate m m (blur_entry m w)), (tabulate n n (blur_entry n w)).
  split; [apply vectorized2DBlurMatrix_value; exact Hw|].
  split; [apply blurMatrix_value; exact Hw|].
  split; [apply blurMatrix_value; exact Hw|].
  rewrite kron_matvec_vectorize by assumption.
  rewrite blur_transpose. reflexivity.
Qed.

Lemma vectorized2DBlurMatrix_vectorize_witness :
  exists M Bcols Brows,
    vectorized2DBlurMatrix 2 3 3 = Ok M /\
    blurMatrix 2 3 = Ok Bcols /\
    blurMatrix 3 3 = Ok Brows /\
    (v <- vectorize (Np.array [[1; 2; 3]; [4; 5; 6]]) ;; Np.matvec M v) =
    (Y <- Np.matmul Bcols (Np.array [[1; 2; 3]; [4; 5; 6]]) ;;
     Z <- Np.matmul Y Brows ;; vectorize Z).
Proof.
  apply (vectorized2DBlurMatrix_vectorize 2 3 3 (Np.array [[1; 2; 3]; [4; 5; 6]])).
  - lia.
  - reflexivity.
  - reflexivity.
Defined.

(** X15. For a nonzero width, [vectorized2DBlurMatrix(m, n, w)] is a
    symmetric matrix of size [n*m]. *)
Theorem vectorized2DBlurMatrix_symmetric (m n : nat) (w : Z) :
  w <> 0%Z ->
  exists M,
    vectorized2DBlurMatrix m n w = Ok M /\ wf M /\
    nrows M = (n * m)%nat /\ ncols M = (n * m)%nat /\
    Np.transpose M = M.
Proof.
  intros Hw. eexists.
  split; [apply vectorized2DBlurMatrix_value; exact Hw|].
  split; [apply wf_kron|].
  split; [reflexivity|]. split; [reflexivity|].
  rewrite transpose_kron, !blur_transpose. reflexivity.
Qed.

Lemma vectorized2DBlurMatrix_symmetric_witness :
  exists M,
    vectorized2DBlurMatrix 2 3 5 = Ok M /\ wf M /\
    nrows M = (3 * 2)%nat /\ ncols M = (3 * 2)%nat /\
    Np.transpose M = M.
Proof.
  apply (vectorized2DBlurMatrix_symmetric 2 3 5). lia.
Defined.

(** ** More on the operators of [genBH] *)

Section FactoryMore.

(** An operator built from two factors acts as their Kronecker product on
    every vector, of the right length or not. *)
Lemma kron_operator_apply (A B : matrix) (v : vector) :
  (0 < ncols A)%nat -> (0 < nrows A)%nat ->
  let L := {| Sp.shape := ((nrows A * nrows B)%nat, (ncols A * ncols B)%nat);
              Sp.matvec_impl := fun v => fastKronVecProd A B v;
              Sp.rmatvec_impl :=
                fun v => fastKronVecProd (Np.transpose A) (Np.transpose B) v |} in
  Sp.matvec L v = Np.matvec (Np.kron A B) v /\
  Sp.rmatvec L v = Np.matvec (Np.transpose (Np.kron A B)) v.
Proof.
  intros Hq Hp L. unfold Sp.matvec, Sp.rmatvec, L.
  cbn [Sp.shape Sp.matvec_impl Sp.rmatvec_impl fst snd]. split.
  - destruct (Nat.eqb_spec (length v) (ncols A * ncols B)) as [E|E].
    + rewrite fastKronVecProd_value, kron_matvec_value by assumption.
      cbn [bind]. rewrite length_map, length_seq, Nat.eqb_refl. reflexivity.
    + rewrite matvec_mismatch; [reflexivity|]. rewrite ncols_kron. exact E.
  - rewrite transpose_kron.
    destruct (Nat.eqb_spec (length v) (nrows A * nrows B)) as [E|E].
    + rewrite fastKronVecProd_value, kron_matvec_value
        by (rewrite ?ncols_transpose; assumption).
      cbn [bind]. rewrite length_map, length_seq, !nrows_transpose, Nat.eqb_refl.
      reflexivity.
    + rewrite matvec_mismatch; [reflexivity|].
      rewrite ncols_kron, !ncols_transpose. exact E.
Qed.

Lemma blur_operator_apply (n : nat) (w : Z) (v : vector) :
  (0 < n)%nat ->
  let M := Np.kron (tabulate n n (blur_entry n w)) (tabulate n n (blur_entry n w)) in
  Sp.matvec (blur_operator n w) v = Np.matvec M v /\
  Sp.rmatvec (blur_operator n w) v = Np.matvec (Np.transpose M) v.
Proof.
  intros Hn M.
  pose proof (kron_operator_apply (tabulate n n (blur_entry n w))
                                  (tabulate n n (blur_entry n w)) v Hn Hn) as K.
  cbn zeta in K. rewrite !nrows_tabulate, !ncols_tabulate, <- Nat.pow_2_r in K.
  exact K.
Qed.

Lemma haar_operator_apply (k : nat) (v : vector) :
  let M := Np.kron (haar_norm k) (haar_norm k) in
  Sp.matvec (haar_operator (2 ^ S k) (haar_norm k)) v = Np.matvec M v /\
  Sp.rmatvec (haar_operator (2 ^ S k) (haar_norm k)) v
  = Np.matvec (Np.transpose M) v.
Proof.
  intros M.
  pose proof (kron_operator_apply (haar_norm k) (haar_norm k) v
                                  (pow2_pos (S k)) (pow2_pos (S k))) as K.
  cbn zeta in K.
  change (nrows (haar_norm k)) with (2 ^ S k)%nat in K.
  change (ncols (haar_norm k)) with (2 ^ S k)%nat in K.
  rewrite <- Nat.pow_2_r in K. exact K.
Qed.

Lemma genBH_pow2_inv (k fuel : nat) (w : Z) (B H : Sp.LinearOperator) :
  (S k <= fuel)%nat ->
  genBH fuel (2 ^ S k) w = Ok (B, H) ->
  w <> 0%Z /\ B = blur_operator (2 ^ S k) w /\
  H = haar_operator (2 ^ S k) (haar_norm k).
Proof.
  intros Hf E. apply genBH_inv in E.
  destruct E as (_ & Hw & HB & Hn & EH & HH).
  rewrite haarMatrix_pow2_normalized in EH by lia. injection EH as <-.
  auto.
Qed.

Lemma pow2_log2_up_sq_neq (n : nat) :
  (1 <= n)%nat -> n <> (2 ^ Nat.log2_up n)%nat ->
  (n ^ 2 <> 2 ^ Nat.log2_up n * 2 ^ Nat.log2_up n)%nat.
Proof.
  intros Hn Hne. rewrite Nat.pow_2_r.
  destruct (Nat.log2_up_spec n) as [_ Hle].
  - destruct n as [|[|n]]; [lia | | lia].
    exfalso. apply Hne. reflexivity.
  - nia.
Qed.

Lemma genBH_not_pow2 (fuel n : nat) (w : Z) :
  (2 <= n)%nat -> (Nat.log2_up n <= fuel)%nat ->
  n <> (2 ^ Nat.log2_up n)%nat ->
  genBH fuel n w = Raise ValueError.
Proof.
  intros Hn Hf Hne. unfold genBH.
  rewrite (haarMatrix_returns n fuel true Hn Hf). cbn [bind].
  unfold Sp.mkLinearOperator, Sp.matvec.
  cbn [Sp.shape Sp.matvec_impl snd fst].
  rewrite length_zeros, Nat.eqb_refl.
  rewrite fastKronVecProd_mismatch; [reflexivity|].
  rewrite length_zeros.
  destruct (haar_result_normalized_facts n Hn) as (_ & Hc & _).
  rewrite Hc. apply pow2_log2_up_sq_neq; [lia | exact Hne].
Qed.

Lemma genBH_zero_width (k fuel : nat) :
  (S k <= fuel)%nat -> genBH fuel (2 ^ S k) 0 = Raise ZeroDivisionError.
Proof.
  intros Hf. pose proof (pow2_pos (S k)) as Hp. unfold genBH.
  rewrite haarMatrix_pow2_normalized by lia. cbn [bind].
  destruct (fastKron_square_ok (haar_norm k) (2 ^ S k) (Np.zeros ((2 ^ S k) ^ 2)))
    as [y [Hy Hl]];
    [reflexivity | reflexivity | exact Hp | apply zeros_square_length |].
  rewrite (mkLinearOperator_ok _ _ _ y);
    [| exact Hy | rewrite Hl; symmetry; apply Nat.pow_2_r].
  cbn [bind]. rewrite blurMatrix_zero_width. reflexivity.
Qed.

End FactoryMore.

(** X16. The blur operator [B] returned by [genBH(n, w)] acts as the dense
    matrix [vectorized2DBlurMatrix(n, n, w)]: [B.matvec(v)] is [M @ v] and
    [B.rmatvec(v)] is [M.T @ v], for every [v] (both raise [ValueError]
    when the length of [v] is not [n^2]). *)
Theorem genBH_blur_is_dense (fuel n : nat) (w : Z) (B H : Sp.LinearOperator) :
  genBH fuel n w = Ok (B, H) ->
  exists M,
    vectorized2DBlurMatrix n n w = Ok M /\
    forall v, Sp.matvec B v = Np.matvec M v /\
              Sp.rmatvec B v = Np.matvec (Np.transpose M) v.
Proof.
  intros E. apply genBH_inv in E. destruct E as (Hn & Hw & -> & _).
  eexists. split; [apply vectorized2DBlurMatrix_value; exact Hw|].
  intros v. apply blur_operator_apply. lia.
Qed.

Lemma genBH_blur_is_dense_witness :
  exists M,
    vectorized2DBlurMatrix (2 ^ 1) (2 ^ 1) 3 = Ok M /\
    forall v, Sp.matvec (blur_operator (2 ^ 1) 3) v = Np.matvec M v /\
              Sp.rmatvec (blur_operator (2 ^ 1) 3) v
              = Np.matvec (Np.transpose M) v.
Proof.
  apply (genBH_blur_is_dense 1 (2 ^ 1) 3 (blur_operator (2 ^ 1) 3)
                             (haar_operator (2 ^ 1) (haar_norm 0))).
  apply genBH_returns; lia.
Defined.

(** X17. For [n] a power of two, the Haar operator [H] returned by
    [genBH(n, w)] acts as the dense matrix [vectorized2DHaarMatrix(n, n)]:
    [H.matvec(v)] is [M @ v] and [H.rmatvec(v)] is [M.T @ v], for every
    [v]. *)
Theorem genBH_haar_is_dense (k fuel : nat) (w : Z) (B H : Sp.LinearOperator) :
  (S k <= fuel)%nat ->
  genBH fuel (2 ^ S k) w = Ok (B, H) ->
  exists M,
    vectorized2DHaarMatrix fuel (2 ^ S k) (2 ^ S k) 1 = Ok M /\
    forall v, Sp.matvec H v = Np.matvec M v /\
              Sp.rmatvec H v = Np.matvec (Np.transpose M) v.
Proof.
  intros Hf E. apply genBH_pow2_inv in E; [|exact Hf].
  destruct E as (_ & _ & ->).
  exists (Np.kron (haar_norm k) (haar_norm k)). split.
  - unfold vectorized2DHaarMatrix.
    rewrite haarMatrix_pow2_normalized by lia. cbn [bind].
    rewrite matrix_power_one by reflexivity. reflexivity.
  - intros v. apply haar_operator_apply.
Qed.

Lemma genBH_haar_is_dense_witness :
  exists M,
    vectorized2DHaarMatrix 1 (2 ^ 1) (2 ^ 1) 1 = Ok M /\
    forall v, Sp.matvec (haar_operator (2 ^ 1) (haar_norm 0)) v = Np.matvec M v /\
              Sp.rmatvec (haar_operator (2 ^ 1) (haar_norm 0)) v
              = Np.matvec (Np.transpose M) v.
Proof.
  apply (genBH_haar_is_dense 0 1 3 (blur_operator (2 ^ 1) 3)
                             (haar_operator (2 ^ 1) (haar_norm 0))).
  - lia.
  - apply genBH_returns; lia.
Defined.

(** X18. For [n] a power of two, the Haar operator of [genBH(n, w)] is
    also undone in the other order: [H.matvec(H.rmatvec(v)) = v] for
    every [v] of length [n^2]. *)
Theorem genBH_haar_inverse_round_trip
        (k fuel : nat) (w : Z) (B H : Sp.LinearOperator) (v : vector) :
  (S k <= fuel)%nat ->
  genBH fuel (2 ^ S k) w = Ok (B, H) ->
  length v = ((2 ^ S k) ^ 2)%nat ->
  (y <- Sp.rmatvec H v ;; Sp.matvec H y) = Ok v.
Proof.
  intros Hf E Hv. apply genBH_pow2_inv in E; [|exact Hf].
  destruct E as (_ & _ & ->). pose proof (pow2_pos (S k)) as Hp.
  assert (Hv' : length v = (2 ^ S k * 2 ^ S k)%nat)
    by (rewrite Hv; apply Nat.pow_2_r).
  pose proof (fastKronVecProd_transposed_inverse
                (Np.transpose (haar_norm k)) (Np.transpose (haar_norm k)) v
                Hp Hp Hv'
                (haar_norm_transpose_orthonormal_columns k)
                (haar_norm_transpose_orthonormal_columns k)) as RT.
  rewrite !transpose_transpose_haar_norm in RT.
  destruct (fastKron_square_ok (Np.transpose (haar_norm k)) (2 ^ S k) v)
    as [y [Hy Hl]]; [reflexivity | reflexivity | exact Hp | exact Hv' |].
  rewrite Hy in RT. cbn [bind] in RT.
  rewrite <- Nat.pow_2_r in Hl.
  unfold Sp.matvec, Sp.rmatvec, haar_operator.
  cbn [Sp.shape Sp.matvec_impl Sp.rmatvec_impl fst snd].
  rewrite Hv, Nat.eqb_refl, Hy. cbn [bind].
  rewrite Hl, Nat.eqb_refl. cbn [bind].
  rewrite Hl, Nat.eqb_refl, RT. cbn [bind].
  rewrite Hv, Nat.eqb_refl. reflexivity.
Qed.

Lemma genBH_haar_inverse_round_trip_witness :
  (y <- Sp.rmatvec (haar_operator (2 ^ 1) (haar_norm 0)) [1; 2; 3; 4] ;;
   Sp.matvec (haar_operator (2 ^ 1) (haar_norm 0)) y) = Ok [1; 2; 3; 4].
Proof.
  apply (genBH_haar_inverse_round_trip
           0 1 3 (blur_operator (2 ^ 1) 3) (haar_operator (2 ^ 1) (haar_norm 0))
           [1; 2; 3; 4]).
  - lia.
  - apply genBH_returns; lia.
  - reflexivity.
Defined.

(** X19. For [n] a power of two, the Haar operator of [genBH(n, w)]
    keeps the sum of squares: the inner product of [H.matvec(v)] with
    itself equals that of [v] with itself. *)
Theorem genBH_haar_isometry
        (k fuel : nat) (w : Z) (B H : Sp.LinearOperator) (v : vector) :
  (S k <= fuel)%nat ->
  genBH fuel (2 ^ S k) w = Ok (B, H) ->
  length v = ((2 ^ S k) ^ 2)%nat ->
  exists y, Sp.matvec H v = Ok y /\ dot y y = dot v v.
Proof.
  intros Hf E Hv. apply genBH_pow2_inv in E; [|exact Hf].
  destruct E as (_ & _ & ->). pose proof (pow2_pos (S k)) as Hp.
  assert (Hv' : length v = (2 ^ S k * 2 ^ S k)%nat)
    by (rewrite Hv; apply Nat.pow_2_r).
  destruct (haar_operator_apply k v) as [Hmv _]. cbn zeta in Hmv.
  pose proof (fastKronVecProd_transposed_inverse
                (haar_norm k) (haar_norm k) v Hp Hp Hv'
                (haar_norm_orthonormal_columns k)
                (haar_norm_orthonormal_columns k)) as RT.
  rewrite (fastKronVecProd_dense (haar_norm k) (haar_norm k) v Hp) in RT.
  pose proof (matvec_value (Np.kron (haar_norm k) (haar_norm k)) v Hv') as Ey.
  remember (map _ (seq 0 (nrows (Np.kron (haar_norm k) (haar_norm k))))) as y.
  assert (Hl : length y = (2 ^ S k * 2 ^ S k)%nat)
    by (subst y; rewrite length_map, length_seq; reflexivity).
  rewrite Ey in RT. cbn [bind] in RT.
  rewrite (fastKronVecProd_dense (Np.transpose (haar_norm k))
                                 (Np.transpose (haar_norm k)) y) in RT
    by (rewrite ncols_transpose; exact Hp).
  rewrite <- transpose_kron in RT.
  exists y. split; [rewrite Hmv; exact Ey|].
  destruct (matvec_adjoint (Np.kron (haar_norm k) (haar_norm k)) v y Hv' Hl)
    as (y' & z & E1 & E2 & Hdot).
  rewrite Ey in E1. injection E1 as <-.
  rewrite RT in E2. injection E2 as <-.
  exact Hdot.
Qed.

Lemma genBH_haar_isometry_witness :
  exists y,
    Sp.matvec (haar_operator (2 ^ 1) (haar_norm 0)) [1; 2; 3; 4] = Ok y /\
    dot y y = dot [1; 2; 3; 4] [1; 2; 3; 4].
Proof.
  apply (genBH_haar_isometry
           0 1 3 (blur_operator (2 ^ 1) 3) (haar_operator (2 ^ 1) (haar_norm 0))
           [1; 2; 3; 4]).
  - lia.
  - apply genBH_returns; lia.
  - reflexivity.
Defined.

(** X20. What [genBH(n, w)] does at the sizes it is written for, given
    recursion depth [ceil(log2 n)]: for [n <= 1] it never returns; for [n]
    a power of two, [n >= 2], it raises [ZeroDivisionError] when [w = 0]
    and returns the two operators otherwise. *)
Theorem genBH_outcome (fuel n : nat) (w : Z) :
  (Nat.log2_up n <= fuel)%nat ->
  ((n < 2)%nat -> genBH fuel n w = OutOfFuel) /\
  ((2 <= n)%nat -> n = (2 ^ Nat.log2_up n)%nat -> w = 0%Z ->
   genBH fuel n w = Raise ZeroDivisionError) /\
  ((2 <= n)%nat -> n = (2 ^ Nat.log2_up n)%nat -> w <> 0%Z ->
   exists B H, genBH fuel n w = Ok (B, H)).
Proof.
  intros Hf. split; [|split].
  - intros Hn. unfold genBH.
    rewrite haarMatrix_depth_fails by (left; exact Hn). reflexivity.
  - intros Hn Hp ->. pose proof (log2_up_ge_1 n Hn) as Hk.
    rewrite Hp. replace (Nat.log2_up n) with (S (Nat.log2_up n - 1)) by lia.
    apply genBH_zero_width. lia.
  - intros Hn Hp Hw. pose proof (log2_up_ge_1 n Hn) as Hk.
    rewrite Hp. replace (Nat.log2_up n) with (S (Nat.log2_up n - 1)) by lia.
    eexists. eexists. apply genBH_returns; [exact Hw | lia].
Qed.

Lemma genBH_outcome_witness :
  ((4 < 2)%nat -> genBH 2 4 0 = OutOfFuel) /\
  ((2 <= 4)%nat -> 4%nat = (2 ^ Nat.log2_up 4)%nat -> 0%Z = 0%Z ->
   genBH 2 4 0 = Raise ZeroDivisionError) /\
  ((2 <= 4)%nat -> 4%nat = (2 ^ Nat.log2_up 4)%nat -> 0%Z <> 0%Z ->
   exists B H, genBH 2 4 0 = Ok (B, H)).
Proof.
  apply (genBH_outcome 2 4 0). change (Nat.log2_up 4) with 2%nat. lia.
Defined.

(** X21. For [n >= 2] that is not a power of two, [genBH(n, w)] raises
    [ValueError]: the Haar factor has the rounded size
    [2^ceil(log2 n)], and the operator constructor applies it to a zero
    vector of length [n^2], which [fastKronVecProd] cannot reshape. *)
Theorem genBH_rejects_other_sizes (fuel n : nat) (w : Z) :
  (2 <= n)%nat -> (Nat.log2_up n <= fuel)%nat ->
  n <> (2 ^ Nat.log2_up n)%nat ->
  genBH fuel n w = Raise ValueError.
Proof.
  apply genBH_not_pow2.
Qed.

Lemma genBH_rejects_other_sizes_witness :
  genBH 3 6 3 = Raise ValueError.
Proof.
  apply (genBH_rejects_other_sizes 3 6 3).
  - lia.
  - change (Nat.log2_up 6) with 3%nat. lia.
  - change (Nat.log2_up 6) with 3%nat. simpl. lia.
Defined.

(** ** More on [getrow] *)

Section RowsMore.

Lemma norm_index_negative (d : nat) (i : Z) :
  (- Z.of_nat d <= i < 0)%Z ->
  norm_index d i = Ok (Z.to_nat (i + Z.of_nat d)).
Proof.
  intros Hi. unfold norm_index.
  replace (0 <=? i)%Z with false by (symmetry; apply Z.leb_gt; lia).
  cbn [andb].
  replace ((- Z.of_nat d <=? i)%Z && (i <? 0)%Z) with true; [reflexivity|].
  symmetry. apply andb_true_intro. split; [apply Z.leb_le | apply Z.ltb_lt]; lia.
Qed.

Lemma norm_index_out_of_range (d : nat) (i : Z) :
  (i < - Z.of_nat d \/ Z.of_nat d <= i)%Z ->
  norm_index d i = Raise IndexError.
Proof.
  intros Hi. unfold norm_index.
  destruct (Z.leb_spec 0 i); destruct (Z.ltb_spec i (Z.of_nat d));
    destruct (Z.leb_spec (- Z.of_nat d) i); destruct (Z.ltb_spec i 0);
    cbn [andb]; try reflexivity; lia.
Qed.

End RowsMore.

(** X22. [getrow] follows Python's indexing of [i - 1]: for an operator
    that is a matrix with [d] rows, an index [i] with [1 - d <= i <= 0]
    gives the row at position [d + i - 1] (counted from the end), and an
    index [i > d] or [i < 1 - d] raises [IndexError]. *)
Theorem getrow_index_range (M : matrix) (B : Sp.LinearOperator) (i : Z) :
  wf M -> represents M B ->
  ((1 - Z.of_nat (nrows M) <= i <= 0)%Z ->
   getrow B i =
   Ok (Matrix 1 (ncols M)
              [nth (Z.to_nat (i - 1 + Z.of_nat (nrows M))) (rows M) []])) /\
  ((i < 1 - Z.of_nat (nrows M) \/ Z.of_nat (nrows M) < i)%Z ->
   getrow B i = Raise IndexError).
Proof.
  intros HM HB. split.
  - intros Hi. apply getrow_value; try assumption.
    + apply norm_index_negative. lia.
    + lia.
  - intros Hi. destruct HB as (Hs & _ & _).
    unfold getrow, setitem. rewrite Hs. cbn [fst].
    rewrite length_zeros, norm_index_out_of_range by lia. reflexivity.
Qed.

Lemma getrow_index_range_witness :
  ((1 - Z.of_nat 2 <= -1 <= 0)%Z ->
   getrow (matrix_operator (Np.array [[1; 2]; [3; 4]])) (-1) =
   Ok (Matrix 1 2 [nth (Z.to_nat (-1 - 1 + Z.of_nat 2)) [[1; 2]; [3; 4]] []])) /\
  ((-1 < 1 - Z.of_nat 2 \/ Z.of_nat 2 < -1)%Z ->
   getrow (matrix_operator (Np.array [[1; 2]; [3; 4]])) (-1) = Raise IndexError).
Proof.
  apply (getrow_index_range (Np.array [[1; 2]; [3; 4]])
                            (matrix_operator (Np.array [[1; 2]; [3; 4]])) (-1)).
  - split; [reflexivity | repeat constructor].
  - apply matrix_operator_represents.
Defined.

(** X23. For the blur operator [B] returned by [genBH(n, w)] and
    [1 <= i <= n^2], [getrow(B, i)] is row [i - 1] of the dense matrix
    [vectorized2DBlurMatrix(n, n, w)], as a 1 by [n^2] array. *)
Theorem getrow_genBH_blur_dense
        (fuel n : nat) (w : Z) (B H : Sp.LinearOperator) (i : Z) :
  genBH fuel n w = Ok (B, H) -> (1 <= i <= Z.of_nat (n ^ 2))%Z ->
  exists M,
    vectorized2DBlurMatrix n n w = Ok M /\
    getrow B i = Ok (Matrix 1 (n ^ 2) [nth (Z.to_nat (i - 1)) (rows M) []]).
Proof.
  intros E Hi.
  destruct (getrow_genBH_blur fuel n w B H i E Hi) as (T & ET & EG).
  exists (Np.kron T T). split; [|exact EG].
  unfold vectorized2DBlurMatrix. rewrite ET. reflexivity.
Qed.

Lemma getrow_genBH_blur_dense_witness :
  exists M,
    vectorized2DBlurMatrix (2 ^ 1) (2 ^ 1) 3 = Ok M /\
    getrow (blur_operator (2 ^ 1) 3) 2
    = Ok (Matrix 1 ((2 ^ 1) ^ 2) [nth (Z.to_nat (2 - 1)) (rows M) []]).
Proof.
  apply (getrow_genBH_blur_dense 1 (2 ^ 1) 3 (blur_operator (2 ^ 1) 3)
                                 (haar_operator (2 ^ 1) (haar_norm 0)) 2).
  - apply genBH_returns; lia.
  - simpl. lia.
Defined.

(** ** More on [rescale] *)

(** X24. For an image whose minimum and maximum differ as floats and are
    at most [2**1022] in magnitude, [rescale] keeps the shape and every
    entry of its result lies between 0 and 1. *)
Theorem rescale_unit_interval (im : matrix) (lo hi : R) :
  Np.amin im = Ok lo -> Np.amax im = Ok hi ->
  py_float lo <> py_float hi ->
  - bpow 1022 <= lo -> hi <= bpow 1022 ->
  exists out,
    rescale im = Ok out /\
    nrows out = nrows im /\ ncols out = ncols im /\
    length (rows out) = length (rows im) /\
    forall x, In x (concat (rows out)) -> 0 <= x <= 1.
Proof.
  intros Hlo Hhi Hne _ _.
  eexists. split; [apply (rescale_value im lo hi Hlo Hhi Hne)|].
  split; [reflexivity|]. split; [reflexivity|].
  split; [unfold Np.map_entries; simpl; apply length_map|].
  destruct (rescale_output_range im lo hi Hlo Hhi Hne) as [H0 H1].
  intros x Hx. split.
  - eapply amin_le_entry; eassumption.
  - eapply amax_ge_entry; eassumption.
Qed.

Lemma rescale_unit_interval_witness :
  exists out,
    rescale (Np.array [[2; 4]; [3; 6]]) = Ok out /\
    nrows out = nrows (Np.array [[2; 4]; [3; 6]]) /\
    ncols out = ncols (Np.array [[2; 4]; [3; 6]]) /\
    length (rows out) = length (rows (Np.array [[2; 4]; [3; 6]])) /\
    forall x, In x (concat (rows out)) -> 0 <= x <= 1.
Proof.
  apply (rescale_unit_interval (Np.array [[2; 4]; [3; 6]]) 2 6).
  - exact amin_example.
  - exact amax_example.
  - exact py_float_example.
  - apply bpow_1022_le. lra.
  - apply bpow_1022_ge. lra.
Defined.

(** X25. For an image whose minimum and maximum are the same float, in
    particular a constant image, [rescale] returns the image of the same
    shape whose every entry is [float(min)] clipped to the interval from 0
    to 1. *)
Theorem rescale_constant (im : matrix) (lo hi : R) :
  Np.amin im = Ok lo -> Np.amax im = Ok hi ->
  py_float lo = py_float hi ->
  rescale im = Ok (Np.map_entries (fun _ => Np.clip 0 1 (py_float lo)) im).
Proof.
  intros Hlo Hhi He. exact (rescale_value_constant im lo hi Hlo Hhi He).
Qed.

Lemma rescale_constant_witness :
  rescale (Np.array [[3; 3]])
  = Ok (Np.map_entries (fun _ => Np.clip 0 1 (py_float 3)) (Np.array [[3; 3]])).
Proof.
  apply (rescale_constant (Np.array [[3; 3]]) 3 3).
  - unfold Np.amin. simpl. f_equal. apply Rmin_left. lra.
  - unfold Np.amax. simpl. f_equal. apply Rmax_left. lra.
  - reflexivity.
Defined.
